(** * Knowledge graph of @claude-flow/memory: a shallow embedding

    Embedding of [v3/@claude-flow/memory/src/memory-graph.ts] (class
    [MemoryGraph]) and the properties its specification states about it.

    Modelling conventions.
    - A JavaScript [number] is an exact rational ([Q]): every arithmetic
      statement below is a statement of exact arithmetic, equalities between
      computed numbers are [Qeq] ([==]).  Loop counters, sizes and lengths are
      [nat].
    - A JavaScript [Map] is an insertion-ordered association list ([JsMap]):
      [set] on a present key replaces the value in place, on an absent key it
      appends; iteration follows the list.  A [Set<string>] is an
      insertion-ordered duplicate-free list ([JsSet]).
    - The class instance is a record threaded through every method; a method
      returns the new instance (and its result, if it has one).
    - [EventEmitter.emit] appends to the [emitted] log of the instance.
    - [Math.random] is a stream of rationals read through a cursor. *)

From Stdlib Require Import String List Bool Arith Lia ZArith.
From Stdlib Require Import QArith Qminmax Qabs Qround Qfield.
From Stdlib Require Import Permutation Sorted.
Import ListNotations.

Local Open Scope string_scope.
Local Open Scope list_scope.

(** ** JavaScript containers *)

Module JsMap.
Section WithValue.
Variable V : Type.

Definition t := list (string * V).

Definition empty : t := [].

Fixpoint get (k : string) (m : t) : option V :=
  match m with
  | [] => None
  | (k', v) :: m' => if String.eqb k k' then Some v else get k m'
  end.

Definition has (k : string) (m : t) : bool :=
  match get k m with Some _ => true | None => false end.

Fixpoint set (k : string) (v : V) (m : t) : t :=
  match m with
  | [] => [(k, v)]
  | (k', v') :: m' =>
      if String.eqb k k' then (k', v) :: m' else (k', v') :: set k v m'
  end.

Fixpoint delete (k : string) (m : t) : t :=
  match m with
  | [] => []
  | (k', v') :: m' =>
      if String.eqb k k' then m' else (k', v') :: delete k m'
  end.

Definition keys (m : t) : list string := map fst m.

Definition size (m : t) : nat := length m.
End WithValue.

Arguments empty {V}.
Arguments get {V} k m.
Arguments has {V} k m.
Arguments set {V} k v m.
Arguments delete {V} k m.
Arguments keys {V} m.
Arguments size {V} m.
End JsMap.

Module JsSet.
Definition t := list string.

Definition has (x : string) (s : t) : bool := existsb (String.eqb x) s.

Definition add (x : string) (s : t) : t := if has x s then s else s ++ [x].

Definition delete (x : string) (s : t) : t :=
  filter (fun y => negb (String.eqb x y)) s.
End JsSet.

(** [a || d] on an optional number: [undefined] and [0] are falsy. *)
Definition num_or (o : option Q) (d : Q) : Q :=
  match o with
  | Some x => if Qeq_bool x 0 then d else x
  | None => d
  end.

(** [a || d] on an optional string: [undefined] and the empty string are falsy. *)
Definition str_or (o : option string) (d : string) : string :=
  match o with
  | Some s => if String.eqb s EmptyString then d else s
  | None => d
  end.

(** [a || d] on an optional length. *)
Definition len_or (o : option nat) (d : nat) : nat :=
  match o with
  | Some n => if Nat.eqb n 0 then d else n
  | None => d
  end.

Definition Qnat (n : nat) : Q := inject_Z (Z.of_nat n).

(** ** Types *)

Inductive EdgeType := reference | similar | temporal | co_accessed | causal.

Record MemoryGraphConfig := {
  cfg_similarityThreshold : option Q;
  cfg_pageRankDamping : option Q;
  cfg_pageRankIterations : option nat;
  cfg_pageRankConvergence : option Q;
  cfg_maxNodes : option nat;
  cfg_enableAutoEdges : option bool
}.

(** [Required<MemoryGraphConfig>]; [communityAlgorithm] is read by no method
    and is left out. *)
Record Config := {
  similarityThreshold : Q;
  pageRankDamping : Q;
  pageRankIterations : nat;
  pageRankConvergence : Q;
  maxNodes : nat;
  enableAutoEdges : bool
}.

Definition DEFAULT_CONFIG : Config := {|
  similarityThreshold := 8 # 10;
  pageRankDamping := 85 # 100;
  pageRankIterations := 50;
  pageRankConvergence := 1 # 1000000;
  maxNodes := 5000;
  enableAutoEdges := true
|}.

Definition or_default {A} (o : option A) (d : A) : A :=
  match o with Some a => a | None => d end.

(** [{ ...DEFAULT_CONFIG, ...config }] *)
Definition merge_config (c : option MemoryGraphConfig) : Config :=
  match c with
  | None => DEFAULT_CONFIG
  | Some c => {|
      similarityThreshold :=
        or_default (cfg_similarityThreshold c) (similarityThreshold DEFAULT_CONFIG);
      pageRankDamping :=
        or_default (cfg_pageRankDamping c) (pageRankDamping DEFAULT_CONFIG);
      pageRankIterations :=
        or_default (cfg_pageRankIterations c) (pageRankIterations DEFAULT_CONFIG);
      pageRankConvergence :=
        or_default (cfg_pageRankConvergence c) (pageRankConvergence DEFAULT_CONFIG);
      maxNodes := or_default (cfg_maxNodes c) (maxNodes DEFAULT_CONFIG);
      enableAutoEdges :=
        or_default (cfg_enableAutoEdges c) (enableAutoEdges DEFAULT_CONFIG)
    |}
  end.

Record GraphNode := {
  node_id : string;
  category : string;
  confidence : Q;
  accessCount : nat;
  createdAt : Z
}.

Record GraphEdge := {
  targetId : string;
  type : EdgeType;
  weight : Q
}.

(** Modelled from the spec: the [metadata] record of a memory entry, declared
    in [types.ts]; the graph reads its optional [category] and [confidence]. *)
Record Metadata := {
  md_category : option string;
  md_confidence : option Q
}.

(** Modelled from the spec: [MemoryEntry] of [types.ts], with the fields the
    graph reads: an id, a references list, optional metadata, accessCount,
    createdAt and an optional vector representation. *)
Record MemoryEntry := {
  entry_id : string;
  metadata : option Metadata;
  entry_accessCount : nat;
  entry_createdAt : Z;
  references : list string;
  embedding : option (list Q)
}.

(** Modelled from the spec: [SearchResult] of [types.ts], an entry with its
    external relevance score. *)
Record SearchResult := {
  sr_entry : MemoryEntry;
  sr_score : Q
}.

Record RankedResult := {
  entry : MemoryEntry;
  score : Q;
  pageRank : Q;
  combinedScore : Q;
  community : option string
}.

Inductive Event :=
| graph_built (nodeCount : nat)
| pagerank_computed (iterations : nat)
| communities_detected (communityCount : nat).

Record MemoryGraph := {
  nodes : JsMap.t GraphNode;
  edges : JsMap.t (list GraphEdge);
  reverseEdges : JsMap.t JsSet.t;
  pageRanks : JsMap.t Q;
  communities : JsMap.t string;
  config : Config;
  dirty : bool;
  emitted : list Event
}.

(** [new MemoryGraph(config)] *)
Definition new_graph (c : option MemoryGraphConfig) : MemoryGraph := {|
  nodes := JsMap.empty;
  edges := JsMap.empty;
  reverseEdges := JsMap.empty;
  pageRanks := JsMap.empty;
  communities := JsMap.empty;
  config := merge_config c;
  dirty := true;
  emitted := []
|}.

Definition emit (ev : Event) (g : MemoryGraph) : MemoryGraph := {|
  nodes := nodes g; edges := edges g; reverseEdges := reverseEdges g;
  pageRanks := pageRanks g; communities := communities g;
  config := config g; dirty := dirty g;
  emitted := emitted g ++ [ev]
|}.

Definition set_dirty (b : bool) (g : MemoryGraph) : MemoryGraph := {|
  nodes := nodes g; edges := edges g; reverseEdges := reverseEdges g;
  pageRanks := pageRanks g; communities := communities g;
  config := config g; dirty := b;
  emitted := emitted g
|}.

(** ** Graph store *)

(** [addNode(entry)] *)
Definition addNode (g : MemoryGraph) (e : MemoryEntry) : MemoryGraph :=
  if (maxNodes (config g) <=? JsMap.size (nodes g))%nat
     && negb (JsMap.has (entry_id e) (nodes g))
  then g
  else {|
    nodes := JsMap.set (entry_id e) {|
        node_id := entry_id e;
        category := str_or (match metadata e with
                            | Some m => md_category m | None => None end)
                           "general";
        confidence := num_or (match metadata e with
                              | Some m => md_confidence m | None => None end)
                             (1 # 2);
        accessCount := entry_accessCount e;
        createdAt := entry_createdAt e
      |} (nodes g);
    edges := if JsMap.has (entry_id e) (edges g) then edges g
             else JsMap.set (entry_id e) [] (edges g);
    reverseEdges := if JsMap.has (entry_id e) (reverseEdges g)
                    then reverseEdges g
                    else JsMap.set (entry_id e) [] (reverseEdges g);
    pageRanks := pageRanks g;
    communities := communities g;
    config := config g;
    dirty := true;
    emitted := emitted g
  |}.

Definition targets (e : GraphEdge) (t : string) : bool :=
  String.eqb (targetId e) t.

(** In-place update of the first element satisfying [p]: what
    [const x = arr.find(p); x.field = ...] does to the array. *)
Fixpoint update_first {A} (p : A -> bool) (f : A -> A) (l : list A) : list A :=
  match l with
  | [] => []
  | x :: xs => if p x then f x :: xs else x :: update_first p f xs
  end.

Definition raise_weight (w : Q) (e : GraphEdge) : GraphEdge :=
  {| targetId := targetId e; type := type e; weight := Qmax (weight e) w |}.

(** What [addEdge] does to the edge list of the source: the first edge
    aimed at [tgt] has its weight raised in place, or a new edge is pushed. *)
Definition mergeEdge (edgeList : list GraphEdge) (tgt : string)
    (ty : EdgeType) (weight : Q) : list GraphEdge :=
  match find (fun e => targets e tgt) edgeList with
  | Some _ => update_first (fun e => targets e tgt) (raise_weight weight) edgeList
  | None => edgeList ++ [{| targetId := tgt; type := ty; weight := weight |}]
  end.

(** [addEdge(sourceId, targetId, type, weight = 1.0)] *)
Definition addEdge (g : MemoryGraph) (sourceId tgt : string)
    (ty : EdgeType) (w : option Q) : MemoryGraph :=
  let weight := or_default w 1 in
  if negb (JsMap.has sourceId (nodes g)) || negb (JsMap.has tgt (nodes g))
  then g
  else
    let edgeList := or_default (JsMap.get sourceId (edges g)) [] in
    let edges1 := if JsMap.has sourceId (edges g) then edges g
                  else JsMap.set sourceId edgeList (edges g) in
    (* the array held by the map is mutated in place *)
    let edgeList' := mergeEdge edgeList tgt ty weight in
    let edges2 := JsMap.set sourceId edgeList' edges1 in
    let rev1 := if JsMap.has tgt (reverseEdges g) then reverseEdges g
                else JsMap.set tgt [] (reverseEdges g) in
    let rev2 := match JsMap.get tgt rev1 with
                | Some s => JsMap.set tgt (JsSet.add sourceId s) rev1
                | None => rev1
                end in
    {| nodes := nodes g; edges := edges2; reverseEdges := rev2;
       pageRanks := pageRanks g; communities := communities g;
       config := config g; dirty := true; emitted := emitted g |}.

(** [removeNode(id)] *)
Definition removeNode (g : MemoryGraph) (id : string) : MemoryGraph :=
  if negb (JsMap.has id (nodes g)) then g
  else
    let rev1 :=
      fold_left
        (fun rev edge =>
           match JsMap.get (targetId edge) rev with
           | Some s => JsMap.set (targetId edge) (JsSet.delete id s) rev
           | None => rev
           end)
        (or_default (JsMap.get id (edges g)) []) (reverseEdges g) in
    let edges1 := JsMap.delete id (edges g) in
    let edges2 :=
      match JsMap.get id rev1 with
      | Some incoming =>
          fold_left
            (fun es sourceId =>
               match JsMap.get sourceId es with
               | Some srcEdges =>
                   JsMap.set sourceId
                     (filter (fun e => negb (targets e id)) srcEdges) es
               | None => es
               end)
            incoming edges1
      | None => edges1
      end in
    {| nodes := JsMap.delete id (nodes g);
       edges := edges2;
       reverseEdges := JsMap.delete id rev1;
       pageRanks := JsMap.delete id (pageRanks g);
       communities := JsMap.delete id (communities g);
       config := config g; dirty := true; emitted := emitted g |}.

(** [buildFromBackend(backend, namespace)], given the entries the backend's
    [query] resolved to. *)
Definition buildFromBackend (g : MemoryGraph) (entries : list MemoryEntry)
    : MemoryGraph :=
  let g1 := fold_left addNode entries g in
  let g2 :=
    fold_left
      (fun g entry =>
         fold_left (fun g refId => addEdge g (entry_id entry) refId reference None)
                   (references entry) g)
      entries g1 in
  let g3 := set_dirty true g2 in
  emit (graph_built (JsMap.size (nodes g3))) g3.

Definition hasEdge (g : MemoryGraph) (sourceId tgt : string) : bool :=
  match JsMap.get sourceId (edges g) with
  | Some edgeList => existsb (fun e => targets e tgt) edgeList
  | None => false
  end.

(** [addSimilarityEdges(backend, entryId)], given what the backend's [get]
    and [search] resolved to. *)
Definition addSimilarityEdges (g : MemoryGraph) (entryId : string)
    (got : option MemoryEntry) (results : list SearchResult)
    : MemoryGraph * nat :=
  match got with
  | None => (g, 0%nat)
  | Some ent =>
      match embedding ent with
      | None => (g, 0%nat)
      | Some _ =>
          fold_left
            (fun (acc : MemoryGraph * nat) result =>
               let (g, added) := acc in
               if String.eqb (entry_id (sr_entry result)) entryId then acc
               else if Qle_bool (similarityThreshold (config g)) (sr_score result)
               then
                 let hadEdge := hasEdge g entryId (entry_id (sr_entry result)) in
                 let g' := addEdge g entryId (entry_id (sr_entry result)) similar
                                   (Some (sr_score result)) in
                 (g', if hadEdge then added else S added)
               else acc)
            results (g, 0%nat)
      end
  end.

(** ** PageRank engine *)

(** [a < b] on numbers. *)
Definition Qlt_bool (a b : Q) : bool := negb (Qle_bool b a).

(** [this.edges.get(sourceId)?.length || 1] *)
Definition outDegree (g : MemoryGraph) (sourceId : string) : nat :=
  len_or (option_map (@List.length GraphEdge) (JsMap.get sourceId (edges g))) 1.

(** The nodes with no outgoing edges, in node order. *)
Definition danglingNodes (g : MemoryGraph) : list string :=
  filter
    (fun nodeId =>
       match JsMap.get nodeId (edges g) with
       | None => true
       | Some out => Nat.eqb (List.length out) 0
       end)
    (JsMap.keys (nodes g)).

(** The sum accumulated over the recorded incoming sources of [nodeId]. *)
Definition incomingSum (g : MemoryGraph) (pr : JsMap.t Q) (nodeId : string) : Q :=
  match JsMap.get nodeId (reverseEdges g) with
  | Some incoming =>
      fold_left
        (fun sum sourceId =>
           sum + num_or (JsMap.get sourceId pr) 0 / Qnat (outDegree g sourceId))
        incoming 0
  | None => 0
  end.

Definition danglingSum (dangling : list string) (pr : JsMap.t Q) : Q :=
  fold_left (fun acc nodeId => acc + num_or (JsMap.get nodeId pr) 0) dangling 0.

Definition newRank (g : MemoryGraph) (N d dsum : Q) (pr : JsMap.t Q)
    (nodeId : string) : Q :=
  (1 - d) / N + d * (incomingSum g pr nodeId + dsum / N).

(** The body of one iteration: the new rank table and [maxDelta]. *)
Definition pagerank_pass (g : MemoryGraph) (N d : Q) (dangling : list string)
    (pr : JsMap.t Q) : JsMap.t Q * Q :=
  let dsum := danglingSum dangling pr in
  fold_left
    (fun (acc : JsMap.t Q * Q) nodeId =>
       let (newRanks, maxDelta) := acc in
       let r := newRank g N d dsum pr nodeId in
       (JsMap.set nodeId r newRanks,
        Qmax maxDelta (Qabs (r - num_or (JsMap.get nodeId pr) 0))))
    (JsMap.keys (nodes g)) (JsMap.empty, 0).

(** [for (iter = 0; iter < pageRankIterations; iter++)]: [remaining] counts
    the iterations left, [iterations] those performed. *)
Fixpoint pagerank_loop (g : MemoryGraph) (N d : Q) (dangling : list string)
    (remaining iterations : nat) (pr : JsMap.t Q) : JsMap.t Q * nat :=
  match remaining with
  | O => (pr, iterations)
  | S remaining' =>
      let (newRanks, maxDelta) := pagerank_pass g N d dangling pr in
      if Qlt_bool maxDelta (pageRankConvergence (config g))
      then (newRanks, S iterations)
      else pagerank_loop g N d dangling remaining' (S iterations) newRanks
  end.

Definition initialRanks (g : MemoryGraph) : JsMap.t Q :=
  fold_left
    (fun pr nodeId => JsMap.set nodeId (1 / Qnat (JsMap.size (nodes g))) pr)
    (JsMap.keys (nodes g)) (pageRanks g).

(** [computePageRank()]: the new instance and the returned copy of the table. *)
Definition computePageRank (g : MemoryGraph) : MemoryGraph * JsMap.t Q :=
  let N := JsMap.size (nodes g) in
  if Nat.eqb N 0 then
    (emit (pagerank_computed 0) (set_dirty false g), JsMap.empty)
  else
    let d := pageRankDamping (config g) in
    let (pr, iterations) :=
      pagerank_loop g (Qnat N) d (danglingNodes g)
                    (pageRankIterations (config g)) 0 (initialRanks g) in
    (emit (pagerank_computed iterations)
       {| nodes := nodes g; edges := edges g; reverseEdges := reverseEdges g;
          pageRanks := pr; communities := communities g;
          config := config g; dirty := false; emitted := emitted g |},
     pr).

(** ** Community detector *)

(** The random source: [Math.random()] returns [rnd cursor] and advances
    the cursor. *)
Definition Rng := nat -> Q.

Fixpoint list_set {T} (n : nat) (v : T) (l : list T) : list T :=
  match l, n with
  | [], _ => []
  | _ :: xs, O => v :: xs
  | x :: xs, S n' => x :: list_set n' v xs
  end.

(** [[a[i], a[j]] = [a[j], a[i]]] for indices inside the array. *)
Definition swap {T} (i j : nat) (arr : list T) : list T :=
  match nth_error arr i, nth_error arr j with
  | Some x, Some y => list_set j x (list_set i y arr)
  | _, _ => arr
  end.

(** [for (i = ...; i > 0; i--)] of [shuffleArray], at index [i]. *)
Fixpoint shuffle_loop {T} (rnd : Rng) (i cursor : nat) (shuffled : list T)
    : list T * nat :=
  match i with
  | O => (shuffled, cursor)
  | S i' =>
      let j := Z.to_nat (Qfloor (rnd cursor * Qnat (i + 1))) in
      shuffle_loop rnd i' (S cursor) (swap i j shuffled)
  end.

Definition shuffleArray {T} (rnd : Rng) (cursor : nat) (arr : list T)
    : list T * nat :=
  shuffle_loop rnd (List.length arr - 1) cursor arr.

Definition opt_string_eqb (a b : option string) : bool :=
  match a, b with
  | Some x, Some y => String.eqb x y
  | None, None => true
  | _, _ => false
  end.

(** The tally of candidate labels around [nodeId]. *)
Definition labelCounts (g : MemoryGraph) (labels : JsMap.t string)
    (nodeId : string) : JsMap.t Q :=
  let outgoing :=
    fold_left
      (fun lc edge =>
         match JsMap.get (targetId edge) labels with
         | Some lbl => JsMap.set lbl (num_or (JsMap.get lbl lc) 0 + weight edge) lc
         | None => lc
         end)
      (or_default (JsMap.get nodeId (edges g)) []) JsMap.empty in
  match JsMap.get nodeId (reverseEdges g) with
  | Some incoming =>
      fold_left
        (fun lc sourceId =>
           match JsMap.get sourceId labels with
           | Some lbl => JsMap.set lbl (num_or (JsMap.get lbl lc) 0 + 1) lc
           | None => lc
           end)
        incoming outgoing
  | None => outgoing
  end.

(** The body of the loop over [nodeIds]: the labels and the [changed] flag. *)
Definition visit (g : MemoryGraph) (acc : JsMap.t string * bool)
    (nodeId : string) : JsMap.t string * bool :=
  let (labels, changed) := acc in
  let lc := labelCounts g labels nodeId in
  if (0 <? JsMap.size lc)%nat then
    let best :=
      fold_left
        (fun (b : option string * Q) (lc_entry : string * Q) =>
           let (maxLabel, maxCount) := b in
           let (label, count) := lc_entry in
           if Qlt_bool maxCount count then (Some label, count) else b)
        lc (JsMap.get nodeId labels, 0) in
    if negb (opt_string_eqb (fst best) (JsMap.get nodeId labels)) then
      match fst best with
      | Some maxLabel => (JsMap.set nodeId maxLabel labels, true)
      | None => acc
      end
    else acc
  else acc.

Record Detection := {
  det_labels : JsMap.t string;
  det_cursor : nat;
  det_passes : nat
}.

(** [for (iter = 0; iter < 20; iter++)]: [remaining] counts the passes left,
    [passes] those performed. *)
Fixpoint communities_loop (g : MemoryGraph) (rnd : Rng)
    (remaining passes cursor : nat) (labels : JsMap.t string) : Detection :=
  match remaining with
  | O => {| det_labels := labels; det_cursor := cursor; det_passes := passes |}
  | S remaining' =>
      let (nodeIds, cursor') := shuffleArray rnd cursor (JsMap.keys (nodes g)) in
      let (labels', changed) := fold_left (visit g) nodeIds (labels, false) in
      if changed
      then communities_loop g rnd remaining' (S passes) cursor' labels'
      else {| det_labels := labels'; det_cursor := cursor';
              det_passes := S passes |}
  end.

Definition initialLabels (g : MemoryGraph) : JsMap.t string :=
  fold_left (fun labels nodeId => JsMap.set nodeId nodeId labels)
            (JsMap.keys (nodes g)) JsMap.empty.

(** [detectCommunities()]: the new instance and the detection (the returned
    copy of the labels, the cursor of the random source, the passes made). *)
Definition detectCommunities (g : MemoryGraph) (rnd : Rng) (cursor : nat)
    : MemoryGraph * Detection :=
  let det := communities_loop g rnd 20 0 cursor (initialLabels g) in
  let labels := det_labels det in
  (emit (communities_detected
           (List.length (nodup string_dec (map snd labels))))
     {| nodes := nodes g; edges := edges g; reverseEdges := reverseEdges g;
        pageRanks := pageRanks g; communities := labels;
        config := config g; dirty := dirty g; emitted := emitted g |},
   det).

(** ** Ranking blender *)

(** [Array.prototype.sort(cmp)]: the sort is stable, and for a consistent
    comparator its result is the stable sorted arrangement, computed here by
    insertion: an element goes before the first one it compares below. *)
Fixpoint insert_sorted {A} (cmp : A -> A -> Q) (x : A) (l : list A) : list A :=
  match l with
  | [] => [x]
  | y :: ys =>
      if Qlt_bool (cmp x y) 0 then x :: y :: ys
      else y :: insert_sorted cmp x ys
  end.

Definition Array_sort {A} (cmp : A -> A -> Q) (l : list A) : list A :=
  fold_left (fun acc x => insert_sorted cmp x acc) l [].

Definition rankOne (g : MemoryGraph) (alpha N : Q) (result : SearchResult)
    : RankedResult :=
  let pageRank := num_or (JsMap.get (entry_id (sr_entry result)) (pageRanks g)) 0 in
  {| entry := sr_entry result;
     score := sr_score result;
     pageRank := pageRank;
     combinedScore := alpha * sr_score result + (1 - alpha) * (pageRank * N);
     community := JsMap.get (entry_id (sr_entry result)) (communities g) |}.

(** [rankWithGraph(searchResults, alpha = 0.7)] *)
Definition rankWithGraph (g : MemoryGraph) (searchResults : list SearchResult)
    (alpha : option Q) : MemoryGraph * list RankedResult :=
  let alpha := or_default alpha (7 # 10) in
  let g1 := if dirty g then fst (computePageRank g) else g in
  let N := Qnat (len_or (Some (JsMap.size (nodes g1))) 1) in
  (g1,
   Array_sort (fun a b => combinedScore b - combinedScore a)
              (map (rankOne g1 alpha N) searchResults)).


(** ** Notions the statements are phrased with *)

(** The outgoing edge list of [s] (empty when [s] has no entry). *)
Definition outEdges (g : MemoryGraph) (s : string) : list GraphEdge :=
  or_default (JsMap.get s (edges g)) [].

(** The recorded incoming sources of [t] (empty when [t] has no entry). *)
Definition incomingOf (g : MemoryGraph) (t : string) : JsSet.t :=
  or_default (JsMap.get t (reverseEdges g)) [].

(** [s] is recorded in the reverse index as an incoming source of [t]. *)
Definition recorded (g : MemoryGraph) (s t : string) : bool :=
  JsSet.has s (incomingOf g t).

(** The edges of [s] aimed at [t]. *)
Definition edgesTo (g : MemoryGraph) (s t : string) : list GraphEdge :=
  filter (fun e => targets e t) (outEdges g s).

(** The invariant of the instance between two calls. *)
Record wf (g : MemoryGraph) : Prop := {
  wf_nodes_keys : NoDup (JsMap.keys (nodes g));
  wf_edges_keys : NoDup (JsMap.keys (edges g));
  wf_rev_keys : NoDup (JsMap.keys (reverseEdges g));
  wf_ranks_keys : NoDup (JsMap.keys (pageRanks g));
  wf_comm_keys : NoDup (JsMap.keys (communities g));
  wf_edges_dom : forall k, JsMap.has k (edges g) = JsMap.has k (nodes g);
  wf_rev_dom : forall k, JsMap.has k (reverseEdges g) = JsMap.has k (nodes g);
  wf_targets : forall s, NoDup (map targetId (outEdges g s));
  wf_sources : forall t, NoDup (incomingOf g t);
  wf_consistent : forall s t, recorded g s t = hasEdge g s t;
  wf_ranks_dom : forall k,
      JsMap.has k (pageRanks g) = true -> JsMap.has k (nodes g) = true;
  wf_comm_dom : forall k,
      JsMap.has k (communities g) = true -> JsMap.has k (nodes g) = true;
  wf_clean : dirty g = false ->
      forall k, JsMap.has k (nodes g) = true -> JsMap.has k (pageRanks g) = true
}.

(** The calls a client can make on an instance. *)
Inductive Op :=
| OpAddNode (e : MemoryEntry)
| OpAddEdge (sourceId tgt : string) (ty : EdgeType) (w : option Q)
| OpRemoveNode (id : string)
| OpBuildFromBackend (entries : list MemoryEntry)
| OpAddSimilarityEdges (entryId : string) (got : option MemoryEntry)
                       (results : list SearchResult)
| OpComputePageRank
| OpDetectCommunities (rnd : Rng) (cursor : nat)
| OpRankWithGraph (results : list SearchResult) (alpha : option Q).

Definition step (g : MemoryGraph) (op : Op) : MemoryGraph :=
  match op with
  | OpAddNode e => addNode g e
  | OpAddEdge s t ty w => addEdge g s t ty w
  | OpRemoveNode id => removeNode g id
  | OpBuildFromBackend entries => buildFromBackend g entries
  | OpAddSimilarityEdges entryId got results =>
      fst (addSimilarityEdges g entryId got results)
  | OpComputePageRank => fst (computePageRank g)
  | OpDetectCommunities rnd cursor => fst (detectCommunities g rnd cursor)
  | OpRankWithGraph results alpha => fst (rankWithGraph g results alpha)
  end.

Definition run (ops : list Op) (g : MemoryGraph) : MemoryGraph :=
  fold_left step ops g.

(** The states an instance can be in: those a sequence of calls produces
    from a fresh instance. *)
Definition reachable (g : MemoryGraph) : Prop :=
  exists c ops, g = run ops (new_graph c).

Definition sumQ (l : list Q) : Q := fold_right Qplus 0 l.

(** The rank of [id] in a table ([table.get(id) || 0]). *)
Definition rankOf (table : JsMap.t Q) (id : string) : Q :=
  num_or (JsMap.get id table) 0.

(** The sum over all current nodes of their rank in [table]. *)
Definition totalRank (g : MemoryGraph) (table : JsMap.t Q) : Q :=
  sumQ (map (rankOf table) (JsMap.keys (nodes g))).

(** The update rule as the specification words it, over the forward
    adjacency only: sources are the nodes holding an edge into [v], the out
    degree is the count of outgoing edges, dangling nodes have none. *)
Definition specIncomingSum (g : MemoryGraph) (pr : JsMap.t Q) (v : string) : Q :=
  sumQ (map (fun s => rankOf pr s / Qnat (List.length (outEdges g s)))
            (filter (fun s => hasEdge g s v) (JsMap.keys (nodes g)))).

Definition specDanglingSum (g : MemoryGraph) (pr : JsMap.t Q) : Q :=
  sumQ (map (rankOf pr)
            (filter (fun u => Nat.eqb (List.length (outEdges g u)) 0)
                    (JsMap.keys (nodes g)))).

Definition specNewRank (g : MemoryGraph) (pr : JsMap.t Q) (v : string) : Q :=
  let N := Qnat (JsMap.size (nodes g)) in
  let d := pageRankDamping (config g) in
  (1 - d) / N + d * (specIncomingSum g pr v + specDanglingSum g pr / N).

(** The same graph with every stored edge weight replaced. *)
Definition reweight (f : string -> GraphEdge -> Q) (g : MemoryGraph)
    : MemoryGraph := {|
  nodes := nodes g;
  edges := map (fun se : string * list GraphEdge =>
                  (fst se,
                   map (fun e => {| targetId := targetId e; type := type e;
                                    weight := f (fst se) e |})
                       (snd se)))
               (edges g);
  reverseEdges := reverseEdges g;
  pageRanks := pageRanks g; communities := communities g;
  config := config g; dirty := dirty g; emitted := emitted g
|}.

(** A node with no incident edges: no outgoing edge and no recorded source. *)
Definition isolated (g : MemoryGraph) (v : string) : Prop :=
  outEdges g v = [] /\ incomingOf g v = [].

(** A rank table with exactly one entry per node. *)
Definition covers (g : MemoryGraph) (pr : JsMap.t Q) : Prop :=
  NoDup (JsMap.keys pr) /\ forall k, JsMap.has k pr = JsMap.has k (nodes g).

(** ** Sample inputs *)

(** An entry that carries only an id. *)
Definition entryOf (id : string) : MemoryEntry := {|
  entry_id := id; metadata := None; entry_accessCount := 0;
  entry_createdAt := 0%Z; references := []; embedding := None
|}.

(** Two nodes and one [reference] edge of weight 2 between them. *)
Definition pair_ops : list Op :=
  [OpAddNode (entryOf "a"); OpAddNode (entryOf "b");
   OpAddEdge "a" "b" reference (Some 2)].

Definition pair_graph : MemoryGraph := run pair_ops (new_graph None).

(** The default configuration with the iteration cap lowered to 2. *)
Definition two_pass_config : option MemoryGraphConfig := Some {|
  cfg_similarityThreshold := None; cfg_pageRankDamping := None;
  cfg_pageRankIterations := Some 2%nat; cfg_pageRankConvergence := None;
  cfg_maxNodes := None; cfg_enableAutoEdges := None
|}.

(** The same graph once its ranks are computed: the staleness flag is clear. *)
Definition ranked_pair_ops : list Op := pair_ops ++ [OpComputePageRank].

Definition ranked_pair_graph : MemoryGraph :=
  run ranked_pair_ops (new_graph two_pass_config).

(** An entry whose metadata supplies confidence 0 and an empty category. *)
Definition zero_confidence_entry : MemoryEntry := {|
  entry_id := "a";
  metadata := Some {| md_category := Some EmptyString;
                      md_confidence := Some 0 |};
  entry_accessCount := 0; entry_createdAt := 0%Z;
  references := []; embedding := None
|}.

(** The pair graph with a third node that has no edge. *)
Definition lonely_graph : MemoryGraph :=
  run (pair_ops ++ [OpAddNode (entryOf "c")]) (new_graph None).

(** A random source that always returns one third. *)
Definition third_rng : Rng := fun _ => 1 # 3.

(** Non-increasing order of combined scores. *)
Definition byCombinedScore (a b : RankedResult) : Prop :=
  combinedScore b <= combinedScore a.

(** Three results, the middle one for an id that is not a node. *)
Definition sample_results : list SearchResult :=
  [{| sr_entry := entryOf "a"; sr_score := 1 # 2 |};
   {| sr_entry := entryOf "zz"; sr_score := 9 # 10 |};
   {| sr_entry := entryOf "b"; sr_score := 1 # 2 |}].

(** The pair graph under the two-pass configuration, ranks not yet computed. *)
Definition stale_pair_graph : MemoryGraph :=
  run pair_ops (new_graph two_pass_config).

(** One node and no edge. *)
Definition single_graph : MemoryGraph :=
  addNode (new_graph None) (entryOf "a").

(** ** Top nodes, traversal and statistics *)

Record TopNode := {
  top_id : string;
  top_pageRank : Q;
  top_community : string
}.

(** [arr.slice(0, n)]: a negative [n] counts from the end. *)
Definition slice_to {A} (n : Z) (l : list A) : list A :=
  if (0 <=? n)%Z then firstn (Z.to_nat n) l
  else firstn (List.length l - Z.to_nat (- n)) l.

(** [getTopNodes(n)] *)
Definition getTopNodes (g : MemoryGraph) (n : Z) : MemoryGraph * list TopNode :=
  let g1 := if dirty g then fst (computePageRank g) else g in
  (g1,
   map (fun e : string * Q =>
          {| top_id := fst e;
             top_pageRank := snd e;
             top_community := str_or (JsMap.get (fst e) (communities g1)) (fst e) |})
       (slice_to n
          (Array_sort (fun a b : string * Q => snd b - snd a) (pageRanks g1)))).

(** The loop over the edges of one frontier node: the visited set and the
    next frontier. *)
Definition expand (g : MemoryGraph) (id : string) (acc : JsSet.t * JsSet.t)
    (nodeId : string) : JsSet.t * JsSet.t :=
  fold_left
    (fun (acc : JsSet.t * JsSet.t) edge =>
       let (visited, nextFrontier) := acc in
       if negb (JsSet.has (targetId edge) visited)
          && negb (String.eqb (targetId edge) id)
       then (JsSet.add (targetId edge) visited,
             JsSet.add (targetId edge) nextFrontier)
       else acc)
    (or_default (JsMap.get nodeId (edges g)) []) acc.

(** [for (d = 0; d < depth; d++)] of [getNeighbors]; [remaining] counts the
    levels left. *)
Fixpoint neighbors_loop (g : MemoryGraph) (id : string) (remaining : nat)
    (visited frontier : JsSet.t) : JsSet.t :=
  match remaining with
  | O => visited
  | S remaining' =>
      let (visited', nextFrontier) :=
        fold_left (expand g id) frontier (visited, []) in
      if Nat.eqb (List.length nextFrontier) 0 then visited'
      else neighbors_loop g id remaining' visited' nextFrontier
  end.

(** [getNeighbors(id, depth = 1)] *)
Definition getNeighbors (g : MemoryGraph) (id : string) (depth : option nat)
    : JsSet.t :=
  neighbors_loop g id (or_default depth 1%nat) [] [id].

(** A number or [Infinity]. *)
Inductive ExtQ := Finite (q : Q) | Infinity.

(** [rank < min] *)
Definition below (rank : Q) (m : ExtQ) : bool :=
  match m with
  | Finite q => Qlt_bool rank q
  | Infinity => true
  end.

Record GraphStats := {
  nodeCount : nat;
  edgeCount : nat;
  avgDegree : Q;
  communityCount : nat;
  pageRankComputed : bool;
  maxPageRank : Q;
  minPageRank : ExtQ
}.

(** The loop of [getStats] over the cached ranks: the maximum and minimum. *)
Definition rankBounds (ranks : list Q) : Q * ExtQ :=
  fold_left
    (fun (acc : Q * ExtQ) rank =>
       let (maxPageRank, minPageRank) := acc in
       (if Qlt_bool maxPageRank rank then rank else maxPageRank,
        if below rank minPageRank then Finite rank else minPageRank))
    ranks (0, Infinity).

(** [getStats()] *)
Definition getStats (g : MemoryGraph) : GraphStats :=
  let totalEdges :=
    fold_left (fun total edgeList => (total + List.length edgeList)%nat)
              (map snd (edges g)) 0%nat in
  let nodeCount := JsMap.size (nodes g) in
  let bounds :=
    if (0 <? JsMap.size (pageRanks g))%nat
    then rankBounds (map snd (pageRanks g))
    else (0, Finite 0) in
  {| nodeCount := nodeCount;
     edgeCount := totalEdges;
     avgDegree := if (0 <? nodeCount)%nat
                  then Qnat totalEdges / Qnat nodeCount else 0;
     communityCount :=
       List.length (nodup string_dec (map snd (communities g)));
     pageRankComputed := negb (dirty g);
     maxPageRank := fst bounds;
     minPageRank := snd bounds |}.

(** ** Notions the further statements are phrased with *)

(** There is a path of [n] edges from [s] to [t]. *)
Inductive path (g : MemoryGraph) : nat -> string -> string -> Prop :=
| path_nil s : path g 0 s s
| path_step n s m t :
    hasEdge g s m = true -> path g n m t -> path g (S n) s t.

(** Every cached rank is non-negative. *)
Definition nonneg (pr : JsMap.t Q) : Prop :=
  forall k, 0 <= rankOf pr k.

(** Two tables that answer every lookup alike. *)
Definition sameLookups {V} (m m' : JsMap.t V) : Prop :=
  forall k, JsMap.get k m = JsMap.get k m'.

(** A chain of three nodes, the last edge aimed back at the start. *)
Definition chain_ops : list Op :=
  [OpAddNode (entryOf "a"); OpAddNode (entryOf "b"); OpAddNode (entryOf "c");
   OpAddEdge "a" "b" reference None; OpAddEdge "b" "c" similar (Some (1 # 2));
   OpAddEdge "c" "a" causal None].

Definition chain_graph : MemoryGraph := run chain_ops (new_graph two_pass_config).

(** A random source within [0, 1). *)
Definition half_rng : Rng := fun _ => 1 # 2.

(** The configuration is [cfg] and the node count within its capacity. *)
Definition within_capacity (cfg : Config) (g : MemoryGraph) : Prop :=
  config g = cfg /\ (JsMap.size (nodes g) <= maxNodes cfg)%nat.

(** The number of edges, as [getStats] counts them. *)
Definition totalEdges (g : MemoryGraph) : nat := edgeCount (getStats g).

(** An entry that carries an id and references. *)
Definition entryWith (id : string) (refs : list string) : MemoryEntry := {|
  entry_id := id; metadata := None; entry_accessCount := 0;
  entry_createdAt := 0%Z; references := refs; embedding := None
|}.

(** Three entries; the first refers to an entry listed after it and to an id
    that is no entry. *)
Definition linked_entries : list MemoryEntry :=
  [entryWith "a" ["c"; "nowhere"]; entryWith "b" ["a"]; entryWith "c" []].

(** An entry with a vector representation. *)
Definition embedded_entry (id : string) : MemoryEntry := {|
  entry_id := id; metadata := None; entry_accessCount := 0;
  entry_createdAt := 0%Z; references := []; embedding := Some [1; 0]
|}.

(** Neighbour search results for "a": itself, "b" (already linked), "c"
    twice, the second time below the threshold. *)
Definition neighbour_results : list SearchResult :=
  [{| sr_entry := entryOf "a"; sr_score := 1 |};
   {| sr_entry := entryOf "b"; sr_score := 9 # 10 |};
   {| sr_entry := entryOf "c"; sr_score := 85 # 100 |};
   {| sr_entry := entryOf "c"; sr_score := 1 # 2 |}].

(** [m <= r] for a minimum that may still be [Infinity]. *)
Definition atMost (m : ExtQ) (r : Q) : Prop :=
  match m with
  | Finite q => q <= r
  | Infinity => False
  end.

(** Non-increasing order of ranks. *)
Definition byRank (a b : TopNode) : Prop := top_pageRank b <= top_pageRank a.

(** A table whose ranks are non-negative and, on the nodes, at least
    [(1 - d)/N]. *)
Definition floored (g : MemoryGraph) (pr : JsMap.t Q) : Prop :=
  nonneg pr
  /\ forall v, JsMap.has v (nodes g) = true ->
       (1 - pageRankDamping (config g)) / Qnat (JsMap.size (nodes g))
       <= rankOf pr v.

(** With the staleness flag clear, the cached ranks answer every lookup as
    the table a recomputation would return. *)
Definition coherent (g : MemoryGraph) : Prop :=
  dirty g = false -> sameLookups (pageRanks g) (snd (computePageRank g)).

(** The table after [j] passes from the initial one. *)
Definition tableAfter (g : MemoryGraph) (j : nat) : JsMap.t Q :=
  Nat.iter j
    (fun t => fst (pagerank_pass g (Qnat (JsMap.size (nodes g)))
                     (pageRankDamping (config g)) (danglingNodes g) t))
    (initialRanks g).

(** The largest change of a rank in the pass applied to [t] is below the
    convergence threshold. *)
Definition settled (g : MemoryGraph) (t : JsMap.t Q) : bool :=
  Qlt_bool
    (snd (pagerank_pass g (Qnat (JsMap.size (nodes g)))
            (pageRankDamping (config g)) (danglingNodes g) t))
    (pageRankConvergence (config g)).

(** Every label in use is the id of a node. *)
Definition labelsAreNodes (g : MemoryGraph) (labels : JsMap.t string) : Prop :=
  forall v l, JsMap.get v labels = Some l -> JsMap.has l (nodes g) = true.

(** Every tallied label is the label of some node. *)
Definition talliesLabels (labels : JsMap.t string) (lc : JsMap.t Q) : Prop :=
  forall lbl, JsMap.has lbl lc = true ->
              exists u, JsMap.get u labels = Some lbl.

(** [t] is reached from [id] by a path of at least 1 and at most [k] edges. *)
Definition within (g : MemoryGraph) (id : string) (k : nat) (t : string) : Prop :=
  exists n, (1 <= n <= k)%nat /\ path g n id t.

(** The nodes a breadth-first level [k] consists of: [id] itself at level 0,
    then the other nodes reached within [k] edges and not within [k - 1]. *)
Definition atLevel (g : MemoryGraph) (id : string) (k : nat) (t : string) : Prop :=
  (k = 0%nat /\ t = id)
  \/ ((1 <= k)%nat /\ t <> id /\ within g id k t /\ ~ within g id (k - 1) t).

(** The state of the traversal after [k] levels. *)
Definition levelState (g : MemoryGraph) (id : string) (k : nat)
    (visited frontier : JsSet.t) : Prop :=
  (forall t, In t visited <-> t <> id /\ within g id k t)
  /\ (forall t, In t frontier <-> atLevel g id k t).
(** * Properties *)

(** ** Containers *)

Module JsMapFacts.
Import JsMap.
Section WithValue.
Context {V : Type}.
Implicit Types (m : JsMap.t V) (k : string) (v : V).

Lemma has_In k m : has k m = true <-> In k (keys m).
Proof.
  unfold has; induction m as [|[k' v'] m IH]; simpl.
  - split; [discriminate | tauto].
  - destruct (String.eqb_spec k k'); subst.
    + split; auto.
    + rewrite IH; split; [tauto | intros [E|E]; congruence].
Qed.

Lemma has_false k m : has k m = false <-> ~ In k (keys m).
Proof.
  rewrite <- has_In; destruct (has k m); split; congruence.
Qed.

Lemma get_has k m x : get k m = Some x -> has k m = true.
Proof. unfold has; intros ->; reflexivity. Qed.

Lemma has_get k m : has k m = true -> exists x, get k m = Some x.
Proof. unfold has; destruct (get k m); [eauto | discriminate]. Qed.

Lemma get_none_has k m : get k m = None <-> has k m = false.
Proof. unfold has; destruct (get k m); split; congruence. Qed.

Lemma get_In k m x : get k m = Some x -> In (k, x) m.
Proof.
  induction m as [|[k' v'] m IH]; simpl; [discriminate|].
  destruct (String.eqb_spec k k'); subst.
  - intros [= ->]; auto.
  - auto.
Qed.

Lemma In_get k m x : NoDup (keys m) -> In (k, x) m -> get k m = Some x.
Proof.
  induction m as [|[k' v'] m IH]; simpl; [tauto|].
  intros ND [E|I].
  - inversion E; subst; rewrite String.eqb_refl; reflexivity.
  - inversion ND; subst.
    destruct (String.eqb_spec k k'); subst.
    + exfalso; apply H1; change k' with (fst (k', x)); apply in_map; exact I.
    + auto.
Qed.

Lemma get_set k k' v m :
  get k (set k' v m) = if String.eqb k k' then Some v else get k m.
Proof.
  induction m as [|[k0 v0] m IH]; simpl.
  - destruct (String.eqb k k'); reflexivity.
  - destruct (String.eqb_spec k' k0); subst; simpl.
    + destruct (String.eqb k k0); reflexivity.
    + rewrite IH.
      destruct (String.eqb_spec k k0); subst.
      * destruct (String.eqb_spec k0 k'); congruence.
      * reflexivity.
Qed.

Lemma has_set k k' v m :
  has k (set k' v m) = String.eqb k k' || has k m.
Proof. unfold has; rewrite get_set; destruct (String.eqb k k'); reflexivity. Qed.

Lemma keys_set k v m :
  keys (set k v m) = if has k m then keys m else keys m ++ [k].
Proof.
  unfold has; induction m as [|[k0 v0] m IH]; simpl; [reflexivity|].
  destruct (String.eqb_spec k k0); subst; simpl; [reflexivity|].
  rewrite IH; destruct (get k m); reflexivity.
Qed.

Lemma size_set k v m :
  size (set k v m) = if has k m then size m else S (size m).
Proof.
  unfold size.
  rewrite <- (length_map fst (set k v m)), <- (length_map fst m).
  fold (keys (set k v m)); fold (keys m); rewrite keys_set.
  destruct (has k m); [reflexivity|].
  rewrite length_app; simpl; lia.
Qed.

Lemma NoDup_set k v m : NoDup (keys m) -> NoDup (keys (set k v m)).
Proof.
  intros ND; rewrite keys_set.
  destruct (has k m) eqn:E; [exact ND|].
  apply has_false in E.
  apply NoDup_app; [exact ND | repeat constructor; simpl; tauto |].
  intros x Hx [<-|[]]; auto.
Qed.

Lemma keys_delete_incl k m x : In x (keys (delete k m)) -> In x (keys m).
Proof.
  induction m as [|[k0 v0] m IH]; simpl; [tauto|].
  destruct (String.eqb k k0); simpl; intuition.
Qed.

Lemma NoDup_delete k m : NoDup (keys m) -> NoDup (keys (delete k m)).
Proof.
  induction m as [|[k0 v0] m IH]; simpl; [auto|].
  intros ND; inversion ND; subst.
  destruct (String.eqb k k0); simpl; [assumption|].
  constructor; auto.
  intros I; apply H1; eapply keys_delete_incl; exact I.
Qed.

Lemma get_delete k k' m :
  NoDup (keys m) ->
  get k (delete k' m) = if String.eqb k k' then None else get k m.
Proof.
  induction m as [|[k0 v0] m IH]; simpl; intros ND.
  - destruct (String.eqb k k'); reflexivity.
  - inversion ND; subst.
    destruct (String.eqb_spec k' k0); subst; simpl.
    + destruct (String.eqb_spec k k0); subst; [|reflexivity].
      apply get_none_has, has_false; assumption.
    + rewrite IH by assumption.
      destruct (String.eqb_spec k k0); subst; [|reflexivity].
      destruct (String.eqb_spec k0 k'); congruence.
Qed.

Lemma has_delete k k' m :
  NoDup (keys m) ->
  has k (delete k' m) = negb (String.eqb k k') && has k m.
Proof.
  intros ND; unfold has; rewrite get_delete by assumption.
  destruct (String.eqb k k'); reflexivity.
Qed.

Lemma size_delete k m :
  has k m = true -> S (size (delete k m)) = size m.
Proof.
  unfold has, size; induction m as [|[k0 v0] m IH]; simpl; [discriminate|].
  destruct (String.eqb k k0); simpl; [reflexivity|].
  intros H; rewrite IH by assumption; reflexivity.
Qed.

(** A loop that sets [f x] at every [x] of a list. *)
Lemma get_fold_set (f : string -> V) l m k :
  get k (fold_left (fun acc x => set x (f x) acc) l m)
  = if existsb (String.eqb k) l then Some (f k) else get k m.
Proof.
  revert m; induction l as [|x l IH]; simpl; intros m; [reflexivity|].
  rewrite IH, get_set.
  destruct (String.eqb_spec k x); subst; simpl.
  - destruct (existsb (String.eqb x) l); reflexivity.
  - reflexivity.
Qed.

Lemma NoDup_fold_set (f : string -> V) l m :
  NoDup (keys m) ->
  NoDup (keys (fold_left (fun acc x => set x (f x) acc) l m)).
Proof.
  revert m; induction l as [|x l IH]; simpl; intros m ND; [exact ND|].
  apply IH, NoDup_set, ND.
Qed.

Lemma keys_fold_set_empty (f : string -> V) l :
  NoDup l ->
  keys (fold_left (fun acc x => set x (f x) acc) l empty) = l.
Proof.
  intros ND.
  enough (G : forall m, NoDup (keys m ++ l) ->
            keys (fold_left (fun acc x => set x (f x) acc) l m) = keys m ++ l)
    by (apply (G empty); exact ND).
  clear ND; induction l as [|x l IH]; simpl; intros m ND.
  - symmetry; apply app_nil_r.
  - assert (E : has x m = false).
    { apply has_false; intros I.
      apply NoDup_remove_2 in ND; apply ND, in_or_app; auto. }
    rewrite IH; rewrite keys_set, E.
    + rewrite <- app_assoc; reflexivity.
    + rewrite <- app_assoc; exact ND.
Qed.
End WithValue.
End JsMapFacts.

Module JsSetFacts.
Import JsSet.

Lemma elem_has x s : has x s = true <-> In x s.
Proof.
  unfold has; rewrite existsb_exists; split.
  - intros (y & I & E); apply String.eqb_eq in E; subst; exact I.
  - intros I; exists x; split; [exact I | apply String.eqb_refl].
Qed.

Lemma elem_has_false x s : has x s = false <-> ~ In x s.
Proof. rewrite <- elem_has; destruct (has x s); split; congruence. Qed.

Lemma has_app y s s' : has y (s ++ s') = has y s || has y s'.
Proof. apply existsb_app. Qed.

Lemma has_add y x s : has y (add x s) = String.eqb y x || has y s.
Proof.
  unfold add; destruct (has x s) eqn:E.
  - destruct (String.eqb_spec y x); subst; simpl; [exact E | reflexivity].
  - rewrite has_app; simpl.
    destruct (String.eqb y x), (has y s); reflexivity.
Qed.

Lemma has_remove y x s :
  has y (delete x s) = negb (String.eqb y x) && has y s.
Proof.
  unfold delete, has; induction s as [|z s IH]; simpl.
  - destruct (String.eqb y x); reflexivity.
  - destruct (String.eqb_spec x z); subst; simpl; rewrite IH.
    + destruct (String.eqb_spec y z); subst; simpl; reflexivity.
    + destruct (String.eqb_spec y z); subst; simpl; [|reflexivity].
      destruct (String.eqb_spec z x); subst; simpl; congruence.
Qed.

Lemma NoDup_add x s : NoDup s -> NoDup (add x s).
Proof.
  intros ND; unfold add; destruct (has x s) eqn:E; [exact ND|].
  apply elem_has_false in E.
  apply NoDup_app; [exact ND | repeat constructor; simpl; tauto |].
  intros y Hy [<-|[]]; auto.
Qed.

Lemma NoDup_remove_elem x s : NoDup s -> NoDup (delete x s).
Proof. apply NoDup_filter. Qed.

Lemma delete_absent x s : has x s = false -> delete x s = s.
Proof.
  unfold delete, has; induction s as [|z s IH]; simpl; [reflexivity|].
  destruct (String.eqb x z); simpl; [discriminate|].
  intros H; rewrite IH by assumption; reflexivity.
Qed.

Lemma delete_idem x s : delete x (delete x s) = delete x s.
Proof.
  apply delete_absent; rewrite has_remove, String.eqb_refl; reflexivity.
Qed.
End JsSetFacts.

(** ** Lists *)

Lemma find_existsb {A} (p : A -> bool) l :
  existsb p l = match find p l with Some _ => true | None => false end.
Proof.
  induction l as [|x l IH]; simpl; [reflexivity|].
  destruct (p x); simpl; [reflexivity | exact IH].
Qed.

Lemma map_update_first {A B} (h : A -> B) (p : A -> bool) (f : A -> A) l :
  (forall x, h (f x) = h x) -> map h (update_first p f l) = map h l.
Proof.
  intros Hf; induction l as [|x l IH]; simpl; [reflexivity|].
  destruct (p x); simpl; congruence.
Qed.

Lemma existsb_map {A B} (h : A -> B) (q : B -> bool) l :
  existsb q (map h l) = existsb (fun x => q (h x)) l.
Proof. induction l as [|x l IH]; simpl; congruence. Qed.

Lemma existsb_targets l t :
  existsb (fun e => targets e t) l = JsSet.has t (map targetId l).
Proof.
  unfold JsSet.has, targets; induction l as [|e l IH]; simpl; [reflexivity|].
  rewrite IH, (String.eqb_sym t); reflexivity.
Qed.

Lemma filter_all {A} (p : A -> bool) l :
  existsb (fun x => negb (p x)) l = false -> filter p l = l.
Proof.
  induction l as [|x l IH]; simpl; [reflexivity|].
  destruct (p x); simpl; [intros H; rewrite IH by assumption; reflexivity|].
  discriminate.
Qed.

Lemma NoDup_map_filter {A B} (h : A -> B) (p : A -> bool) l :
  NoDup (map h l) -> NoDup (map h (filter p l)).
Proof.
  induction l as [|x l IH]; simpl; [auto|].
  intros ND; inversion ND; subst.
  destruct (p x); simpl; [|auto].
  constructor; [|auto].
  intros I; apply H1.
  apply in_map_iff in I; destruct I as (y & E & I).
  apply filter_In in I; rewrite <- E; apply in_map; tauto.
Qed.

(** ** The graph store keeps its invariant *)

Import JsMapFacts.

Lemma hasEdge_outEdges g s t :
  hasEdge g s t = existsb (fun e => targets e t) (outEdges g s).
Proof.
  unfold hasEdge, outEdges; destruct (JsMap.get s (edges g)); reflexivity.
Qed.

Lemma outEdges_absent g s : JsMap.has s (edges g) = false -> outEdges g s = [].
Proof.
  unfold outEdges; intros H; apply get_none_has in H; rewrite H; reflexivity.
Qed.

Lemma incomingOf_absent g t :
  JsMap.has t (reverseEdges g) = false -> incomingOf g t = [].
Proof.
  unfold incomingOf; intros H; apply get_none_has in H; rewrite H; reflexivity.
Qed.

(** An edge list only holds targets that are nodes, a source set only
    sources that are nodes. *)
Lemma wf_target_is_node g s t :
  wf g -> hasEdge g s t = true -> JsMap.has t (nodes g) = true.
Proof.
  intros W H; rewrite <- (wf_consistent g W) in H.
  rewrite <- (wf_rev_dom g W).
  destruct (JsMap.has t (reverseEdges g)) eqn:E; [reflexivity|].
  unfold recorded in H; rewrite (incomingOf_absent _ _ E) in H; discriminate.
Qed.

Lemma wf_source_is_node g s t :
  wf g -> hasEdge g s t = true -> JsMap.has s (nodes g) = true.
Proof.
  intros W H; rewrite <- (wf_edges_dom g W).
  destruct (JsMap.has s (edges g)) eqn:E; [reflexivity|].
  rewrite hasEdge_outEdges, (outEdges_absent _ _ E) in H; discriminate.
Qed.

Lemma wf_new c : wf (new_graph c).
Proof.
  constructor; simpl; intros; try constructor; try reflexivity;
    try discriminate.
Qed.

Lemma wf_emit ev g : wf g -> wf (emit ev g).
Proof. intros []; constructor; assumption. Qed.

Lemma wf_set_dirty g : wf g -> wf (set_dirty true g).
Proof. intros []; constructor; try assumption; discriminate. Qed.

Section Ensure.
Context {V : Type}.
Implicit Types (m : JsMap.t (list V)).

Lemma get_ensure k id m :
  or_default (JsMap.get k (if JsMap.has id m then m else JsMap.set id [] m)) []
  = or_default (JsMap.get k m) [].
Proof.
  destruct (JsMap.has id m) eqn:E; [reflexivity|].
  rewrite get_set; destruct (String.eqb_spec k id); subst; [|reflexivity].
  apply get_none_has in E; rewrite E; reflexivity.
Qed.

Lemma has_ensure k id m :
  JsMap.has k (if JsMap.has id m then m else JsMap.set id [] m)
  = String.eqb k id || JsMap.has k m.
Proof.
  destruct (JsMap.has id m) eqn:E; [|apply has_set].
  destruct (String.eqb_spec k id); subst; simpl; congruence.
Qed.

Lemma NoDup_ensure id m :
  NoDup (JsMap.keys m) ->
  NoDup (JsMap.keys (if JsMap.has id m then m else JsMap.set id [] m)).
Proof. destruct (JsMap.has id m); [auto | apply NoDup_set]. Qed.
End Ensure.

Lemma wf_addNode g e : wf g -> wf (addNode g e).
Proof.
  intros W; unfold addNode.
  destruct (_ && _); [exact W|].
  destruct W; constructor; simpl; try assumption.
  - apply NoDup_set; assumption.
  - apply NoDup_ensure; assumption.
  - apply NoDup_ensure; assumption.
  - intros k; rewrite (has_ensure (V:=GraphEdge)), has_set, wf_edges_dom0.
    reflexivity.
  - intros k; rewrite (has_ensure (V:=string)), has_set, wf_rev_dom0.
    reflexivity.
  - intros s; unfold outEdges; simpl.
    rewrite (get_ensure (V:=GraphEdge)); apply wf_targets0.
  - intros t; unfold incomingOf; simpl.
    rewrite (get_ensure (V:=string)); apply wf_sources0.
  - intros s t; rewrite hasEdge_outEdges; unfold recorded, incomingOf, outEdges.
    simpl; rewrite (get_ensure (V:=GraphEdge)), (get_ensure (V:=string)).
    specialize (wf_consistent0 s t); rewrite hasEdge_outEdges in wf_consistent0.
    exact wf_consistent0.
  - intros k H; rewrite has_set; rewrite (wf_ranks_dom0 k H); apply orb_true_r.
  - intros k H; rewrite has_set; rewrite (wf_comm_dom0 k H); apply orb_true_r.
  - discriminate.
Qed.

Lemma mergeEdge_targets l t ty w t' :
  existsb (fun e => targets e t') (mergeEdge l t ty w)
  = existsb (fun e => targets e t') l || String.eqb t t'.
Proof.
  unfold mergeEdge.
  pose proof (find_existsb (fun e => targets e t) l) as F.
  destruct (find _ l).
  - rewrite !existsb_targets, map_update_first by reflexivity.
    destruct (String.eqb_spec t t'); subst.
    + rewrite <- existsb_targets, F; reflexivity.
    + rewrite orb_false_r; reflexivity.
  - rewrite existsb_app; simpl; unfold targets at 2; simpl.
    rewrite orb_false_r; reflexivity.
Qed.

Lemma mergeEdge_NoDup l t ty w :
  NoDup (map targetId l) -> NoDup (map targetId (mergeEdge l t ty w)).
Proof.
  unfold mergeEdge; intros ND.
  pose proof (find_existsb (fun e => targets e t) l) as F.
  destruct (find _ l).
  - rewrite map_update_first by reflexivity; exact ND.
  - rewrite map_app; simpl.
    rewrite existsb_targets in F; apply JsSetFacts.elem_has_false in F.
    apply NoDup_app; [exact ND | repeat constructor; simpl; tauto |].
    intros x Hx [<-|[]]; auto.
Qed.

Lemma addEdge_skip g s t ty w :
  JsMap.has s (nodes g) = false \/ JsMap.has t (nodes g) = false ->
  addEdge g s t ty w = g.
Proof.
  unfold addEdge; intros [-> | ->]; simpl; [reflexivity|].
  rewrite orb_true_r; reflexivity.
Qed.

(** The instance after an [addEdge] between two present nodes. *)
Lemma addEdge_present g s t ty w :
  wf g -> JsMap.has s (nodes g) = true -> JsMap.has t (nodes g) = true ->
  addEdge g s t ty w = {|
    nodes := nodes g;
    edges := JsMap.set s (mergeEdge (outEdges g s) t ty (or_default w 1)) (edges g);
    reverseEdges := JsMap.set t (JsSet.add s (incomingOf g t)) (reverseEdges g);
    pageRanks := pageRanks g; communities := communities g;
    config := config g; dirty := true; emitted := emitted g |}.
Proof.
  intros W Hs Ht; unfold addEdge; rewrite Hs, Ht; simpl.
  rewrite (wf_edges_dom g W), Hs, (wf_rev_dom g W), Ht.
  rewrite <- (wf_rev_dom g W) in Ht.
  apply has_get in Ht; destruct Ht as (S & E).
  unfold incomingOf; rewrite E; reflexivity.
Qed.

Lemma wf_addEdge g s t ty w : wf g -> wf (addEdge g s t ty w).
Proof.
  intros W.
  destruct (JsMap.has s (nodes g)) eqn:Hs;
    [|rewrite addEdge_skip; auto].
  destruct (JsMap.has t (nodes g)) eqn:Ht;
    [|rewrite addEdge_skip; auto].
  rewrite addEdge_present by assumption.
  assert (OE : forall s', outEdges
            {| nodes := nodes g;
               edges := JsMap.set s (mergeEdge (outEdges g s) t ty (or_default w 1)) (edges g);
               reverseEdges := JsMap.set t (JsSet.add s (incomingOf g t)) (reverseEdges g);
               pageRanks := pageRanks g; communities := communities g;
               config := config g; dirty := true; emitted := emitted g |} s'
            = if String.eqb s' s
              then mergeEdge (outEdges g s) t ty (or_default w 1)
              else outEdges g s').
  { intros s'; unfold outEdges at 1; simpl; rewrite get_set.
    destruct (String.eqb s' s); reflexivity. }
  assert (IO : forall t', incomingOf
            {| nodes := nodes g;
               edges := JsMap.set s (mergeEdge (outEdges g s) t ty (or_default w 1)) (edges g);
               reverseEdges := JsMap.set t (JsSet.add s (incomingOf g t)) (reverseEdges g);
               pageRanks := pageRanks g; communities := communities g;
               config := config g; dirty := true; emitted := emitted g |} t'
            = if String.eqb t' t then JsSet.add s (incomingOf g t)
              else incomingOf g t').
  { intros t'; unfold incomingOf at 1; simpl; rewrite get_set.
    destruct (String.eqb t' t); reflexivity. }
  pose proof W as W'; destruct W'.
  constructor; simpl; try assumption.
  - apply NoDup_set; assumption.
  - apply NoDup_set; assumption.
  - intros k; rewrite has_set, wf_edges_dom0.
    destruct (String.eqb_spec k s); subst; simpl; congruence.
  - intros k; rewrite has_set, wf_rev_dom0.
    destruct (String.eqb_spec k t); subst; simpl; congruence.
  - intros s'; rewrite OE; destruct (String.eqb s' s); [|apply wf_targets0].
    apply mergeEdge_NoDup, wf_targets0.
  - intros t'; rewrite IO; destruct (String.eqb t' t); [|apply wf_sources0].
    apply JsSetFacts.NoDup_add, wf_sources0.
  - intros s' t'; rewrite hasEdge_outEdges; unfold recorded.
    rewrite OE, IO.
    specialize (wf_consistent0 s' t'); rewrite hasEdge_outEdges in wf_consistent0.
    unfold recorded in wf_consistent0.
    destruct (String.eqb_spec s' s), (String.eqb_spec t' t); subst.
    + rewrite JsSetFacts.has_add, mergeEdge_targets, !String.eqb_refl.
      rewrite !orb_true_r; reflexivity.
    + rewrite mergeEdge_targets, wf_consistent0.
      destruct (String.eqb_spec t t'); subst; [congruence|].
      rewrite orb_false_r; reflexivity.
    + rewrite JsSetFacts.has_add, wf_consistent0.
      destruct (String.eqb_spec s' s); subst; [congruence|]; reflexivity.
    + exact wf_consistent0.
  - discriminate.
Qed.

(** A loop that rewrites, for every element of a list, the value stored at
    the element's key when there is one. *)
Section UpdateLoop.
Context {V A : Type} (key : A -> string) (f : V -> V).
Hypothesis f_idem : forall v, f (f v) = f v.

Let body (m : JsMap.t V) (a : A) : JsMap.t V :=
  match JsMap.get (key a) m with
  | Some v => JsMap.set (key a) (f v) m
  | None => m
  end.

Lemma get_update_body m a k :
  JsMap.get k (body m a)
  = if String.eqb (key a) k then option_map f (JsMap.get k m)
    else JsMap.get k m.
Proof.
  unfold body; destruct (JsMap.get (key a) m) eqn:E.
  - rewrite get_set, (String.eqb_sym k).
    destruct (String.eqb_spec (key a) k); subst; [rewrite E|]; reflexivity.
  - destruct (String.eqb_spec (key a) k); subst; [rewrite E|]; reflexivity.
Qed.

Lemma keys_update_body m a : JsMap.keys (body m a) = JsMap.keys m.
Proof.
  unfold body; destruct (JsMap.get (key a) m) eqn:E; [|reflexivity].
  rewrite keys_set, (get_has _ _ _ E); reflexivity.
Qed.

Lemma get_update_loop l m k :
  JsMap.get k (fold_left body l m)
  = if existsb (fun a => String.eqb (key a) k) l
    then option_map f (JsMap.get k m)
    else JsMap.get k m.
Proof.
  revert m; induction l as [|a l IH]; simpl; intros m; [reflexivity|].
  rewrite IH, get_update_body.
  destruct (String.eqb (key a) k); simpl; [|reflexivity].
  destruct (existsb _ l); [|reflexivity].
  destruct (JsMap.get k m); simpl; [rewrite f_idem|]; reflexivity.
Qed.

Lemma keys_update_loop l m : JsMap.keys (fold_left body l m) = JsMap.keys m.
Proof.
  revert m; induction l as [|a l IH]; simpl; intros m; [reflexivity|].
  rewrite IH; apply keys_update_body.
Qed.
End UpdateLoop.

Lemma filter_idem {A} (p : A -> bool) l : filter p (filter p l) = filter p l.
Proof.
  induction l as [|x l IH]; simpl; [reflexivity|].
  destruct (p x) eqn:E; simpl; [rewrite E|]; congruence.
Qed.

Lemma existsb_filter_targets l t t' :
  existsb (fun e => targets e t') (filter (fun e => negb (targets e t)) l)
  = negb (String.eqb t' t) && existsb (fun e => targets e t') l.
Proof.
  unfold targets; induction l as [|e l IH]; simpl.
  - rewrite andb_false_r; reflexivity.
  - destruct (String.eqb_spec (targetId e) t); subst; simpl; rewrite IH.
    + destruct (String.eqb_spec (targetId e) t'); subst; simpl; [|reflexivity].
      rewrite String.eqb_refl; reflexivity.
    + destruct (String.eqb_spec (targetId e) t'); subst; simpl; [|reflexivity].
      destruct (String.eqb_spec (targetId e) t); subst; simpl; congruence.
Qed.

Section RemoveNode.
Variables (g : MemoryGraph) (id : string).
Hypothesis W : wf g.
Hypothesis present : JsMap.has id (nodes g) = true.

Lemma removeNode_nodes :
  nodes (removeNode g id) = JsMap.delete id (nodes g).
Proof. unfold removeNode; rewrite present; reflexivity. Qed.

Lemma removeNode_rev_get t :
  JsMap.get t (reverseEdges (removeNode g id))
  = if String.eqb t id then None
    else option_map (JsSet.delete id) (JsMap.get t (reverseEdges g)).
Proof.
  unfold removeNode; rewrite present; simpl.
  rewrite get_delete
    by (rewrite keys_update_loop; apply (wf_rev_keys g W)).
  destruct (String.eqb_spec t id); [reflexivity|].
  rewrite (get_update_loop targetId (JsSet.delete id))
    by apply JsSetFacts.delete_idem.
  destruct (existsb _ _) eqn:E; [reflexivity|].
  assert (R : recorded g id t = false).
  { rewrite (wf_consistent g W), hasEdge_outEdges; exact E. }
  unfold recorded, incomingOf in R.
  destruct (JsMap.get t (reverseEdges g)); simpl in *; [|reflexivity].
  rewrite JsSetFacts.delete_absent by exact R; reflexivity.
Qed.

Lemma removeNode_edges_get s :
  JsMap.get s (edges (removeNode g id))
  = if String.eqb s id then None
    else option_map (filter (fun e => negb (targets e id)))
                    (JsMap.get s (edges g)).
Proof.
  unfold removeNode; rewrite present; simpl.
  set (rev1 := fold_left _ _ (reverseEdges g)).
  assert (ND : NoDup (JsMap.keys (JsMap.delete id (edges g))))
    by apply NoDup_delete, (wf_edges_keys g W).
  assert (G : forall incoming,
    (forall x, x <> id -> JsSet.has x incoming = recorded g x id) ->
    JsMap.get s
      (fold_left
         (fun es sourceId =>
            match JsMap.get sourceId es with
            | Some srcEdges =>
                JsMap.set sourceId
                  (filter (fun e => negb (targets e id)) srcEdges) es
            | None => es
            end) incoming (JsMap.delete id (edges g)))
    = if String.eqb s id then None
      else option_map (filter (fun e => negb (targets e id)))
                      (JsMap.get s (edges g))).
  { intros incoming Hin.
    rewrite (get_update_loop (fun x : string => x)
               (filter (fun e => negb (targets e id))))
      by apply filter_idem.
    rewrite get_delete by apply (wf_edges_keys g W).
    destruct (String.eqb_spec s id); [destruct (existsb _ _); reflexivity|].
    destruct (existsb _ _) eqn:E; [reflexivity|].
    assert (R : recorded g s id = false).
    { rewrite <- Hin by assumption.
      unfold JsSet.has; rewrite <- E; clear.
      induction incoming as [|x l IH]; simpl; [reflexivity|].
      rewrite IH, (String.eqb_sym s); reflexivity. }
    rewrite (wf_consistent g W), hasEdge_outEdges in R; unfold outEdges in R.
    destruct (JsMap.get s (edges g)); simpl in *; [|reflexivity].
    rewrite filter_all; [reflexivity|].
    rewrite <- R; clear; induction l as [|e l IH]; simpl; [reflexivity|].
    rewrite negb_involutive, IH; reflexivity. }
  assert (E1 : JsMap.get id rev1
               = if existsb (fun e => targets e id) (outEdges g id)
                 then option_map (JsSet.delete id)
                                 (JsMap.get id (reverseEdges g))
                 else JsMap.get id (reverseEdges g)).
  { unfold rev1; rewrite (get_update_loop targetId (JsSet.delete id))
      by apply JsSetFacts.delete_idem; reflexivity. }
  assert (Hrev : JsMap.has id (reverseEdges g) = true)
    by (rewrite (wf_rev_dom g W); exact present).
  apply has_get in Hrev; destruct Hrev as (S & HS).
  rewrite HS in E1; rewrite E1.
  assert (IS : incomingOf g id = S) by (unfold incomingOf; rewrite HS; reflexivity).
  destruct (existsb _ (outEdges g id)); simpl; apply G; intros x Hx;
    unfold recorded; rewrite IS.
  - rewrite JsSetFacts.has_remove.
    destruct (String.eqb_spec x id); [congruence | reflexivity].
  - reflexivity.
Qed.

Lemma removeNode_edges_keys : NoDup (JsMap.keys (edges (removeNode g id))).
Proof.
  unfold removeNode; rewrite present; simpl.
  destruct (JsMap.get id _).
  - rewrite (keys_update_loop (fun x : string => x)).
    apply NoDup_delete, (wf_edges_keys g W).
  - apply NoDup_delete, (wf_edges_keys g W).
Qed.

Lemma removeNode_rev_keys :
  NoDup (JsMap.keys (reverseEdges (removeNode g id))).
Proof.
  unfold removeNode; rewrite present; simpl.
  apply NoDup_delete; rewrite keys_update_loop; apply (wf_rev_keys g W).
Qed.

Lemma removeNode_outEdges s :
  outEdges (removeNode g id) s
  = if String.eqb s id then []
    else filter (fun e => negb (targets e id)) (outEdges g s).
Proof.
  unfold outEdges; rewrite removeNode_edges_get.
  destruct (String.eqb s id); [reflexivity|].
  destruct (JsMap.get s (edges g)); reflexivity.
Qed.

Lemma removeNode_incomingOf t :
  incomingOf (removeNode g id) t
  = if String.eqb t id then [] else JsSet.delete id (incomingOf g t).
Proof.
  unfold incomingOf; rewrite removeNode_rev_get.
  destruct (String.eqb t id); [reflexivity|].
  destruct (JsMap.get t (reverseEdges g)); reflexivity.
Qed.
End RemoveNode.

Lemma removeNode_absent g id :
  JsMap.has id (nodes g) = false -> removeNode g id = g.
Proof. unfold removeNode; intros ->; reflexivity. Qed.

Lemma removeNode_dirty g id :
  JsMap.has id (nodes g) = true -> dirty (removeNode g id) = true.
Proof. unfold removeNode; intros ->; reflexivity. Qed.

Lemma wf_removeNode g id : wf g -> wf (removeNode g id).
Proof.
  intros W.
  destruct (JsMap.has id (nodes g)) eqn:P;
    [|rewrite removeNode_absent; assumption].
  assert (HN : forall k, JsMap.has k (nodes (removeNode g id))
                         = negb (String.eqb k id) && JsMap.has k (nodes g)).
  { intros k; rewrite removeNode_nodes by assumption.
    apply has_delete, (wf_nodes_keys g W). }
  constructor.
  - rewrite removeNode_nodes by assumption.
    apply NoDup_delete, (wf_nodes_keys g W).
  - apply removeNode_edges_keys; assumption.
  - apply removeNode_rev_keys; assumption.
  - unfold removeNode; rewrite P; simpl.
    apply NoDup_delete, (wf_ranks_keys g W).
  - unfold removeNode; rewrite P; simpl.
    apply NoDup_delete, (wf_comm_keys g W).
  - intros k; rewrite HN; unfold JsMap.has at 1.
    rewrite removeNode_edges_get by assumption.
    rewrite <- (wf_edges_dom g W); unfold JsMap.has.
    destruct (String.eqb k id); simpl; [reflexivity|].
    destruct (JsMap.get k (edges g)); reflexivity.
  - intros k; rewrite HN; unfold JsMap.has at 1.
    rewrite removeNode_rev_get by assumption.
    rewrite <- (wf_rev_dom g W); unfold JsMap.has.
    destruct (String.eqb k id); simpl; [reflexivity|].
    destruct (JsMap.get k (reverseEdges g)); reflexivity.
  - intros s; rewrite removeNode_outEdges by assumption.
    destruct (String.eqb s id); [constructor|].
    apply NoDup_map_filter, (wf_targets g W).
  - intros t; rewrite removeNode_incomingOf by assumption.
    destruct (String.eqb t id); [constructor|].
    apply JsSetFacts.NoDup_remove_elem, (wf_sources g W).
  - intros s t; rewrite hasEdge_outEdges; unfold recorded.
    rewrite removeNode_outEdges, removeNode_incomingOf by assumption.
    pose proof (wf_consistent g W s t) as C.
    rewrite hasEdge_outEdges in C; unfold recorded in C.
    destruct (String.eqb_spec t id); subst; simpl.
    + destruct (String.eqb s id); simpl; [reflexivity|].
      rewrite existsb_filter_targets, String.eqb_refl; reflexivity.
    + rewrite JsSetFacts.has_remove.
      destruct (String.eqb_spec s id); subst; simpl; [reflexivity|].
      rewrite existsb_filter_targets.
      destruct (String.eqb_spec t id); subst; simpl; congruence.
  - intros k; rewrite HN; unfold removeNode; rewrite P; simpl.
    rewrite has_delete by apply (wf_ranks_keys g W).
    destruct (String.eqb k id); simpl; [discriminate|].
    apply (wf_ranks_dom g W).
  - intros k; rewrite HN; unfold removeNode; rewrite P; simpl.
    rewrite has_delete by apply (wf_comm_keys g W).
    destruct (String.eqb k id); simpl; [discriminate|].
    apply (wf_comm_dom g W).
  - rewrite removeNode_dirty by assumption; discriminate.
Qed.

Lemma wf_fold {A} (f : MemoryGraph -> A -> MemoryGraph) l :
  (forall g a, wf g -> wf (f g a)) -> forall g, wf g -> wf (fold_left f l g).
Proof.
  intros Hf; induction l as [|a l IH]; simpl; intros g W; [exact W|].
  apply IH, Hf, W.
Qed.

Lemma wf_buildFromBackend g entries : wf g -> wf (buildFromBackend g entries).
Proof.
  intros W; unfold buildFromBackend.
  apply wf_emit, wf_set_dirty, wf_fold.
  - intros g' e W'; apply wf_fold; [|exact W'].
    intros g'' r W''; apply wf_addEdge, W''.
  - apply wf_fold; [|exact W]. intros; apply wf_addNode; assumption.
Qed.

Lemma wf_addSimilarityEdges g entryId got results :
  wf g -> wf (fst (addSimilarityEdges g entryId got results)).
Proof.
  intros W; unfold addSimilarityEdges.
  destruct got as [ent|]; [|exact W].
  destruct (embedding ent); [|exact W].
  set (body := fun (acc : MemoryGraph * nat) (result : SearchResult) => _).
  enough (G : forall acc, wf (fst acc) -> wf (fst (fold_left body results acc)))
    by (apply G; exact W).
  induction results as [|r rs IH]; simpl; intros acc Wa; [exact Wa|].
  apply IH; unfold body; destruct acc as [g' added]; simpl in *.
  destruct (String.eqb _ entryId); [exact Wa|].
  destruct (Qle_bool _ _); [|exact Wa].
  simpl; apply wf_addEdge, Wa.
Qed.

(** ** The compute passes keep the invariant *)

Lemma has_keys {V} k (m : JsMap.t V) :
  JsMap.has k m = JsSet.has k (JsMap.keys m).
Proof.
  destruct (JsMap.has k m) eqn:E; symmetry.
  - apply JsSetFacts.elem_has, has_In, E.
  - apply JsSetFacts.elem_has_false, has_false, E.
Qed.

Lemma pagerank_pass_table g N d dangling pr :
  fst (pagerank_pass g N d dangling pr)
  = fold_left
      (fun acc x => JsMap.set x (newRank g N d (danglingSum dangling pr) pr x) acc)
      (JsMap.keys (nodes g)) JsMap.empty.
Proof.
  unfold pagerank_pass.
  set (body := fun (acc : JsMap.t Q * Q) (nodeId : string) => _).
  enough (G : forall l m q,
            fst (fold_left body l (m, q))
            = fold_left
                (fun acc x =>
                   JsMap.set x (newRank g N d (danglingSum dangling pr) pr x) acc)
                l m) by apply G.
  induction l as [|x l IH]; intros m q; [reflexivity|].
  cbn [fold_left]; unfold body at 2; apply IH.
Qed.

Lemma pagerank_pass_get g N d dangling pr k :
  JsMap.get k (fst (pagerank_pass g N d dangling pr))
  = if JsMap.has k (nodes g)
    then Some (newRank g N d (danglingSum dangling pr) pr k)
    else None.
Proof.
  rewrite pagerank_pass_table, get_fold_set, has_keys; reflexivity.
Qed.

Lemma pagerank_pass_keys g N d dangling pr :
  NoDup (JsMap.keys (nodes g)) ->
  JsMap.keys (fst (pagerank_pass g N d dangling pr)) = JsMap.keys (nodes g).
Proof.
  intros ND; rewrite pagerank_pass_table; apply keys_fold_set_empty, ND.
Qed.

(** What holds of the initial table and is kept by a pass holds of the
    table the loop ends with. *)
Lemma pagerank_loop_inv (P : JsMap.t Q -> Prop) g N d dangling :
  (forall pr, P pr -> P (fst (pagerank_pass g N d dangling pr))) ->
  forall remaining iterations pr,
    P pr -> P (fst (pagerank_loop g N d dangling remaining iterations pr)).
Proof.
  intros Hpass; induction remaining as [|r IH]; simpl; intros it pr HP;
    [exact HP|].
  specialize (Hpass pr HP).
  destruct (pagerank_pass g N d dangling pr) as [newRanks maxDelta].
  destruct (Qlt_bool _ _); [exact Hpass | apply IH, Hpass].
Qed.

Lemma initialRanks_get g k :
  JsMap.get k (initialRanks g)
  = if JsMap.has k (nodes g) then Some (1 / Qnat (JsMap.size (nodes g)))
    else JsMap.get k (pageRanks g).
Proof. unfold initialRanks; rewrite get_fold_set, has_keys; reflexivity. Qed.

Lemma covers_initialRanks g : wf g -> covers g (initialRanks g).
Proof.
  intros W; split.
  - apply NoDup_fold_set, (wf_ranks_keys g W).
  - intros k; unfold JsMap.has at 1; rewrite initialRanks_get.
    destruct (JsMap.has k (nodes g)) eqn:E; [reflexivity|].
    fold (JsMap.has k (pageRanks g)).
    destruct (JsMap.has k (pageRanks g)) eqn:E'; [|reflexivity].
    rewrite (wf_ranks_dom g W k E') in E; discriminate.
Qed.

Lemma covers_pass g N d dangling pr :
  wf g -> covers g (fst (pagerank_pass g N d dangling pr)).
Proof.
  intros W; split.
  - rewrite pagerank_pass_keys; apply (wf_nodes_keys g W).
  - intros k; unfold JsMap.has at 1; rewrite pagerank_pass_get.
    destruct (JsMap.has k (nodes g)); reflexivity.
Qed.

Lemma computePageRank_table g :
  snd (computePageRank g) = if Nat.eqb (JsMap.size (nodes g)) 0 then JsMap.empty
                            else pageRanks (fst (computePageRank g)).
Proof.
  unfold computePageRank.
  destruct (Nat.eqb _ 0); [reflexivity|].
  destruct (pagerank_loop _ _ _ _ _ _ _); reflexivity.
Qed.

Lemma computePageRank_frame g :
  let g' := fst (computePageRank g) in
  nodes g' = nodes g /\ edges g' = edges g /\ reverseEdges g' = reverseEdges g
  /\ communities g' = communities g /\ config g' = config g
  /\ dirty g' = false.
Proof.
  unfold computePageRank.
  destruct (Nat.eqb _ 0); [simpl; tauto|].
  destruct (pagerank_loop _ _ _ _ _ _ _); simpl; tauto.
Qed.

Lemma computePageRank_ranks g :
  pageRanks (fst (computePageRank g))
  = if Nat.eqb (JsMap.size (nodes g)) 0 then pageRanks g
    else fst (pagerank_loop g (Qnat (JsMap.size (nodes g)))
                (pageRankDamping (config g)) (danglingNodes g)
                (pageRankIterations (config g)) 0 (initialRanks g)).
Proof.
  unfold computePageRank.
  destruct (Nat.eqb _ 0); [reflexivity|].
  destruct (pagerank_loop _ _ _ _ _ _ _); reflexivity.
Qed.

Lemma size_zero_has {V} (m : JsMap.t V) k :
  JsMap.size m = 0%nat -> JsMap.has k m = false.
Proof. destruct m; [reflexivity | discriminate]. Qed.

Lemma wf_computePageRank g : wf g -> wf (fst (computePageRank g)).
Proof.
  intros W.
  destruct (computePageRank_frame g) as (En & Ee & Er & Ec & _ & Ed).
  assert (C : covers g (pageRanks (fst (computePageRank g)))
              \/ (JsMap.size (nodes g) = 0%nat
                  /\ pageRanks (fst (computePageRank g)) = pageRanks g)).
  { rewrite computePageRank_ranks.
    destruct (Nat.eqb_spec (JsMap.size (nodes g)) 0); [right; auto | left].
    apply (pagerank_loop_inv (covers g)).
    - intros; apply covers_pass, W.
    - apply covers_initialRanks, W. }
  constructor; rewrite ?En, ?Ee, ?Er, ?Ec; try apply W.
  - destruct C as [[ND _] | [_ ->]]; [exact ND | apply W].
  - unfold outEdges; rewrite Ee; apply (wf_targets g W).
  - unfold incomingOf; rewrite Er; apply (wf_sources g W).
  - intros s t; unfold recorded, incomingOf, hasEdge; rewrite Ee, Er.
    apply (wf_consistent g W).
  - intros k; destruct C as [[_ C] | [_ ->]]; [rewrite C; auto | apply W].
  - intros _ k Hk; destruct C as [[_ C] | [Z _]]; [rewrite C; exact Hk|].
    rewrite (size_zero_has _ k Z) in Hk; discriminate.
Qed.

Lemma list_set_incl {T} n (v : T) l x :
  In x (list_set n v l) -> x = v \/ In x l.
Proof.
  revert n; induction l as [|y l IH]; intros [|n]; simpl; try tauto.
  - intros [E|I]; auto.
  - intros [E|I]; auto. destruct (IH _ I); auto.
Qed.

Lemma swap_incl {T} i j (l : list T) x : In x (swap i j l) -> In x l.
Proof.
  unfold swap.
  destruct (nth_error l i) as [a|] eqn:Ei; [|auto].
  destruct (nth_error l j) as [b|] eqn:Ej; [|auto].
  intros H; apply list_set_incl in H; destruct H as [->|H].
  - eapply nth_error_In; eassumption.
  - apply list_set_incl in H; destruct H as [->|H]; [|exact H].
    eapply nth_error_In; eassumption.
Qed.

Lemma shuffleArray_incl {T} rnd cursor (arr : list T) x :
  In x (fst (shuffleArray rnd cursor arr)) -> In x arr.
Proof.
  unfold shuffleArray; generalize (List.length arr - 1)%nat as i.
  intros i; revert cursor arr; induction i as [|i IH]; intros cursor arr;
    [auto|].
  cbn [shuffle_loop]; intros H; apply IH in H; eapply swap_incl; exact H.
Qed.

Lemma visit_keys g labels changed nodeId :
  JsMap.has nodeId labels = true ->
  JsMap.keys (fst (visit g (labels, changed) nodeId)) = JsMap.keys labels.
Proof.
  intros H; unfold visit.
  destruct (0 <? JsMap.size (labelCounts g labels nodeId))%nat; [|reflexivity].
  destruct (negb _); [|reflexivity].
  destruct (fst (fold_left _ _ _)); [|reflexivity].
  cbn [fst]; rewrite keys_set, H; reflexivity.
Qed.

Lemma visits_keys g nodeIds labels changed :
  (forall x, In x nodeIds -> JsMap.has x labels = true) ->
  JsMap.keys (fst (fold_left (visit g) nodeIds (labels, changed)))
  = JsMap.keys labels.
Proof.
  revert labels changed; induction nodeIds as [|x l IH]; intros labels changed H;
    [reflexivity|].
  cbn [fold_left].
  pose proof (visit_keys g labels changed x (H x (or_introl eq_refl))) as K.
  destruct (visit g (labels, changed) x) as [labels' changed']; simpl in K.
  rewrite IH, K; [reflexivity|].
  intros y Hy; rewrite has_keys, K, <- has_keys; apply H; right; exact Hy.
Qed.

Lemma communities_loop_keys g rnd remaining passes cursor labels :
  (forall x, In x (JsMap.keys (nodes g)) -> JsMap.has x labels = true) ->
  JsMap.keys (det_labels (communities_loop g rnd remaining passes cursor labels))
  = JsMap.keys labels.
Proof.
  revert passes cursor labels; induction remaining as [|r IH];
    intros passes cursor labels H; [reflexivity|].
  cbn [communities_loop].
  pose proof (shuffleArray_incl rnd cursor (JsMap.keys (nodes g))) as SI.
  destruct (shuffleArray rnd cursor (JsMap.keys (nodes g))) as [nodeIds cursor'].
  simpl in SI.
  pose proof (visits_keys g nodeIds labels false (fun x Hx => H x (SI x Hx))) as K.
  destruct (fold_left (visit g) nodeIds (labels, false)) as [labels' changed].
  simpl in K; destruct changed; [|exact K].
  rewrite IH, K; [reflexivity|].
  intros y Hy; rewrite has_keys, K, <- has_keys; apply H, Hy.
Qed.

Lemma initialLabels_get g k :
  JsMap.get k (initialLabels g)
  = if JsMap.has k (nodes g) then Some k else None.
Proof.
  unfold initialLabels.
  rewrite (get_fold_set (fun x : string => x)), has_keys; reflexivity.
Qed.

Lemma detectCommunities_keys g rnd cursor :
  NoDup (JsMap.keys (nodes g)) ->
  JsMap.keys (communities (fst (detectCommunities g rnd cursor)))
  = JsMap.keys (nodes g).
Proof.
  intros ND; unfold detectCommunities, emit; cbn [fst communities].
  rewrite communities_loop_keys.
  - apply (keys_fold_set_empty (fun x : string => x)), ND.
  - intros x Hx; unfold JsMap.has; rewrite initialLabels_get.
    apply has_In in Hx; rewrite Hx; reflexivity.
Qed.

Lemma wf_detectCommunities g rnd cursor :
  wf g -> wf (fst (detectCommunities g rnd cursor)).
Proof.
  intros W.
  pose proof (detectCommunities_keys g rnd cursor (wf_nodes_keys g W)) as K.
  destruct W; constructor; try assumption.
  - rewrite K; assumption.
  - intros k; rewrite !has_keys, K; auto.
Qed.

Lemma wf_rankWithGraph g results alpha :
  wf g -> wf (fst (rankWithGraph g results alpha)).
Proof.
  intros W; unfold rankWithGraph; simpl.
  destruct (dirty g); [apply wf_computePageRank|]; exact W.
Qed.

Lemma wf_step g op : wf g -> wf (step g op).
Proof.
  intros W; destruct op; cbn [step].
  - apply wf_addNode, W.
  - apply wf_addEdge, W.
  - apply wf_removeNode, W.
  - apply wf_buildFromBackend, W.
  - apply wf_addSimilarityEdges, W.
  - apply wf_computePageRank, W.
  - apply wf_detectCommunities, W.
  - apply wf_rankWithGraph, W.
Qed.

Lemma wf_run ops g : wf g -> wf (run ops g).
Proof. unfold run; apply wf_fold; intros; apply wf_step; assumption. Qed.

Lemma wf_reachable g : reachable g -> wf g.
Proof. intros (c & ops & ->); apply wf_run, wf_new. Qed.

(** ** The graph store: edges and the reverse index *)

Lemma In_outEdges_hasEdge g s t :
  hasEdge g s t = true <-> exists e, In e (outEdges g s) /\ targetId e = t.
Proof.
  rewrite hasEdge_outEdges, existsb_exists; unfold targets.
  split; intros (e & I & E); exists e; split; auto.
  - apply String.eqb_eq, E.
  - apply String.eqb_eq, E.
Qed.

(** C2. In every state a sequence of calls can produce, [s] is recorded as
    an incoming source of [t] exactly when the outgoing edge list of [s]
    holds an edge aimed at [t]; and after [removeNode(X)] no outgoing edge
    list holds an edge aimed at [X], [X] has no entry in the reverse index
    and no source set holds [X]. *)
Theorem reverse_index_consistent (c : option MemoryGraphConfig) (ops : list Op) :
  let g := run ops (new_graph c) in
  (forall s t,
      In s (incomingOf g t)
      <-> exists e, In e (outEdges g s) /\ targetId e = t)
  /\ (forall X,
        let g' := removeNode g X in
        (forall s e, In e (outEdges g' s) -> targetId e <> X)
        /\ JsMap.has X (reverseEdges g') = false
        /\ (forall t, ~ In X (incomingOf g' t))
        /\ (forall s t,
              In s (incomingOf g' t)
              <-> exists e, In e (outEdges g' s) /\ targetId e = t)).
Proof.
  intros g.
  assert (W : wf g) by (apply wf_reachable; exists c, ops; reflexivity).
  assert (C : forall h, wf h -> forall s t,
             In s (incomingOf h t)
             <-> exists e, In e (outEdges h s) /\ targetId e = t).
  { intros h Wh s t.
    rewrite <- In_outEdges_hasEdge, <- (wf_consistent h Wh).
    unfold recorded; symmetry; apply JsSetFacts.elem_has. }
  split; [apply C, W|].
  intros X g'.
  assert (W' : wf g') by apply wf_removeNode, W.
  assert (NE : forall s, hasEdge g' s X = false).
  { intros s; unfold g'.
    destruct (JsMap.has X (nodes g)) eqn:P.
    - rewrite hasEdge_outEdges, removeNode_outEdges by assumption.
      destruct (String.eqb s X); [reflexivity|].
      rewrite existsb_filter_targets, String.eqb_refl; reflexivity.
    - rewrite removeNode_absent by assumption.
      destruct (hasEdge g s X) eqn:H; [|reflexivity].
      rewrite (wf_target_is_node g s X W H) in P; discriminate. }
  assert (NR : JsMap.has X (reverseEdges g') = false).
  { unfold g'; destruct (JsMap.has X (nodes g)) eqn:P.
    - unfold JsMap.has; rewrite removeNode_rev_get by assumption.
      rewrite String.eqb_refl; reflexivity.
    - rewrite removeNode_absent by assumption.
      rewrite (wf_rev_dom g W); exact P. }
  repeat split.
  - intros s e I E.
    assert (H : hasEdge g' s X = true)
      by (apply In_outEdges_hasEdge; exists e; auto).
    rewrite NE in H; discriminate.
  - exact NR.
  - intros t I; apply JsSetFacts.elem_has in I.
    fold (recorded g' X t) in I; rewrite (wf_consistent g' W') in I.
    apply (wf_source_is_node g' X t W') in I.
    rewrite <- (wf_rev_dom g' W'), NR in I; discriminate.
  - apply C, W'.
  - apply C, W'.
Qed.

Lemma reverse_index_consistent_witness :
  (exists e, In e (outEdges pair_graph "a") /\ targetId e = "b")
  /\ (forall e, In e (outEdges (removeNode pair_graph "b") "a") ->
                targetId e <> "b")
  /\ JsMap.has "b" (reverseEdges (removeNode pair_graph "b")) = false.
Proof.
  destruct (reverse_index_consistent None pair_ops) as [C R].
  split.
  - apply (C "a" "b"); simpl; left; reflexivity.
  - destruct (R "b") as (NE & NR & _).
    split; [intros e; apply (NE "a" e) | exact NR].
Defined.

Lemma filter_targets_none l t :
  ~ In t (map targetId l) -> filter (fun e => targets e t) l = [].
Proof.
  induction l as [|y l IH]; simpl; intros H; [reflexivity|].
  destruct (targets y t) eqn:T.
  - exfalso; apply H; left; apply String.eqb_eq, T.
  - apply IH; tauto.
Qed.

Lemma filter_update_first l t f e0 :
  NoDup (map targetId l) -> In e0 l -> targetId e0 = t ->
  (forall e, targetId (f e) = targetId e) ->
  filter (fun e => targets e t) (update_first (fun e => targets e t) f l)
  = [f e0].
Proof.
  intros ND I E Hf; induction l as [|x l IH]; simpl in *; [tauto|].
  inversion ND; subst.
  destruct (targets x (targetId e0)) eqn:Tx.
  - apply String.eqb_eq in Tx.
    assert (x = e0).
    { destruct I as [I|I]; [exact I|].
      exfalso; apply H1; rewrite Tx; apply in_map, I. }
    subst x; simpl.
    replace (targets (f e0) (targetId e0)) with true
      by (unfold targets; rewrite Hf, String.eqb_refl; reflexivity).
    rewrite filter_targets_none by assumption; reflexivity.
  - simpl; rewrite Tx.
    destruct I as [I|I];
      [subst; unfold targets in Tx; rewrite String.eqb_refl in Tx; discriminate|].
    apply IH; assumption.
Qed.

Lemma Qmax_keep (a b : Q) : b <= a -> Qmax a b = a.
Proof.
  intros H; unfold Qmax, GenericMinMax.gmax.
  destruct (Qcompare a b) eqn:E; try reflexivity.
  rewrite <- Qlt_alt in E; exfalso; apply (Qlt_not_le _ _ E H).
Qed.

Lemma Qmax_raise (a b : Q) : a < b -> Qmax a b = b.
Proof.
  intros H; unfold Qmax, GenericMinMax.gmax.
  rewrite Qlt_alt in H; rewrite H; reflexivity.
Qed.

(** C3. When [s] already holds an edge to [t] of type [T0] and weight [w0],
    [addEdge(s, t, T1, w1)] leaves exactly one edge from [s] to [t]: its type
    is [T0] and its weight the maximum of [w0] and [w1], that is [w0] when
    [w1 <= w0] and [w1] when [w0 < w1]. *)
Theorem addEdge_existing_pair (c : option MemoryGraphConfig) (ops : list Op)
    (s t : string) (T0 T1 : EdgeType) (w0 w1 : Q) :
  let g := run ops (new_graph c) in
  In {| targetId := t; type := T0; weight := w0 |} (outEdges g s) ->
  let g' := addEdge g s t T1 (Some w1) in
  edgesTo g' s t = [{| targetId := t; type := T0; weight := Qmax w0 w1 |}]
  /\ (w1 <= w0 -> Qmax w0 w1 = w0)
  /\ (w0 < w1 -> Qmax w0 w1 = w1).
Proof.
  intros g I g'.
  assert (W : wf g) by (apply wf_reachable; exists c, ops; reflexivity).
  assert (H : hasEdge g s t = true).
  { apply In_outEdges_hasEdge; eexists; split; [exact I | reflexivity]. }
  split; [|split; [apply Qmax_keep | apply Qmax_raise]].
  unfold edgesTo, g'.
  rewrite addEdge_present;
    [| exact W | eapply wf_source_is_node; eassumption
     | eapply wf_target_is_node; eassumption].
  unfold outEdges at 1; simpl; rewrite get_set, String.eqb_refl; simpl.
  unfold mergeEdge.
  pose proof (find_existsb (fun e => targets e t) (outEdges g s)) as F.
  rewrite <- hasEdge_outEdges, H in F.
  destruct (find _ (outEdges g s)); [|discriminate].
  rewrite (filter_update_first _ t _ _ (wf_targets g W s) I);
    reflexivity.
Qed.

Lemma addEdge_existing_pair_witness :
  edgesTo (addEdge pair_graph "a" "b" similar (Some 3)) "a" "b"
  = [{| targetId := "b"; type := reference; weight := Qmax 2 3 |}]
  /\ (3 <= 2 -> Qmax 2 3 = 2)
  /\ (2 < 3 -> Qmax 2 3 = 3).
Proof.
  apply (addEdge_existing_pair None pair_ops "a" "b" reference similar 2 3).
  simpl; left; reflexivity.
Defined.

Lemma hasEdge_addEdge g s t ty w :
  JsMap.has s (nodes g) = true -> JsMap.has t (nodes g) = true ->
  hasEdge (addEdge g s t ty w) s t = true.
Proof.
  intros Hs Ht; unfold addEdge; rewrite Hs, Ht; simpl.
  unfold hasEdge; simpl; rewrite get_set, String.eqb_refl.
  rewrite mergeEdge_targets, String.eqb_refl; apply orb_true_r.
Qed.

Lemma has_addNode g e k :
  JsMap.has k (nodes g) = true -> JsMap.has k (nodes (addNode g e)) = true.
Proof.
  intros H; unfold addNode; destruct (_ && _); [exact H|].
  simpl; rewrite has_set, H; apply orb_true_r.
Qed.

Lemma has_addNode_new g e :
  (JsMap.size (nodes g) < maxNodes (config g))%nat ->
  JsMap.has (entry_id e) (nodes (addNode g e)) = true.
Proof.
  intros H; unfold addNode.
  destruct (Nat.leb_spec (maxNodes (config g)) (JsMap.size (nodes g)));
    [lia|].
  simpl; rewrite has_set, String.eqb_refl; reflexivity.
Qed.




(** ** The staleness flag *)




Lemma run_app ops1 ops2 g : run (ops1 ++ ops2) g = run ops2 (run ops1 g).
Proof. apply fold_left_app. Qed.


Lemma get_outEdges g s :
  JsMap.has s (edges g) = true -> JsMap.get s (edges g) = Some (outEdges g s).
Proof.
  intros H; apply has_get in H; destruct H as (l & Hl).
  unfold outEdges; rewrite Hl; reflexivity.
Qed.






(** ** Node attributes *)

(** C9, at the failing input.  An entry whose metadata supplies confidence 0
    and an empty category is stored with confidence 0.5 and category
    "general": [||] takes the default for every falsy value, not only for an
    absent one. *)
Theorem addNode_zero_confidence :
  let g := addNode (new_graph None) zero_confidence_entry in
  option_map confidence (JsMap.get "a" (nodes g)) = Some (1 # 2)
  /\ option_map category (JsMap.get "a" (nodes g)) = Some "general"
  /\ option_map md_confidence (metadata zero_confidence_entry) = Some (Some 0)
  /\ option_map md_category (metadata zero_confidence_entry)
     = Some (Some EmptyString).
Proof. repeat split; reflexivity. Qed.

(** What [addNode] stores for an entry it accepts. *)
Lemma addNode_stored g e :
  (JsMap.size (nodes g) < maxNodes (config g))%nat
  \/ JsMap.has (entry_id e) (nodes g) = true ->
  JsMap.get (entry_id e) (nodes (addNode g e))
  = Some {| node_id := entry_id e;
            category := str_or (match metadata e with
                                | Some m => md_category m | None => None end)
                               "general";
            confidence := num_or (match metadata e with
                                  | Some m => md_confidence m | None => None end)
                                 (1 # 2);
            accessCount := entry_accessCount e;
            createdAt := entry_createdAt e |}.
Proof.
  intros H; unfold addNode.
  assert (E : (maxNodes (config g) <=? JsMap.size (nodes g))%nat
              && negb (JsMap.has (entry_id e) (nodes g)) = false).
  { destruct H as [H|H].
    - apply Nat.leb_gt in H; rewrite H; reflexivity.
    - rewrite H; apply andb_false_r. }
  rewrite E; simpl; rewrite get_set, String.eqb_refl; reflexivity.
Qed.

(** ** Community detection *)

Lemma labelCounts_isolated g labels v :
  isolated g v -> labelCounts g labels v = JsMap.empty.
Proof.
  intros [Ho Hi]; unfold labelCounts.
  unfold outEdges in Ho; rewrite Ho; simpl.
  unfold incomingOf in Hi.
  destruct (JsMap.get v (reverseEdges g)); simpl in Hi; subst; reflexivity.
Qed.

Lemma visit_isolated g labels changed x v :
  isolated g v ->
  JsMap.get v (fst (visit g (labels, changed) x)) = JsMap.get v labels.
Proof.
  intros Hv; unfold visit.
  destruct (String.eqb_spec x v).
  - subst; rewrite labelCounts_isolated by assumption; reflexivity.
  - destruct (0 <? JsMap.size (labelCounts g labels x))%nat; [|reflexivity].
    destruct (negb _); [|reflexivity].
    destruct (fst (fold_left _ _ _)); [|reflexivity].
    cbn [fst]; rewrite get_set.
    destruct (String.eqb_spec v x); [congruence | reflexivity].
Qed.

Lemma visits_isolated g nodeIds labels changed v :
  isolated g v ->
  JsMap.get v (fst (fold_left (visit g) nodeIds (labels, changed)))
  = JsMap.get v labels.
Proof.
  intros Hv; revert labels changed.
  induction nodeIds as [|x l IH]; intros labels changed; [reflexivity|].
  cbn [fold_left].
  pose proof (visit_isolated g labels changed x v Hv) as E.
  destruct (visit g (labels, changed) x) as [labels' changed'].
  rewrite IH; exact E.
Qed.

Lemma communities_loop_isolated g rnd remaining passes cursor labels v :
  isolated g v ->
  JsMap.get v (det_labels (communities_loop g rnd remaining passes cursor labels))
  = JsMap.get v labels.
Proof.
  intros Hv; revert passes cursor labels.
  induction remaining as [|r IH]; intros passes cursor labels; [reflexivity|].
  cbn [communities_loop].
  destruct (shuffleArray rnd cursor (JsMap.keys (nodes g))) as [nodeIds cursor'].
  pose proof (visits_isolated g nodeIds labels false v Hv) as E.
  destruct (fold_left (visit g) nodeIds (labels, false)) as [labels' changed].
  destruct changed; [rewrite IH|]; exact E.
Qed.

Lemma communities_loop_passes g rnd remaining passes cursor labels :
  (det_passes (communities_loop g rnd remaining passes cursor labels)
   <= passes + remaining)%nat.
Proof.
  revert passes cursor labels.
  induction remaining as [|r IH]; intros passes cursor labels; simpl; [lia|].
  destruct (shuffleArray rnd cursor (JsMap.keys (nodes g))) as [nodeIds cursor'].
  destruct (fold_left (visit g) nodeIds (labels, false)) as [labels' changed].
  destruct changed; [|simpl; lia].
  specialize (IH (S passes) cursor' labels'); lia.
Qed.

(** C8. Whatever the random source returns, [detectCommunities] makes at
    most 20 passes and returns, and every node with no outgoing edge and no
    recorded incoming source ends labelled with its own id. *)
Theorem detectCommunities_bounded (g : MemoryGraph) (rnd : Rng) (cursor : nat) :
  let g' := fst (detectCommunities g rnd cursor) in
  let det := snd (detectCommunities g rnd cursor) in
  (det_passes det <= 20)%nat
  /\ communities g' = det_labels det
  /\ forall v, JsMap.has v (nodes g) = true -> isolated g v ->
               JsMap.get v (det_labels det) = Some v
               /\ JsMap.get v (communities g') = Some v.
Proof.
  unfold detectCommunities; cbn [fst snd emit communities].
  split; [apply (communities_loop_passes g rnd 20 0)|].
  split; [reflexivity|].
  intros v Hn Hv.
  rewrite communities_loop_isolated by assumption.
  rewrite initialLabels_get, Hn; auto.
Qed.

Lemma detectCommunities_bounded_witness :
  (det_passes (snd (detectCommunities lonely_graph third_rng 0)) <= 20)%nat
  /\ JsMap.get "c" (det_labels (snd (detectCommunities lonely_graph third_rng 0)))
     = Some "c".
Proof.
  destruct (detectCommunities_bounded lonely_graph third_rng 0) as (P & _ & L).
  split; [exact P|].
  apply (L "c"); [reflexivity | split; reflexivity].
Defined.

(** ** Ranking *)

Lemma Qlt_bool_iff a b : Qlt_bool a b = true <-> a < b.
Proof.
  unfold Qlt_bool; rewrite negb_true_iff.
  destruct (Qle_bool b a) eqn:E.
  - apply Qle_bool_iff in E; split; [discriminate|].
    intros H; exfalso; apply (Qlt_not_le _ _ H E).
  - split; [intros _ | reflexivity].
    apply Qnot_le_lt; intros H; apply Qle_bool_iff in H; congruence.
Qed.

Lemma Qlt_bool_false a b : Qlt_bool a b = false <-> b <= a.
Proof.
  unfold Qlt_bool; rewrite negb_false_iff; apply Qle_bool_iff.
Qed.

Section Sorting.
Context {A : Type} (key : A -> Q).

Let cmp (a b : A) : Q := key b - key a.
Let R (a b : A) : Prop := key b <= key a.

Lemma insert_sorted_perm x l : Permutation (insert_sorted cmp x l) (x :: l).
Proof.
  induction l as [|y l IH]; simpl; [reflexivity|].
  destruct (Qlt_bool (cmp x y) 0); [reflexivity|].
  rewrite IH; apply perm_swap.
Qed.

Lemma Array_sort_perm l : Permutation (Array_sort cmp l) l.
Proof.
  unfold Array_sort.
  enough (G : forall acc,
            Permutation (fold_left (fun acc x => insert_sorted cmp x acc) l acc)
                        (acc ++ l)) by apply (G []).
  induction l as [|x l IH]; intros acc; simpl.
  - rewrite app_nil_r; reflexivity.
  - rewrite IH, insert_sorted_perm; apply Permutation_middle.
Qed.

Lemma insert_sorted_sorted x l :
  StronglySorted R l -> StronglySorted R (insert_sorted cmp x l).
Proof.
  induction l as [|y l IH]; simpl; intros S.
  - repeat constructor.
  - inversion S; subst.
    destruct (Qlt_bool (cmp x y) 0) eqn:E.
    + apply Qlt_bool_iff in E; unfold cmp in E.
      assert (Hxy : key y <= key x).
      { apply Qlt_le_weak; apply (Qplus_lt_l _ _ (- key x)).
        setoid_replace (key x + - key x) with 0 by ring; exact E. }
      constructor; [exact S|].
      constructor; [exact Hxy|].
      eapply Forall_impl; [|exact H2].
      intros z Hz; unfold R in *; eapply Qle_trans; eassumption.
    + apply Qlt_bool_false in E; unfold cmp in E.
      assert (Hyx : key x <= key y).
      { apply (Qplus_le_l _ _ (- key x)).
        setoid_replace (key x + - key x) with 0 by ring; exact E. }
      constructor; [apply IH, H1|].
      eapply Permutation_Forall;
        [apply Permutation_sym, insert_sorted_perm|].
      constructor; assumption.
Qed.

Lemma Array_sort_sorted l : StronglySorted R (Array_sort cmp l).
Proof.
  unfold Array_sort.
  enough (G : forall acc, StronglySorted R acc ->
            StronglySorted R
              (fold_left (fun acc x => insert_sorted cmp x acc) l acc))
    by (apply G; constructor).
  induction l as [|x l IH]; intros acc S; simpl; [exact S|].
  apply IH, insert_sorted_sorted, S.
Qed.
End Sorting.

Lemma rankWithGraph_state g results alpha :
  fst (rankWithGraph g results alpha)
  = if dirty g then fst (computePageRank g) else g.
Proof. reflexivity. Qed.

Lemma rankWithGraph_sorted g results alpha :
  StronglySorted byCombinedScore (snd (rankWithGraph g results alpha)).
Proof. apply (Array_sort_sorted combinedScore). Qed.

Lemma rankWithGraph_perm g results alpha :
  let g1 := if dirty g then fst (computePageRank g) else g in
  Permutation (snd (rankWithGraph g results alpha))
    (map (rankOne g1 (or_default alpha (7 # 10))
            (Qnat (len_or (Some (JsMap.size (nodes g1))) 1)))
         results).
Proof. apply (Array_sort_perm combinedScore). Qed.

Lemma wf_absent_rank g id :
  wf g -> JsMap.has id (nodes g) = false -> JsMap.get id (pageRanks g) = None.
Proof.
  intros W H; apply get_none_has.
  destruct (JsMap.has id (pageRanks g)) eqn:E; [|reflexivity].
  rewrite (wf_ranks_dom g W id E) in H; discriminate.
Qed.

Lemma wf_absent_community g id :
  wf g -> JsMap.has id (nodes g) = false -> JsMap.get id (communities g) = None.
Proof.
  intros W H; apply get_none_has.
  destruct (JsMap.has id (communities g)) eqn:E; [|reflexivity].
  rewrite (wf_comm_dom g W id E) in H; discriminate.
Qed.

(** The blend computed for one result, with [N] the node count. *)
Lemma rankOne_blend g alpha r :
  wf g ->
  let rr := rankOne g alpha (Qnat (len_or (Some (JsMap.size (nodes g))) 1)) r in
  entry rr = sr_entry r /\ score rr = sr_score r
  /\ pageRank rr = rankOf (pageRanks g) (entry_id (sr_entry r))
  /\ combinedScore rr
     == alpha * sr_score r
        + (1 - alpha) * (pageRank rr * Qnat (JsMap.size (nodes g))).
Proof.
  intros W; simpl; repeat split.
  unfold len_or.
  destruct (Nat.eqb_spec (JsMap.size (nodes g)) 0) as [Z|NZ]; [|reflexivity].
  rewrite (wf_absent_rank g _ W (size_zero_has _ _ Z)), Z; simpl.
  ring.
Qed.

Lemma Forall2_map_self {A B} (P : A -> B -> Prop) (f : A -> B) l :
  (forall x, P x (f x)) -> Forall2 P l (map f l).
Proof. intros H; induction l; simpl; constructor; auto. Qed.

Lemma rankOf_cached table id p :
  JsMap.get id table = Some p -> rankOf table id == p.
Proof.
  intros E; unfold rankOf, num_or; rewrite E.
  destruct (Qeq_bool p 0) eqn:Z; [|reflexivity].
  apply Qeq_bool_iff in Z; symmetry; exact Z.
Qed.

Lemma wf_ranking_state g :
  wf g ->
  let g1 := if dirty g then fst (computePageRank g) else g in
  wf g1 /\ dirty g1 = false /\ nodes g1 = nodes g.
Proof.
  intros W; destruct (dirty g) eqn:D; simpl.
  - destruct (computePageRank_frame g) as (En & _ & _ & _ & _ & Ed).
    split; [apply wf_computePageRank, W | auto].
  - auto.
Qed.

(** C7. [rankWithGraph(results, alpha)] recomputes PageRank first when the
    staleness flag is set; its output is a rearrangement of one row per input
    result, carrying the result's entry and score, the cached rank of the
    entry's id and
    [combinedScore = alpha * score + (1 - alpha) * (pageRank * N)] with [N]
    the node count; every node has a cached rank by then; and the output is
    sorted by non-increasing [combinedScore]. *)
Theorem rankWithGraph_blend (c : option MemoryGraphConfig) (ops : list Op)
    (results : list SearchResult) (alpha : option Q) :
  let g := run ops (new_graph c) in
  let a := or_default alpha (7 # 10) in
  let g1 := if dirty g then fst (computePageRank g) else g in
  let out := snd (rankWithGraph g results alpha) in
  fst (rankWithGraph g results alpha) = g1
  /\ dirty g1 = false
  /\ (forall id, JsMap.has id (nodes g1) = true ->
        exists p, JsMap.get id (pageRanks g1) = Some p
                  /\ rankOf (pageRanks g1) id == p)
  /\ (exists ranked,
        Permutation out ranked
        /\ Forall2
             (fun r rr =>
                entry rr = sr_entry r /\ score rr = sr_score r
                /\ pageRank rr = rankOf (pageRanks g1) (entry_id (sr_entry r))
                /\ combinedScore rr
                   == a * sr_score r
                      + (1 - a) * (pageRank rr * Qnat (JsMap.size (nodes g1))))
             results ranked)
  /\ StronglySorted byCombinedScore out.
Proof.
  intros g a g1 out.
  assert (W : wf g) by (apply wf_reachable; exists c, ops; reflexivity).
  destruct (wf_ranking_state g W) as (W1 & D1 & _); fold g1 in W1, D1.
  split; [reflexivity|].
  split; [exact D1|].
  split; [|split].
  - intros id Hid.
    pose proof (wf_clean g1 W1 D1 id Hid) as Hp.
    apply has_get in Hp; destruct Hp as (p & Hp).
    exists p; split; [exact Hp | apply rankOf_cached, Hp].
  - eexists; split; [apply rankWithGraph_perm|].
    apply Forall2_map_self; intros r; apply rankOne_blend, W1.
  - apply rankWithGraph_sorted.
Qed.

Lemma rankWithGraph_blend_witness :
  let g1 := fst (computePageRank stale_pair_graph) in
  let out := snd (rankWithGraph stale_pair_graph sample_results None) in
  fst (rankWithGraph stale_pair_graph sample_results None) = g1
  /\ dirty g1 = false
  /\ (exists p, JsMap.get "a" (pageRanks g1) = Some p
                /\ rankOf (pageRanks g1) "a" == p)
  /\ StronglySorted byCombinedScore out.
Proof.
  destruct (rankWithGraph_blend two_pass_config pair_ops sample_results None)
    as (E & D & C & _ & S).
  split; [exact E|].
  split; [exact D|].
  split; [apply (C "a"); vm_compute; reflexivity | exact S].
Defined.

(** C10. A result whose entry id is not a node still has its row in the
    output of [rankWithGraph], with [pageRank] 0,
    [combinedScore = alpha * score] and no community label; the output has
    one row per input result and is sorted as a whole. *)
Theorem rankWithGraph_unknown_entry (c : option MemoryGraphConfig)
    (ops : list Op) (results : list SearchResult) (alpha : option Q)
    (r : SearchResult) :
  let g := run ops (new_graph c) in
  let a := or_default alpha (7 # 10) in
  let out := snd (rankWithGraph g results alpha) in
  In r results ->
  JsMap.has (entry_id (sr_entry r)) (nodes g) = false ->
  List.length out = List.length results
  /\ (exists rr,
        In rr out /\ entry rr = sr_entry r /\ score rr = sr_score r
        /\ pageRank rr = 0 /\ combinedScore rr == a * sr_score r
        /\ community rr = None)
  /\ StronglySorted byCombinedScore out.
Proof.
  intros g a out I Habs.
  assert (W : wf g) by (apply wf_reachable; exists c, ops; reflexivity).
  destruct (wf_ranking_state g W) as (W1 & _ & En).
  pose proof (rankWithGraph_perm g results alpha) as P; cbv zeta in P.
  fold out in P.
  set (g1 := if dirty g then fst (computePageRank g) else g) in *.
  rewrite <- En in Habs.
  split; [|split].
  - rewrite (Permutation_length P); apply length_map.
  - eexists; split.
    + eapply Permutation_in; [apply Permutation_sym, P|].
      apply in_map, I.
    + unfold rankOne; simpl.
      rewrite (wf_absent_rank g1 _ W1 Habs), (wf_absent_community g1 _ W1 Habs).
      simpl; repeat split; try reflexivity.
      fold a; ring.
  - apply rankWithGraph_sorted.
Qed.

Lemma rankWithGraph_unknown_entry_witness :
  let out := snd (rankWithGraph stale_pair_graph sample_results None) in
  List.length out = 3%nat
  /\ (exists rr,
        In rr out /\ entry rr = entryOf "zz" /\ score rr = 9 # 10
        /\ pageRank rr = 0 /\ combinedScore rr == (7 # 10) * (9 # 10)
        /\ community rr = None)
  /\ StronglySorted byCombinedScore out.
Proof.
  apply (rankWithGraph_unknown_entry two_pass_config pair_ops sample_results
           None {| sr_entry := entryOf "zz"; sr_score := 9 # 10 |}).
  - simpl; right; left; reflexivity.
  - reflexivity.
Defined.

(** ** Sums of rationals *)

Section Sums.
Context {A : Type}.
Implicit Types (f g : A -> Q) (l : list A).

Lemma fold_sum f l (a : Q) :
  fold_left (fun acc x => acc + f x) l a == a + sumQ (map f l).
Proof.
  revert a; induction l as [|x l IH]; intros a; simpl.
  - ring.
  - rewrite IH; ring.
Qed.

Lemma sumQ_ext f g l :
  (forall x, In x l -> f x == g x) -> sumQ (map f l) == sumQ (map g l).
Proof.
  induction l as [|x l IH]; intros H; simpl; [reflexivity|].
  rewrite (H x), IH; [reflexivity | intros; apply H; right; assumption
                      | left; reflexivity].
Qed.

Lemma sumQ_plus f g l :
  sumQ (map (fun x => f x + g x) l) == sumQ (map f l) + sumQ (map g l).
Proof. induction l as [|x l IH]; simpl; [|rewrite IH]; ring. Qed.

Lemma sumQ_scale (c : Q) f l :
  sumQ (map (fun x => c * f x) l) == c * sumQ (map f l).
Proof. induction l as [|x l IH]; simpl; [|rewrite IH]; ring. Qed.

Lemma sumQ_const (c : Q) l :
  sumQ (map (fun _ => c) l) == Qnat (List.length l) * c.
Proof.
  induction l as [|x l IH]; simpl sumQ; simpl List.length.
  - unfold Qnat; simpl; ring.
  - rewrite IH; unfold Qnat.
    rewrite Nat2Z.inj_succ, <- Z.add_1_r, inject_Z_plus; ring.
Qed.

Lemma sumQ_filter (p : A -> bool) f l :
  sumQ (map f (filter p l))
  == sumQ (map (fun x => if p x then f x else 0) l).
Proof.
  induction l as [|x l IH]; simpl; [reflexivity|].
  destruct (p x); simpl; rewrite IH; ring.
Qed.

Lemma sumQ_perm_map f l l' :
  Permutation l l' -> sumQ (map f l) == sumQ (map f l').
Proof.
  induction 1; simpl.
  - reflexivity.
  - rewrite IHPermutation; reflexivity.
  - ring.
  - etransitivity; eassumption.
Qed.
End Sums.

Lemma sumQ_swap {A B} (F : A -> B -> Q) (la : list A) (lb : list B) :
  sumQ (map (fun x => sumQ (map (F x) lb)) la)
  == sumQ (map (fun y => sumQ (map (fun x => F x y) la)) lb).
Proof.
  induction la as [|x la IH]; simpl.
  - induction lb as [|y lb IHb]; simpl; [reflexivity|].
    rewrite <- IHb; ring.
  - rewrite IH, <- sumQ_plus; reflexivity.
Qed.

Lemma Qnat_nonzero n : n <> 0%nat -> ~ Qnat n == 0.
Proof.
  intros H E; unfold Qnat, Qeq in E; simpl in E; lia.
Qed.

(** ** PageRank: the update rule *)

Lemma incomingSum_fold g pr v :
  incomingSum g pr v
  = fold_left
      (fun sum sourceId =>
         sum + num_or (JsMap.get sourceId pr) 0 / Qnat (outDegree g sourceId))
      (incomingOf g v) 0.
Proof.
  unfold incomingSum, incomingOf.
  destruct (JsMap.get v (reverseEdges g)); reflexivity.
Qed.

Lemma outDegree_length g s :
  outEdges g s <> [] -> outDegree g s = List.length (outEdges g s).
Proof.
  unfold outDegree, outEdges.
  destruct (JsMap.get s (edges g)) as [[|e l]|]; simpl; congruence.
Qed.

Lemma hasEdge_nonempty g s t : hasEdge g s t = true -> outEdges g s <> [].
Proof.
  rewrite hasEdge_outEdges; destruct (outEdges g s); [discriminate|congruence].
Qed.

Lemma sources_perm g v :
  wf g ->
  Permutation (incomingOf g v)
              (filter (fun s => hasEdge g s v) (JsMap.keys (nodes g))).
Proof.
  intros W; apply NoDup_Permutation.
  - apply (wf_sources g W).
  - apply NoDup_filter, (wf_nodes_keys g W).
  - intros s; rewrite filter_In, <- JsSetFacts.elem_has.
    fold (recorded g s v); rewrite (wf_consistent g W).
    split; [|tauto].
    intros H; split; [|exact H].
    apply has_In; eapply wf_source_is_node; eassumption.
Qed.

Lemma targets_perm g s :
  wf g ->
  Permutation (filter (fun v => hasEdge g s v) (JsMap.keys (nodes g)))
              (map targetId (outEdges g s)).
Proof.
  intros W; apply NoDup_Permutation.
  - apply NoDup_filter, (wf_nodes_keys g W).
  - apply (wf_targets g W).
  - intros v; rewrite filter_In, in_map_iff.
    split.
    + intros [_ H]; apply In_outEdges_hasEdge in H.
      destruct H as (e & I & E); exists e; auto.
    + intros (e & E & I).
      assert (H : hasEdge g s v = true)
        by (apply In_outEdges_hasEdge; exists e; auto).
      split; [|exact H].
      apply has_In; eapply wf_target_is_node; eassumption.
Qed.

Lemma incomingSum_spec g pr v :
  wf g -> incomingSum g pr v == specIncomingSum g pr v.
Proof.
  intros W; rewrite incomingSum_fold, fold_sum, Qplus_0_l.
  unfold specIncomingSum.
  rewrite <- (sumQ_perm_map _ _ _ (sources_perm g v W)).
  apply sumQ_ext; intros s Hs.
  apply JsSetFacts.elem_has in Hs; fold (recorded g s v) in Hs.
  rewrite (wf_consistent g W) in Hs.
  rewrite (outDegree_length g s (hasEdge_nonempty g s v Hs)); reflexivity.
Qed.

Lemma danglingNodes_spec g :
  danglingNodes g
  = filter (fun u => Nat.eqb (List.length (outEdges g u)) 0)
           (JsMap.keys (nodes g)).
Proof.
  unfold danglingNodes; apply filter_ext; intros u; unfold outEdges.
  destruct (JsMap.get u (edges g)); reflexivity.
Qed.

Lemma danglingSum_spec g pr :
  danglingSum (danglingNodes g) pr == specDanglingSum g pr.
Proof.
  unfold danglingSum, specDanglingSum.
  rewrite fold_sum, Qplus_0_l, danglingNodes_spec; reflexivity.
Qed.

Lemma newRank_spec g pr v :
  wf g ->
  newRank g (Qnat (JsMap.size (nodes g))) (pageRankDamping (config g))
          (danglingSum (danglingNodes g) pr) pr v
  == specNewRank g pr v.
Proof.
  intros W; unfold newRank, specNewRank.
  rewrite incomingSum_spec, danglingSum_spec by assumption; reflexivity.
Qed.

(** The loop applies the pass a number of times within the cap. *)
Lemma pagerank_loop_iter g N d dangling remaining iterations pr :
  exists k, (k <= remaining)%nat
    /\ pagerank_loop g N d dangling remaining iterations pr
       = (Nat.iter k (fun t => fst (pagerank_pass g N d dangling t)) pr,
          (iterations + k)%nat).
Proof.
  revert iterations pr; induction remaining as [|r IH]; intros it pr.
  - exists 0%nat; simpl; rewrite Nat.add_0_r; auto.
  - cbn [pagerank_loop].
    destruct (pagerank_pass g N d dangling pr) as [newRanks maxDelta] eqn:E.
    assert (E' : newRanks = fst (pagerank_pass g N d dangling pr))
      by (rewrite E; reflexivity).
    destruct (Qlt_bool _ _).
    + exists 1%nat; split; [lia|].
      simpl; rewrite E', Nat.add_1_r; reflexivity.
    + destruct (IH (S it) newRanks) as (k & Hk & ->).
      exists (S k); split; [lia|].
      rewrite Nat.iter_succ_r, E'; f_equal; lia.
Qed.

Lemma fold_left_ext {A B} (f h : A -> B -> A) l a :
  (forall a x, f a x = h a x) -> fold_left f l a = fold_left h l a.
Proof.
  intros H; revert a; induction l as [|x l IH]; intros a; simpl;
    [reflexivity|].
  rewrite H; apply IH.
Qed.

Lemma get_reweight f g s :
  JsMap.get s (edges (reweight f g))
  = option_map
      (map (fun e => {| targetId := targetId e; type := type e;
                        weight := f s e |}))
      (JsMap.get s (edges g)).
Proof.
  unfold reweight; simpl.
  induction (edges g) as [|[k l] m IH]; simpl; [reflexivity|].
  destruct (String.eqb_spec s k); subst; [reflexivity | exact IH].
Qed.

Lemma outDegree_reweight f g s : outDegree (reweight f g) s = outDegree g s.
Proof.
  unfold outDegree; rewrite get_reweight.
  destruct (JsMap.get s (edges g)); simpl; [rewrite length_map|]; reflexivity.
Qed.

Lemma danglingNodes_reweight f g : danglingNodes (reweight f g) = danglingNodes g.
Proof.
  unfold danglingNodes; change (nodes (reweight f g)) with (nodes g).
  apply filter_ext; intros u; rewrite get_reweight.
  destruct (JsMap.get u (edges g)); simpl; [rewrite length_map|]; reflexivity.
Qed.

Lemma pagerank_pass_reweight f g N d dangling pr :
  pagerank_pass (reweight f g) N d dangling pr = pagerank_pass g N d dangling pr.
Proof.
  unfold pagerank_pass; change (nodes (reweight f g)) with (nodes g).
  apply fold_left_ext; intros [newRanks maxDelta] nodeId.
  assert (E : newRank (reweight f g) N d (danglingSum dangling pr) pr nodeId
              = newRank g N d (danglingSum dangling pr) pr nodeId).
  { unfold newRank, incomingSum.
    change (reverseEdges (reweight f g)) with (reverseEdges g).
    destruct (JsMap.get nodeId (reverseEdges g)); [|reflexivity].
    do 3 f_equal; apply fold_left_ext; intros a x.
    rewrite outDegree_reweight; reflexivity. }
  rewrite E; reflexivity.
Qed.

Lemma pagerank_loop_reweight f g N d dangling remaining iterations pr :
  pagerank_loop (reweight f g) N d dangling remaining iterations pr
  = pagerank_loop g N d dangling remaining iterations pr.
Proof.
  revert iterations pr; induction remaining as [|r IH]; intros it pr;
    [reflexivity|].
  cbn [pagerank_loop]; rewrite pagerank_pass_reweight.
  destruct (pagerank_pass g N d dangling pr) as [newRanks maxDelta].
  change (config (reweight f g)) with (config g).
  destruct (Qlt_bool _ _); [reflexivity | apply IH].
Qed.

Lemma computePageRank_reweight f g :
  snd (computePageRank (reweight f g)) = snd (computePageRank g).
Proof.
  unfold computePageRank.
  change (nodes (reweight f g)) with (nodes g).
  change (config (reweight f g)) with (config g).
  destruct (Nat.eqb _ 0); [reflexivity|].
  rewrite danglingNodes_reweight, pagerank_loop_reweight.
  change (initialRanks (reweight f g)) with (initialRanks g).
  destruct (pagerank_loop _ _ _ _ _ _ _); reflexivity.
Qed.

Lemma has_size_pos {V} (m : JsMap.t V) k :
  JsMap.has k m = true -> JsMap.size m <> 0%nat.
Proof. destruct m; [discriminate | simpl; discriminate]. Qed.

(** C5. In every iteration of [computePageRank] the new rank of a node [v]
    is [(1 - d)/N + d * (sum over the nodes s holding an edge into v of
    rank(s)/outDegree(s) + danglingSum/N)], with [outDegree] the count of
    outgoing edges and [danglingSum] the sum of the current ranks of the
    nodes without outgoing edge: this is what one pass stores for [v] from
    any current table, the returned table is the initial one after a number
    of passes within the cap, and replacing the stored edge weights by any
    others leaves the returned table the same. *)
Theorem pagerank_update_rule (c : option MemoryGraphConfig) (ops : list Op)
    (pr : JsMap.t Q) (v : string) (f : string -> GraphEdge -> Q) :
  let g := run ops (new_graph c) in
  let N := Qnat (JsMap.size (nodes g)) in
  let d := pageRankDamping (config g) in
  let pass := fun t => fst (pagerank_pass g N d (danglingNodes g) t) in
  JsMap.has v (nodes g) = true ->
  (exists r, JsMap.get v (pass pr) = Some r /\ r == specNewRank g pr v)
  /\ (exists k, (k <= pageRankIterations (config g))%nat
                /\ snd (computePageRank g) = Nat.iter k pass (initialRanks g))
  /\ snd (computePageRank (reweight f g)) = snd (computePageRank g).
Proof.
  intros g N d pass Hv.
  assert (W : wf g) by (apply wf_reachable; exists c, ops; reflexivity).
  split; [|split].
  - eexists; split.
    + unfold pass; rewrite pagerank_pass_get, Hv; reflexivity.
    + apply newRank_spec, W.
  - unfold computePageRank.
    destruct (Nat.eqb_spec (JsMap.size (nodes g)) 0) as [Z|NZ];
      [exfalso; apply (has_size_pos _ _ Hv Z)|].
    destruct (pagerank_loop_iter g N d (danglingNodes g)
                (pageRankIterations (config g)) 0 (initialRanks g))
      as (k & Hk & E).
    fold N d; rewrite E; exists k; split; [exact Hk | reflexivity].
  - apply computePageRank_reweight.
Qed.

Lemma pagerank_update_rule_witness :
  let g := stale_pair_graph in
  let pass := fun t =>
    fst (pagerank_pass g (Qnat (JsMap.size (nodes g)))
           (pageRankDamping (config g)) (danglingNodes g) t) in
  (exists r, JsMap.get "b" (pass (initialRanks g)) = Some r
             /\ r == specNewRank g (initialRanks g) "b")
  /\ (exists k, (k <= pageRankIterations (config g))%nat
                /\ snd (computePageRank g) = Nat.iter k pass (initialRanks g))
  /\ snd (computePageRank (reweight (fun _ _ => 5) g)) = snd (computePageRank g).
Proof.
  apply (pagerank_update_rule two_pass_config pair_ops
           (initialRanks stale_pair_graph) "b" (fun _ _ => 5)).
  reflexivity.
Defined.

(** ** PageRank: conservation of the total rank *)

Lemma count_targets g s (c : Q) :
  wf g ->
  sumQ (map (fun v => if hasEdge g s v then c else 0) (JsMap.keys (nodes g)))
  == Qnat (List.length (outEdges g s)) * c.
Proof.
  intros W.
  rewrite <- (sumQ_filter (fun v => hasEdge g s v) (fun _ => c)), sumQ_const.
  rewrite (Permutation_length (targets_perm g s W)), length_map; reflexivity.
Qed.

Lemma total_incoming g pr :
  wf g ->
  sumQ (map (specIncomingSum g pr) (JsMap.keys (nodes g)))
  == sumQ (map (fun s => if Nat.eqb (List.length (outEdges g s)) 0 then 0
                         else rankOf pr s)
               (JsMap.keys (nodes g))).
Proof.
  intros W; unfold specIncomingSum.
  set (V := JsMap.keys (nodes g)).
  set (q := fun s => rankOf pr s / Qnat (List.length (outEdges g s))).
  transitivity
    (sumQ (map (fun v => sumQ (map (fun s => if hasEdge g s v then q s else 0) V))
               V)).
  { apply sumQ_ext; intros v _; apply sumQ_filter. }
  rewrite sumQ_swap.
  apply sumQ_ext; intros s _; cbv beta; unfold V.
  rewrite (count_targets g s (q s) W); unfold q.
  destruct (Nat.eqb_spec (List.length (outEdges g s)) 0) as [Z|NZ].
  - rewrite Z; unfold Qnat; simpl; ring.
  - field; apply Qnat_nonzero, NZ.
Qed.

Lemma sum_specNewRank g pr :
  wf g -> JsMap.size (nodes g) <> 0%nat ->
  sumQ (map (specNewRank g pr) (JsMap.keys (nodes g)))
  == (1 - pageRankDamping (config g))
     + pageRankDamping (config g) * totalRank g pr.
Proof.
  intros W NZ; unfold specNewRank, totalRank.
  assert (HN : ~ Qnat (JsMap.size (nodes g)) == 0) by apply Qnat_nonzero, NZ.
  assert (LV : List.length (JsMap.keys (nodes g)) = JsMap.size (nodes g))
    by apply length_map.
  cbv zeta.
  transitivity
    (sumQ (map (fun _ => (1 - pageRankDamping (config g))
                         / Qnat (JsMap.size (nodes g)))
               (JsMap.keys (nodes g)))
     + pageRankDamping (config g)
       * (sumQ (map (specIncomingSum g pr) (JsMap.keys (nodes g)))
          + sumQ (map (fun _ => specDanglingSum g pr
                                / Qnat (JsMap.size (nodes g)))
                      (JsMap.keys (nodes g))))).
  { rewrite <- sumQ_plus, <- sumQ_scale, <- sumQ_plus; reflexivity. }
  rewrite !sumQ_const, LV, (total_incoming g pr W).
  assert (S : sumQ (map (fun s => if Nat.eqb (List.length (outEdges g s)) 0
                                  then 0 else rankOf pr s)
                        (JsMap.keys (nodes g)))
              + specDanglingSum g pr
              == sumQ (map (rankOf pr) (JsMap.keys (nodes g)))).
  { unfold specDanglingSum.
    rewrite sumQ_filter, <- sumQ_plus.
    apply sumQ_ext; intros s _; cbv beta.
    destruct (Nat.eqb _ 0); ring. }
  rewrite <- S; field; exact HN.
Qed.

Lemma pass_total g pr :
  wf g -> JsMap.size (nodes g) <> 0%nat ->
  totalRank g
    (fst (pagerank_pass g (Qnat (JsMap.size (nodes g)))
            (pageRankDamping (config g)) (danglingNodes g) pr))
  == (1 - pageRankDamping (config g))
     + pageRankDamping (config g) * totalRank g pr.
Proof.
  intros W NZ; rewrite <- (sum_specNewRank g pr W NZ).
  unfold totalRank at 1; apply sumQ_ext; intros v Hv.
  rewrite <- (newRank_spec g pr v W).
  apply rankOf_cached; rewrite pagerank_pass_get.
  apply has_In in Hv; rewrite Hv; reflexivity.
Qed.

Lemma initial_total g :
  wf g -> JsMap.size (nodes g) <> 0%nat -> totalRank g (initialRanks g) == 1.
Proof.
  intros W NZ; unfold totalRank.
  transitivity
    (sumQ (map (fun _ : string => 1 / Qnat (JsMap.size (nodes g)))
               (JsMap.keys (nodes g)))).
  { apply sumQ_ext; intros v Hv; apply rankOf_cached.
    rewrite initialRanks_get; apply has_In in Hv; rewrite Hv; reflexivity. }
  rewrite sumQ_const; unfold JsMap.keys; rewrite length_map.
  fold (JsMap.size (nodes g)); field; apply Qnat_nonzero, NZ.
Qed.

(** C1. After [computePageRank()] on a graph with at least one node, the
    ranks of the current nodes in the returned table sum to 1 (in exact
    arithmetic), whatever the number of dangling nodes; the table is the
    stored one and holds exactly one entry per node. *)
Theorem pagerank_sums_to_one (c : option MemoryGraphConfig) (ops : list Op) :
  let g := run ops (new_graph c) in
  let g' := fst (computePageRank g) in
  let table := snd (computePageRank g) in
  (1 <= JsMap.size (nodes g))%nat ->
  totalRank g' table == 1
  /\ pageRanks g' = table
  /\ covers g' table.
Proof.
  intros g g' table Hn.
  assert (W : wf g) by (apply wf_reachable; exists c, ops; reflexivity).
  assert (NZ : JsMap.size (nodes g) <> 0%nat) by lia.
  destruct (computePageRank_frame g) as (En & _).
  pose proof (computePageRank_table g) as Et.
  pose proof (computePageRank_ranks g) as Er.
  fold g' in En, Et, Er; fold table in Et.
  destruct (Nat.eqb_spec (JsMap.size (nodes g)) 0) as [Z|_]; [contradiction|].
  assert (P : totalRank g (pageRanks g') == 1 /\ covers g (pageRanks g')).
  { rewrite Er.
    apply (pagerank_loop_inv (fun t => totalRank g t == 1 /\ covers g t)).
    - intros t [Ht _]; split; [|apply covers_pass, W].
      rewrite pass_total, Ht by assumption; ring.
    - split; [apply initial_total | apply covers_initialRanks]; assumption. }
  rewrite Et; unfold totalRank, covers; rewrite En.
  destruct P as [P1 P2]; auto.
Qed.

Lemma pagerank_sums_to_one_witness :
  let g' := fst (computePageRank stale_pair_graph) in
  let table := snd (computePageRank stale_pair_graph) in
  totalRank g' table == 1 /\ pageRanks g' = table /\ covers g' table.
Proof.
  apply (pagerank_sums_to_one two_pass_config pair_ops).
  vm_compute; lia.
Defined.

(** ** Sample runs *)

Example pair_graph_edges :
  edges pair_graph
  = [("a", [{| targetId := "b"; type := reference; weight := 2 |}]); ("b", [])]
  /\ reverseEdges pair_graph = [("a", []); ("b", ["a"])].
Proof. split; reflexivity. Qed.

Example pair_graph_remove :
  edges (removeNode pair_graph "b") = [("a", [])]
  /\ reverseEdges (removeNode pair_graph "b") = [("a", [])]
  /\ JsMap.keys (nodes (removeNode pair_graph "b")) = ["a"].
Proof. repeat split; reflexivity. Qed.

Example single_node_rank :
  map (fun p => (fst p, Qred (snd p))) (snd (computePageRank single_graph))
  = [("a", 1)]
  /\ emitted (fst (computePageRank single_graph)) = [pagerank_computed 1].
Proof. split; vm_compute; reflexivity. Qed.

Example empty_graph_rank :
  snd (computePageRank (new_graph None)) = []
  /\ emitted (fst (computePageRank (new_graph None))) = [pagerank_computed 0].
Proof. split; reflexivity. Qed.

Example shuffle_five :
  shuffleArray third_rng 0 ["1"; "2"; "3"; "4"; "5"]
  = (["3"; "1"; "4"; "5"; "2"], 4%nat).
Proof. vm_compute; reflexivity. Qed.

Example sample_ranking :
  map (fun rr => entry_id (entry rr))
      (snd (rankWithGraph stale_pair_graph sample_results None))
  = ["b"; "zz"; "a"].
Proof. vm_compute; reflexivity. Qed.

(** * Further properties of the module *)

(** ** Capacity *)

Lemma config_addNode g e : config (addNode g e) = config g.
Proof. unfold addNode; destruct (_ && _); reflexivity. Qed.


Lemma nodes_addEdge g s t ty w : nodes (addEdge g s t ty w) = nodes g.
Proof. unfold addEdge; destruct (_ || _); reflexivity. Qed.


Lemma capacity_addNode cfg g e :
  within_capacity cfg g -> within_capacity cfg (addNode g e).
Proof.
  intros [Ec Hs]; split; [rewrite config_addNode; exact Ec|].
  unfold addNode; rewrite Ec.
  destruct (Nat.leb_spec (maxNodes cfg) (JsMap.size (nodes g))) as [L|L];
    destruct (JsMap.has (entry_id e) (nodes g)) eqn:H; simpl;
    try exact Hs; rewrite size_set, H; lia.
Qed.







(** ** Refreshing and removing nodes *)

(** X2. [addNode] for an id that is already a node succeeds even at
    capacity and only overwrites the node's attributes: the node order, all
    edges, the reverse index and the cached tables stay as they are, and the
    staleness flag is set. *)
Theorem addNode_refresh (c : option MemoryGraphConfig) (ops : list Op)
    (e : MemoryEntry) :
  let g := run ops (new_graph c) in
  let g' := addNode g e in
  JsMap.has (entry_id e) (nodes g) = true ->
  JsMap.keys (nodes g') = JsMap.keys (nodes g)
  /\ option_map node_id (JsMap.get (entry_id e) (nodes g')) = Some (entry_id e)
  /\ option_map accessCount (JsMap.get (entry_id e) (nodes g'))
     = Some (entry_accessCount e)
  /\ (forall k, k <> entry_id e ->
                JsMap.get k (nodes g') = JsMap.get k (nodes g))
  /\ edges g' = edges g /\ reverseEdges g' = reverseEdges g
  /\ pageRanks g' = pageRanks g /\ communities g' = communities g
  /\ dirty g' = true.
Proof.
  intros g g' H.
  assert (W : wf g) by (apply wf_reachable; exists c, ops; reflexivity).
  unfold g', addNode; rewrite H, andb_false_r; simpl.
  rewrite keys_set, H, (wf_edges_dom g W), (wf_rev_dom g W), H.
  rewrite get_set, String.eqb_refl; simpl.
  repeat split.
  intros k Hk; rewrite get_set.
  destruct (String.eqb_spec k (entry_id e)); [contradiction | reflexivity].
Qed.

Lemma addNode_refresh_witness :
  let g' := addNode pair_graph (entryOf "b") in
  edges g' = edges pair_graph /\ reverseEdges g' = reverseEdges pair_graph
  /\ dirty g' = true.
Proof.
  destruct (addNode_refresh None pair_ops (entryOf "b"))
    as (_ & _ & _ & _ & A & B & _ & _ & C); [reflexivity|].
  auto.
Defined.

Lemma map_delete_absent {V} k (m : JsMap.t V) :
  JsMap.has k m = false -> JsMap.delete k m = m.
Proof.
  unfold JsMap.has; induction m as [|[k0 v0] m IH]; simpl; [reflexivity|].
  destruct (String.eqb k k0); [discriminate|].
  intros H; rewrite IH by assumption; reflexivity.
Qed.

Lemma delete_set_new {V} k (v : V) m :
  JsMap.has k m = false -> JsMap.delete k (JsMap.set k v m) = m.
Proof.
  unfold JsMap.has; induction m as [|[k0 v0] m IH]; simpl.
  - rewrite String.eqb_refl; reflexivity.
  - destruct (String.eqb k k0) eqn:E; [discriminate|].
    simpl; rewrite E; intros H; rewrite IH by assumption; reflexivity.
Qed.

(** X3. Adding a node that is new (below capacity) and removing it again
    gives back the instance as it was, with the staleness flag set: nodes,
    edges, reverse index and cached tables are restored exactly. *)
Theorem removeNode_addNode (c : option MemoryGraphConfig) (ops : list Op)
    (e : MemoryEntry) :
  let g := run ops (new_graph c) in
  JsMap.has (entry_id e) (nodes g) = false ->
  (JsMap.size (nodes g) < maxNodes (config g))%nat ->
  removeNode (addNode g e) (entry_id e) = set_dirty true g.
Proof.
  intros g H Hcap.
  assert (W : wf g) by (apply wf_reachable; exists c, ops; reflexivity).
  assert (He : JsMap.has (entry_id e) (edges g) = false)
    by (rewrite (wf_edges_dom g W); exact H).
  assert (Hr : JsMap.has (entry_id e) (reverseEdges g) = false)
    by (rewrite (wf_rev_dom g W); exact H).
  assert (Hp : JsMap.has (entry_id e) (pageRanks g) = false).
  { destruct (JsMap.has _ (pageRanks g)) eqn:E; [|reflexivity].
    rewrite (wf_ranks_dom g W _ E) in H; discriminate. }
  assert (Hc : JsMap.has (entry_id e) (communities g) = false).
  { destruct (JsMap.has _ (communities g)) eqn:E; [|reflexivity].
    rewrite (wf_comm_dom g W _ E) in H; discriminate. }
  unfold addNode.
  apply Nat.leb_gt in Hcap; rewrite Hcap, He, Hr; simpl.
  unfold removeNode; simpl.
  rewrite has_set, String.eqb_refl; simpl.
  rewrite !get_set, String.eqb_refl; simpl.
  rewrite get_set, String.eqb_refl; simpl.
  rewrite !delete_set_new, !map_delete_absent by assumption.
  reflexivity.
Qed.

Lemma removeNode_addNode_witness :
  removeNode (addNode pair_graph (entryOf "c")) "c" = set_dirty true pair_graph.
Proof.
  apply (removeNode_addNode None pair_ops (entryOf "c"));
    [reflexivity | simpl; lia].
Defined.

(** ** Counting edges *)

Lemma fold_lengths {A} (ls : list (list A)) (a : nat) :
  fold_left (fun total l => (total + List.length l)%nat) ls a
  = (a + list_sum (map (@List.length A) ls))%nat.
Proof.
  revert a; induction ls as [|l ls IH]; intros a; simpl; [lia|].
  rewrite IH; lia.
Qed.

Lemma totalEdges_sum g :
  totalEdges g = list_sum (map (fun se => List.length (snd se)) (edges g)).
Proof.
  unfold totalEdges, getStats; cbn [edgeCount].
  rewrite fold_lengths, map_map; reflexivity.
Qed.

Lemma lengths_set {A} k (l' l : list A) (m : JsMap.t (list A)) :
  JsMap.get k m = Some l ->
  (list_sum (map (fun se => List.length (snd se)) (JsMap.set k l' m))
   + List.length l
   = list_sum (map (fun se => List.length (snd se)) m) + List.length l')%nat.
Proof.
  induction m as [|[k0 v0] m IH]; simpl; [discriminate|].
  destruct (String.eqb_spec k k0); subst; simpl.
  - intros [= ->]; lia.
  - intros H; specialize (IH H); lia.
Qed.

Lemma length_update_first {A} (p : A -> bool) f (l : list A) :
  List.length (update_first p f l) = List.length l.
Proof.
  induction l as [|x l IH]; simpl; [reflexivity|].
  destruct (p x); simpl; congruence.
Qed.

Lemma length_mergeEdge l t ty w :
  List.length (mergeEdge l t ty w)
  = (List.length l
     + if existsb (fun e => targets e t) l then 0 else 1)%nat.
Proof.
  unfold mergeEdge; rewrite (find_existsb (fun e => targets e t) l).
  destruct (find _ l).
  - rewrite length_update_first; lia.
  - rewrite length_app; reflexivity.
Qed.

Lemma totalEdges_addEdge g s t ty w :
  wf g ->
  totalEdges (addEdge g s t ty w)
  = (totalEdges g
     + if JsMap.has s (nodes g) && JsMap.has t (nodes g)
          && negb (hasEdge g s t)
       then 1 else 0)%nat.
Proof.
  intros W.
  destruct (JsMap.has s (nodes g)) eqn:Hs;
    [|rewrite addEdge_skip by auto; simpl; lia].
  destruct (JsMap.has t (nodes g)) eqn:Ht;
    [|rewrite addEdge_skip by auto; simpl; lia].
  rewrite addEdge_present, !totalEdges_sum by assumption; simpl.
  assert (G : JsMap.get s (edges g) = Some (outEdges g s))
    by (apply get_outEdges; rewrite (wf_edges_dom g W); exact Hs).
  pose proof (lengths_set s (mergeEdge (outEdges g s) t ty (or_default w 1))
                _ _ G) as L.
  rewrite length_mergeEdge, <- hasEdge_outEdges in L.
  destruct (hasEdge g s t); simpl in *; lia.
Qed.

(** X4. [addEdge] adds exactly one edge when both endpoints are nodes and
    the ordered pair has no edge yet, and otherwise leaves the number of
    edges reported by [getStats] unchanged. *)
Theorem addEdge_edge_count (c : option MemoryGraphConfig) (ops : list Op)
    (s t : string) (ty : EdgeType) (w : option Q) :
  let g := run ops (new_graph c) in
  edgeCount (getStats (addEdge g s t ty w))
  = (edgeCount (getStats g)
     + if JsMap.has s (nodes g) && JsMap.has t (nodes g)
          && negb (hasEdge g s t)
       then 1 else 0)%nat.
Proof.
  intros g; apply totalEdges_addEdge, wf_reachable.
  exists c, ops; reflexivity.
Qed.

(** ** What a mutation leaves alone *)

Lemma filter_mergeEdge_other l t ty w t' :
  t' <> t ->
  filter (fun e => targets e t') (mergeEdge l t ty w)
  = filter (fun e => targets e t') l.
Proof.
  intros Ht; unfold mergeEdge.
  destruct (find _ l).
  - induction l as [|x l IH]; simpl; [reflexivity|].
    destruct (targets x t) eqn:Tx; simpl.
    + unfold targets in *; simpl.
      apply String.eqb_eq in Tx; rewrite Tx.
      destruct (String.eqb_spec t t'); [congruence | reflexivity].
    + rewrite IH; reflexivity.
  - rewrite filter_app; simpl; unfold targets at 2; simpl.
    destruct (String.eqb_spec t t'); [congruence|].
    apply app_nil_r.
Qed.

Lemma outEdges_addEdge_other g s t ty w s' :
  s' <> s -> outEdges (addEdge g s t ty w) s' = outEdges g s'.
Proof.
  intros Hs; unfold addEdge.
  destruct (_ || _); [reflexivity|].
  unfold outEdges; simpl; rewrite get_set.
  destruct (String.eqb_spec s' s); [contradiction|].
  destruct (JsMap.has s (edges g)); [reflexivity|].
  rewrite get_set.
  destruct (String.eqb_spec s' s); [contradiction | reflexivity].
Qed.

Lemma outEdges_addEdge_same g s t ty w :
  JsMap.has s (nodes g) = true -> JsMap.has t (nodes g) = true ->
  outEdges (addEdge g s t ty w) s
  = mergeEdge (outEdges g s) t ty (or_default w 1).
Proof.
  intros Hs Ht; unfold addEdge; rewrite Hs, Ht; simpl.
  unfold outEdges; simpl; rewrite get_set, String.eqb_refl; reflexivity.
Qed.

Lemma addEdge_frame_other g s t ty w s' t' :
  s' <> s \/ t' <> t ->
  edgesTo (addEdge g s t ty w) s' t' = edgesTo g s' t'.
Proof.
  intros H; unfold edgesTo.
  destruct (String.eqb_spec s' s) as [->|Hs];
    [|rewrite outEdges_addEdge_other by assumption; reflexivity].
  destruct H as [H|H]; [contradiction|].
  destruct (JsMap.has s (nodes g)) eqn:Hs;
    [|rewrite addEdge_skip by auto; reflexivity].
  destruct (JsMap.has t (nodes g)) eqn:Ht;
    [|rewrite addEdge_skip by auto; reflexivity].
  rewrite outEdges_addEdge_same by assumption.
  apply filter_mergeEdge_other, H.
Qed.

(** X5. [addEdge(s, t, ...)] never creates a node and never touches the
    edge of another ordered pair: for every pair other than [(s, t)] the
    edges from the one to the other are the same before and after. *)
Theorem addEdge_frame (g : MemoryGraph) (s t : string) (ty : EdgeType)
    (w : option Q) (s' t' : string) :
  let g' := addEdge g s t ty w in
  nodes g' = nodes g
  /\ (s' <> s \/ t' <> t -> edgesTo g' s' t' = edgesTo g s' t').
Proof.
  split; [apply nodes_addEdge | apply addEdge_frame_other].
Qed.

Lemma addEdge_frame_witness :
  edgesTo (addEdge chain_graph "a" "c" similar None) "b" "c"
  = edgesTo chain_graph "b" "c".
Proof.
  apply (addEdge_frame chain_graph "a" "c" similar None "b" "c").
  left; discriminate.
Defined.

Lemma filter_filter_targets l X t :
  t <> X ->
  filter (fun e => targets e t) (filter (fun e => negb (targets e X)) l)
  = filter (fun e => targets e t) l.
Proof.
  intros Ht; induction l as [|e l IH]; simpl; [reflexivity|].
  destruct (targets e X) eqn:EX; simpl.
  - unfold targets in *; apply String.eqb_eq in EX; rewrite EX.
    destruct (String.eqb_spec X t); [congruence | exact IH].
  - destruct (targets e t); simpl; congruence.
Qed.

(** X6. [removeNode(X)] of a present node removes exactly that node: the
    node count drops by one, every other node keeps its attributes, its
    cached rank and its community, and for every pair of other nodes the
    edges between them are the same before and after. *)
Theorem removeNode_frame (c : option MemoryGraphConfig) (ops : list Op)
    (X : string) :
  let g := run ops (new_graph c) in
  let g' := removeNode g X in
  JsMap.has X (nodes g) = true ->
  S (JsMap.size (nodes g')) = JsMap.size (nodes g)
  /\ JsMap.has X (nodes g') = false
  /\ (forall k, k <> X ->
        JsMap.get k (nodes g') = JsMap.get k (nodes g)
        /\ JsMap.get k (pageRanks g') = JsMap.get k (pageRanks g)
        /\ JsMap.get k (communities g') = JsMap.get k (communities g))
  /\ (forall s t, s <> X -> t <> X -> edgesTo g' s t = edgesTo g s t).
Proof.
  intros g g' H.
  assert (W : wf g) by (apply wf_reachable; exists c, ops; reflexivity).
  split; [|split; [|split]].
  - unfold g'; rewrite removeNode_nodes by assumption.
    apply size_delete, H.
  - unfold g'; rewrite removeNode_nodes by assumption.
    rewrite has_delete by apply (wf_nodes_keys g W).
    rewrite String.eqb_refl; reflexivity.
  - intros k Hk; unfold g', removeNode; rewrite H; simpl.
    rewrite !get_delete
      by (apply (wf_nodes_keys g W) || apply (wf_ranks_keys g W)
          || apply (wf_comm_keys g W)).
    destruct (String.eqb_spec k X); [contradiction | auto].
  - intros s t Hs Ht; unfold edgesTo, g'.
    rewrite removeNode_outEdges by assumption.
    destruct (String.eqb_spec s X); [contradiction|].
    apply filter_filter_targets, Ht.
Qed.

Lemma removeNode_frame_witness :
  S (JsMap.size (nodes (removeNode chain_graph "b")))
  = JsMap.size (nodes chain_graph)
  /\ edgesTo (removeNode chain_graph "b") "c" "a" = edgesTo chain_graph "c" "a".
Proof.
  destruct (removeNode_frame two_pass_config chain_ops "b")
    as (A & _ & _ & B); [reflexivity|].
  split; [exact A | apply B; discriminate].
Defined.

(** ** Bulk construction *)

Lemma hasEdge_addEdge_mono g s t ty w s' t' :
  hasEdge g s' t' = true -> hasEdge (addEdge g s t ty w) s' t' = true.
Proof.
  intros H.
  destruct (JsMap.has s (nodes g)) eqn:Hs;
    [|rewrite addEdge_skip by auto; exact H].
  destruct (JsMap.has t (nodes g)) eqn:Ht;
    [|rewrite addEdge_skip by auto; exact H].
  rewrite hasEdge_outEdges in *.
  destruct (String.eqb_spec s' s) as [->|Hne].
  - rewrite outEdges_addEdge_same, mergeEdge_targets, H by assumption.
    reflexivity.
  - rewrite outEdges_addEdge_other by assumption; exact H.
Qed.

Lemma addNodes_present entries :
  forall g,
    (JsMap.size (nodes g) + List.length entries
     <= maxNodes (config g))%nat ->
    (forall e, In e entries ->
       JsMap.has (entry_id e) (nodes (fold_left addNode entries g)) = true)
    /\ (forall k, JsMap.has k (nodes g) = true ->
          JsMap.has k (nodes (fold_left addNode entries g)) = true).
Proof.
  induction entries as [|e0 entries IH]; simpl; intros g Hcap.
  - split; [tauto | auto].
  - assert (Hc : within_capacity (config g) (addNode g e0)).
    { apply capacity_addNode; split; [reflexivity | lia]. }
    assert (Hs : (JsMap.size (nodes (addNode g e0)) <= S (JsMap.size (nodes g)))%nat).
    { unfold addNode; destruct (_ && _); simpl; [lia|].
      rewrite size_set; destruct (JsMap.has _ _); lia. }
    destruct (IH (addNode g e0)) as [A B].
    { rewrite config_addNode; lia. }
    split.
    + intros e [->|I]; [|apply A, I].
      apply B, has_addNode_new; lia.
    + intros k Hk; apply B, has_addNode, Hk.
Qed.

Lemma addEdges_refs id refs :
  forall g,
    let g' := fold_left (fun g refId => addEdge g id refId reference None)
                        refs g in
    nodes g' = nodes g
    /\ (forall s t, hasEdge g s t = true -> hasEdge g' s t = true)
    /\ (forall r, In r refs -> JsMap.has id (nodes g) = true ->
                  JsMap.has r (nodes g) = true -> hasEdge g' id r = true).
Proof.
  induction refs as [|r0 refs IH]; simpl; intros g.
  - repeat split; auto; tauto.
  - destruct (IH (addEdge g id r0 reference None)) as (A & B & C).
    rewrite nodes_addEdge in *.
    split; [exact A|].
    split; [intros s t H; apply B, hasEdge_addEdge_mono, H|].
    intros r [->|I] Hid Hr; [|apply C; assumption].
    apply B, hasEdge_addEdge; assumption.
Qed.

Lemma addEdges_entries entries :
  forall g,
    let g' :=
      fold_left
        (fun g entry =>
           fold_left (fun g refId => addEdge g (entry_id entry) refId reference None)
                     (references entry) g)
        entries g in
    nodes g' = nodes g
    /\ (forall s t, hasEdge g s t = true -> hasEdge g' s t = true)
    /\ (forall e r, In e entries -> In r (references e) ->
                    JsMap.has (entry_id e) (nodes g) = true ->
                    JsMap.has r (nodes g) = true ->
                    hasEdge g' (entry_id e) r = true).
Proof.
  induction entries as [|e0 entries IH]; simpl; intros g.
  - repeat split; auto; tauto.
  - destruct (addEdges_refs (entry_id e0) (references e0) g) as (A0 & B0 & C0).
    destruct (IH (fold_left
                    (fun g refId => addEdge g (entry_id e0) refId reference None)
                    (references e0) g)) as (A & B & C).
    rewrite A0 in *.
    split; [exact A|].
    split; [intros s t H; apply B, B0, H|].
    intros e r [->|I] Ir He Hr; [apply B, C0 | apply C]; assumption.
Qed.

Lemma hasEdge_addNodes_mono entries s t :
  forall g, hasEdge g s t = true ->
            hasEdge (fold_left addNode entries g) s t = true.
Proof.
  induction entries as [|e0 entries IH]; simpl; intros g H; [exact H|].
  apply IH; unfold addNode; destruct (_ && _); [exact H|].
  unfold hasEdge in *; simpl.
  destruct (JsMap.has (entry_id e0) (edges g)) eqn:E; [exact H|].
  rewrite get_set.
  destruct (String.eqb_spec s (entry_id e0)); subst; [|exact H].
  apply get_none_has in E; rewrite E in H; discriminate.
Qed.

(** X7. [buildFromBackend] inserts all nodes before any edge: when the
    entries fit within the capacity, every entry becomes a node and every
    reference to an id that is then a node becomes an edge, also when the
    referenced entry comes later in the list; a reference to an id that is
    no node creates nothing; edges that existed before are kept. *)
Theorem buildFromBackend_links (c : option MemoryGraphConfig) (ops : list Op)
    (entries : list MemoryEntry) :
  let g := run ops (new_graph c) in
  let g' := buildFromBackend g entries in
  (JsMap.size (nodes g) + List.length entries <= maxNodes (config g))%nat ->
  (forall e, In e entries -> JsMap.has (entry_id e) (nodes g') = true)
  /\ (forall e r, In e entries -> In r (references e) ->
        JsMap.has r (nodes g') = true -> hasEdge g' (entry_id e) r = true)
  /\ (forall s r, JsMap.has r (nodes g') = false -> hasEdge g' s r = false)
  /\ (forall s t, hasEdge g s t = true -> hasEdge g' s t = true).
Proof.
  intros g g' Hcap.
  assert (W : wf g) by (apply wf_reachable; exists c, ops; reflexivity).
  assert (W' : wf g') by apply wf_buildFromBackend, W.
  destruct (addNodes_present entries g Hcap) as [N1 N2].
  destruct (addEdges_entries entries (fold_left addNode entries g))
    as (A & B & C).
  assert (En : nodes g' = nodes (fold_left addNode entries g)) by exact A.
  assert (Eh : forall s t,
             hasEdge g' s t
             = hasEdge
                 (fold_left
                    (fun g entry =>
                       fold_left
                         (fun g refId =>
                            addEdge g (entry_id entry) refId reference None)
                         (references entry) g)
                    entries (fold_left addNode entries g)) s t)
    by reflexivity.
  split; [intros e I; rewrite En; apply N1, I|].
  split; [|split].
  - intros e r I Ir Hr; rewrite Eh; rewrite En in Hr.
    apply C; auto.
  - intros s r Hr.
    destruct (hasEdge g' s r) eqn:H; [|reflexivity].
    rewrite (wf_target_is_node g' s r W' H) in Hr; discriminate.
  - intros s t H; rewrite Eh; apply B, hasEdge_addNodes_mono, H.
Qed.

Lemma buildFromBackend_links_witness :
  let g' := buildFromBackend (new_graph None) linked_entries in
  hasEdge g' "a" "c" = true /\ hasEdge g' "b" "a" = true
  /\ hasEdge g' "a" "nowhere" = false.
Proof.
  destruct (buildFromBackend_links None [] linked_entries)
    as (_ & L & D & _); [simpl; lia|].
  split; [|split].
  - apply (L (entryWith "a" ["c"; "nowhere"]));
      [left; reflexivity | left; reflexivity | reflexivity].
  - apply (L (entryWith "b" ["a"]));
      [right; left; reflexivity | left; reflexivity | reflexivity].
  - apply D; reflexivity.
Defined.

(** ** Similarity edges *)

(** X8. When [entryId] and the ids of all search results are nodes, the
    count [addSimilarityEdges] returns is exactly the number of edges it
    added: the edge count of [getStats] grows by the returned count (by 0
    when the entry is absent or has no vector representation). *)
Theorem addSimilarityEdges_count (c : option MemoryGraphConfig) (ops : list Op)
    (entryId : string) (got : option MemoryEntry)
    (results : list SearchResult) :
  let g := run ops (new_graph c) in
  let g' := fst (addSimilarityEdges g entryId got results) in
  let added := snd (addSimilarityEdges g entryId got results) in
  JsMap.has entryId (nodes g) = true ->
  (forall r, In r results ->
     JsMap.has (entry_id (sr_entry r)) (nodes g) = true) ->
  edgeCount (getStats g') = (edgeCount (getStats g) + added)%nat.
Proof.
  intros g g' added Hid Hres.
  assert (W : wf g) by (apply wf_reachable; exists c, ops; reflexivity).
  fold (totalEdges g') (totalEdges g).
  unfold g', added, addSimilarityEdges.
  destruct got as [ent|]; [|simpl; lia].
  destruct (embedding ent); [|simpl; lia].
  set (body := fun (acc : MemoryGraph * nat) (result : SearchResult) => _).
  enough (G : forall acc,
            wf (fst acc) -> nodes (fst acc) = nodes g ->
            totalEdges (fst (fold_left body results acc))
            = (totalEdges (fst acc) + snd (fold_left body results acc)
               - snd acc)%nat
            /\ (snd acc <= snd (fold_left body results acc))%nat).
  { destruct (G (g, 0%nat) W eq_refl) as [E _]; simpl in E; lia. }
  clear g' added.
  induction results as [|r rs IH]; intros acc Wa Na; simpl; [split; lia|].
  assert (Hres' : forall r, In r rs ->
            JsMap.has (entry_id (sr_entry r)) (nodes g) = true)
    by (intros; apply Hres; right; assumption).
  specialize (IH Hres').
  assert (S1 : wf (fst (body acc r)) /\ nodes (fst (body acc r)) = nodes g
               /\ (totalEdges (fst (body acc r)) + snd acc
                   = totalEdges (fst acc) + snd (body acc r))%nat
               /\ (snd acc <= snd (body acc r))%nat).
  { unfold body; destruct acc as [g1 n1]; simpl in *.
    destruct (String.eqb _ entryId); [simpl; auto with arith|].
    destruct (Qle_bool _ _); [|simpl; auto with arith].
    simpl; split; [apply wf_addEdge, Wa|].
    split; [rewrite nodes_addEdge; exact Na|].
    rewrite totalEdges_addEdge, Na, Hid, (Hres r) by (auto; left; reflexivity).
    destruct (hasEdge g1 entryId _); simpl; lia. }
  destruct S1 as (W1 & N1 & T1 & L1).
  destruct (IH (body acc r) W1 N1) as [E L]; split; lia.
Qed.

Lemma addSimilarityEdges_count_witness :
  let r := addSimilarityEdges chain_graph "a" (Some (embedded_entry "a"))
                              neighbour_results in
  edgeCount (getStats (fst r)) = (edgeCount (getStats chain_graph) + snd r)%nat.
Proof.
  apply (addSimilarityEdges_count two_pass_config chain_ops "a"
           (Some (embedded_entry "a")) neighbour_results).
  - reflexivity.
  - intros r [<-|[<-|[<-|[<-|[]]]]]; reflexivity.
Defined.

(** X9. [addSimilarityEdges] only ever adds edges out of [entryId]: it
    creates no node, leaves the edge lists of all other nodes as they are,
    adds no edge from [entryId] to itself, and with no entry or no vector
    representation it changes nothing and returns 0; the count it returns is
    at most the number of search results. *)
Theorem addSimilarityEdges_frame (g : MemoryGraph) (entryId : string)
    (got : option MemoryEntry) (results : list SearchResult) :
  let g' := fst (addSimilarityEdges g entryId got results) in
  let added := snd (addSimilarityEdges g entryId got results) in
  nodes g' = nodes g
  /\ (forall s, s <> entryId -> outEdges g' s = outEdges g s)
  /\ edgesTo g' entryId entryId = edgesTo g entryId entryId
  /\ (added <= List.length results)%nat
  /\ (got = None \/ (exists ent, got = Some ent /\ embedding ent = None) ->
      g' = g /\ added = 0%nat).
Proof.
  intros g' added; unfold g', added, addSimilarityEdges.
  destruct got as [ent|];
    [|simpl; repeat split; auto; lia].
  destruct (embedding ent) eqn:Em;
    [|simpl; repeat split; auto; lia].
  set (body := fun (acc : MemoryGraph * nat) (result : SearchResult) => _).
  enough (G : forall acc,
            let out := fold_left body results acc in
            nodes (fst out) = nodes (fst acc)
            /\ (forall s, s <> entryId ->
                  outEdges (fst out) s = outEdges (fst acc) s)
            /\ edgesTo (fst out) entryId entryId
               = edgesTo (fst acc) entryId entryId
            /\ (snd out <= snd acc + List.length results)%nat).
  { destruct (G (g, 0%nat)) as (A & B & C & D); simpl in *.
    split; [exact A|].
    split; [exact B|].
    split; [exact C|].
    split; [lia|].
    intros [X|(e & X & X')]; [discriminate|].
    inversion X; subst; congruence. }
  clear g' added.
  induction results as [|r rs IH]; intros acc; simpl;
    [repeat split; auto; lia|].
  destruct (IH (body acc r)) as (A & B & C & D).
  assert (S1 : nodes (fst (body acc r)) = nodes (fst acc)
               /\ (forall s, s <> entryId ->
                     outEdges (fst (body acc r)) s = outEdges (fst acc) s)
               /\ edgesTo (fst (body acc r)) entryId entryId
                  = edgesTo (fst acc) entryId entryId
               /\ (snd (body acc r) <= S (snd acc))%nat).
  { unfold body; destruct acc as [g1 n1]; simpl.
    destruct (String.eqb_spec (entry_id (sr_entry r)) entryId);
      [simpl; auto|].
    destruct (Qle_bool _ _); [|simpl; auto].
    simpl; split; [apply nodes_addEdge|].
    split; [intros s Hs; apply outEdges_addEdge_other, Hs|].
    split.
    - apply addEdge_frame_other; right; congruence.
    - destruct (hasEdge _ _ _); lia. }
  destruct S1 as (A1 & B1 & C1 & D1).
  split; [congruence|].
  split; [intros s Hs; rewrite B, B1 by assumption; reflexivity|].
  split; [congruence | lia].
Qed.

Lemma addSimilarityEdges_frame_witness :
  let r := addSimilarityEdges chain_graph "a" (Some (embedded_entry "a"))
                              neighbour_results in
  outEdges (fst r) "b" = outEdges chain_graph "b"
  /\ addSimilarityEdges chain_graph "a" None neighbour_results
     = (chain_graph, 0%nat).
Proof.
  split.
  - destruct (addSimilarityEdges_frame chain_graph "a"
                (Some (embedded_entry "a")) neighbour_results)
      as (_ & B & _).
    apply B; discriminate.
  - destruct (addSimilarityEdges_frame chain_graph "a" None neighbour_results)
      as (_ & _ & _ & _ & E).
    destruct E as [E1 E2]; [left; reflexivity|].
    apply injective_projections; assumption.
Defined.

(** ** Statistics *)

Lemma rankBounds_fold ranks :
  forall mx mn,
    let out :=
      fold_left
        (fun (acc : Q * ExtQ) rank =>
           let (maxPageRank, minPageRank) := acc in
           (if Qlt_bool maxPageRank rank then rank else maxPageRank,
            if below rank minPageRank then Finite rank else minPageRank))
        ranks (mx, mn) in
    mx <= fst out
    /\ (forall r, atMost mn r -> atMost (snd out) r)
    /\ (forall r, In r ranks -> r <= fst out /\ atMost (snd out) r).
Proof.
  induction ranks as [|x l IH]; intros mx mn; simpl.
  - split; [apply Qle_refl|]; split; [auto | tauto].
  - set (mx1 := if Qlt_bool mx x then x else mx).
    set (mn1 := if below x mn then Finite x else mn).
    destruct (IH mx1 mn1) as (A & B & C).
    assert (Hmx : mx <= mx1 /\ x <= mx1).
    { unfold mx1; destruct (Qlt_bool mx x) eqn:E.
      - apply Qlt_bool_iff in E; split; [apply Qlt_le_weak, E | apply Qle_refl].
      - apply Qlt_bool_false in E; split; [apply Qle_refl | exact E]. }
    assert (Hmn : atMost mn1 x /\ forall r, atMost mn r -> atMost mn1 r).
    { unfold mn1; destruct mn as [q|]; simpl.
      - destruct (Qlt_bool x q) eqn:E; simpl.
        + apply Qlt_bool_iff in E; split; [apply Qle_refl|].
          intros r Hr; eapply Qle_trans; [apply Qlt_le_weak, E | exact Hr].
        + apply Qlt_bool_false in E; split; [exact E | auto].
      - split; [apply Qle_refl | tauto]. }
    destruct Hmx as [M1 M2]; destruct Hmn as [N1 N2].
    split; [eapply Qle_trans; eassumption|].
    split; [intros r Hr; apply B, N2, Hr|].
    intros r [<-|I]; [|apply C, I].
    split; [eapply Qle_trans; eassumption | apply B, N1].
Qed.

(** X10. The rank bounds of [getStats] enclose the cached table: with at
    least one cached rank, [minPageRank] is a finite number not above any
    cached rank and [maxPageRank] is not below any cached rank nor below 0;
    with an empty table both are 0. *)
Theorem getStats_rank_bounds (g : MemoryGraph) :
  let st := getStats g in
  (pageRanks g = [] -> maxPageRank st = 0 /\ minPageRank st = Finite 0)
  /\ (pageRanks g <> [] ->
      0 <= maxPageRank st
      /\ exists m, minPageRank st = Finite m
           /\ forall k r, In (k, r) (pageRanks g) ->
                          m <= r /\ r <= maxPageRank st).
Proof.
  unfold getStats; cbn [maxPageRank minPageRank].
  split; [intros ->; split; reflexivity|].
  intros NE.
  destruct (pageRanks g) as [|[k0 r0] pr] eqn:E; [congruence|].
  change (0 <? JsMap.size ((k0, r0) :: pr))%nat with true; cbv iota.
  unfold rankBounds.
  destruct (rankBounds_fold (map snd ((k0, r0) :: pr)) 0 Infinity)
    as (A & _ & C).
  split; [exact A|].
  destruct (snd (fold_left _ _ _)) as [m|] eqn:Em.
  - exists m; split; [reflexivity|].
    intros k r I.
    destruct (C r) as [C1 C2].
    { change r with (snd (k, r)); apply in_map, I. }
    split; [exact C2 | exact C1].
  - exfalso; destruct (C r0) as [_ C2]; [left; reflexivity | exact C2].
Qed.

Lemma getStats_rank_bounds_witness :
  let g := fst (computePageRank chain_graph) in
  0 <= maxPageRank (getStats g)
  /\ exists m, minPageRank (getStats g) = Finite m
       /\ forall k r, In (k, r) (pageRanks g) ->
                      m <= r /\ r <= maxPageRank (getStats g).
Proof.
  apply (getStats_rank_bounds (fst (computePageRank chain_graph))).
  vm_compute; discriminate.
Defined.

Lemma Qnat_plus a b : Qnat (a + b) == Qnat a + Qnat b.
Proof. unfold Qnat; rewrite Nat2Z.inj_add, inject_Z_plus; reflexivity. Qed.

Lemma Qnat_list_sum l : Qnat (list_sum l) == sumQ (map Qnat l).
Proof.
  induction l as [|x l IH]; simpl; [reflexivity|].
  rewrite Qnat_plus, IH; reflexivity.
Qed.

Lemma Qnat_inj a b : Qnat a == Qnat b -> a = b.
Proof. unfold Qnat, Qeq; simpl; lia. Qed.

Lemma lengths_by_key {A} (m : JsMap.t (list A)) :
  NoDup (JsMap.keys m) ->
  map (fun se => List.length (snd se)) m
  = map (fun s => List.length (or_default (JsMap.get s m) [])) (JsMap.keys m).
Proof.
  induction m as [|[k l] m IH]; simpl; intros ND; [reflexivity|].
  inversion ND; subst.
  rewrite String.eqb_refl; simpl; f_equal.
  rewrite IH by assumption.
  apply map_ext_in; intros s Hs.
  destruct (String.eqb_spec s k); [subst; contradiction | reflexivity].
Qed.

Lemma keys_perm g :
  wf g -> Permutation (JsMap.keys (edges g)) (JsMap.keys (nodes g)).
Proof.
  intros W; apply NoDup_Permutation;
    [apply (wf_edges_keys g W) | apply (wf_nodes_keys g W)|].
  intros k; rewrite <- !has_In, (wf_edges_dom g W); reflexivity.
Qed.

Lemma totalEdges_out g :
  wf g ->
  Qnat (totalEdges g)
  == sumQ (map (fun s => Qnat (List.length (outEdges g s)))
               (JsMap.keys (nodes g))).
Proof.
  intros W.
  rewrite totalEdges_sum, (lengths_by_key _ (wf_edges_keys g W)).
  rewrite Qnat_list_sum, map_map.
  apply (sumQ_perm_map (fun s => Qnat (List.length (outEdges g s)))).
  apply keys_perm, W.
Qed.

(** X11. The number of edges [getStats] reports (the lengths of all
    outgoing edge lists) equals the number of sources recorded in the
    reverse index over all nodes: every edge is recorded exactly once. *)
Theorem getStats_edges_recorded_once (c : option MemoryGraphConfig)
    (ops : list Op) :
  let g := run ops (new_graph c) in
  edgeCount (getStats g)
  = list_sum (map (fun t => List.length (incomingOf g t))
                  (JsMap.keys (nodes g))).
Proof.
  intros g.
  assert (W : wf g) by (apply wf_reachable; exists c, ops; reflexivity).
  apply Qnat_inj; fold (totalEdges g).
  rewrite (totalEdges_out g W), Qnat_list_sum, map_map.
  transitivity
    (sumQ (map (fun s =>
                  sumQ (map (fun v => if hasEdge g s v then 1 else 0)
                            (JsMap.keys (nodes g))))
               (JsMap.keys (nodes g)))).
  { apply sumQ_ext; intros s _.
    rewrite (count_targets g s 1 W); ring. }
  rewrite sumQ_swap.
  apply sumQ_ext; intros v _; cbv beta.
  rewrite <- (sumQ_filter (fun s => hasEdge g s v) (fun _ => 1)), sumQ_const.
  rewrite <- (Permutation_length (sources_perm g v W)); ring.
Qed.

(** ** Top nodes *)

Lemma StronglySorted_app {A} (R : A -> A -> Prop) l1 l2 :
  StronglySorted R (l1 ++ l2) ->
  StronglySorted R l1
  /\ forall a b, In a l1 -> In b l2 -> R a b.
Proof.
  induction l1 as [|x l1 IH]; simpl; intros S.
  - split; [constructor | tauto].
  - inversion S; subst.
    destruct (IH H1) as [S1 C].
    split.
    + constructor; [exact S1|].
      apply Forall_forall; intros y Hy.
      rewrite Forall_forall in H2; apply H2, in_or_app; auto.
    + intros a b [<-|Ia] Ib; [|apply C; assumption].
      rewrite Forall_forall in H2; apply H2, in_or_app; auto.
Qed.

Lemma StronglySorted_map {A B} (R : A -> A -> Prop) (R' : B -> B -> Prop)
    (f : A -> B) l :
  (forall a b, R a b -> R' (f a) (f b)) ->
  StronglySorted R l -> StronglySorted R' (map f l).
Proof.
  intros Hf; induction 1; simpl; constructor; [assumption|].
  apply Forall_forall; intros y Hy.
  apply in_map_iff in Hy; destruct Hy as (b & <- & Ib).
  rewrite Forall_forall in H0; apply Hf, H0, Ib.
Qed.

Lemma cached_table_size g :
  wf g -> dirty g = false ->
  List.length (pageRanks g) = JsMap.size (nodes g).
Proof.
  intros W D.
  unfold JsMap.size.
  rewrite <- (length_map fst (pageRanks g)), <- (length_map fst (nodes g)).
  apply Permutation_length, NoDup_Permutation;
    [apply (wf_ranks_keys g W) | apply (wf_nodes_keys g W)|].
  intros k; fold (JsMap.keys (pageRanks g)); fold (JsMap.keys (nodes g)).
  rewrite <- !has_In; split; [apply (wf_ranks_dom g W)|].
  apply (wf_clean g W D).
Qed.

(** X12. [getTopNodes(n)] with [n >= 0] recomputes the ranks when the flag is
    set and returns [min(n, N)] rows for distinct nodes, each with the
    node's cached rank and its community (the node's own id when it has
    none), sorted by non-increasing rank; no node left out has a rank above
    that of a returned row. *)
Theorem getTopNodes_top (c : option MemoryGraphConfig) (ops : list Op) (n : Z) :
  let g := run ops (new_graph c) in
  let g1 := if dirty g then fst (computePageRank g) else g in
  let out := snd (getTopNodes g n) in
  (0 <= n)%Z ->
  fst (getTopNodes g n) = g1
  /\ List.length out = Nat.min (Z.to_nat n) (JsMap.size (nodes g))
  /\ NoDup (map top_id out)
  /\ (forall x, In x out ->
        JsMap.has (top_id x) (nodes g) = true
        /\ JsMap.get (top_id x) (pageRanks g1) = Some (top_pageRank x)
        /\ top_community x
           = str_or (JsMap.get (top_id x) (communities g1)) (top_id x))
  /\ StronglySorted byRank out
  /\ (forall x k r, In x out -> JsMap.get k (pageRanks g1) = Some r ->
        ~ In k (map top_id out) -> r <= top_pageRank x).
Proof.
  intros g g1 out Hn.
  assert (W : wf g) by (apply wf_reachable; exists c, ops; reflexivity).
  destruct (wf_ranking_state g W) as (W1 & D1 & En); fold g1 in W1, D1, En.
  set (sorted := Array_sort (fun a b : string * Q => snd b - snd a)
                            (pageRanks g1)).
  assert (P : Permutation sorted (pageRanks g1))
    by apply (Array_sort_perm (@snd string Q)).
  assert (S : StronglySorted (fun a b : string * Q => snd b <= snd a) sorted)
    by apply (Array_sort_sorted (@snd string Q)).
  set (top := firstn (Z.to_nat n) sorted).
  assert (Eo : out = map (fun e : string * Q =>
                            {| top_id := fst e; top_pageRank := snd e;
                               top_community :=
                                 str_or (JsMap.get (fst e) (communities g1))
                                        (fst e) |}) top).
  { unfold out, getTopNodes, slice_to; cbn [snd].
    apply Z.leb_le in Hn; rewrite Hn; reflexivity. }
  assert (Es : sorted = top ++ skipn (Z.to_nat n) sorted)
    by (symmetry; apply firstn_skipn).
  assert (Ids : map top_id out = map fst top)
    by (rewrite Eo, map_map; reflexivity).
  assert (ND : NoDup (map fst sorted)).
  { eapply Permutation_NoDup;
      [apply Permutation_map, Permutation_sym, P | apply (wf_ranks_keys g1 W1)]. }
  rewrite Es in S; apply StronglySorted_app in S; destruct S as [St Cross].
  assert (Itop : forall e, In e top -> In e (pageRanks g1)).
  { intros e He; eapply Permutation_in; [exact P|].
    rewrite Es; apply in_or_app; auto. }
  split; [reflexivity|].
  split; [|split; [|split; [|split]]].
  - rewrite Eo, length_map; unfold top.
    rewrite length_firstn, (Permutation_length P), cached_table_size, En
      by assumption.
    reflexivity.
  - rewrite Ids; rewrite Es, map_app in ND.
    eapply NoDup_app_remove_r; exact ND.
  - intros x Hx; rewrite Eo in Hx.
    apply in_map_iff in Hx; destruct Hx as ([k r] & <- & He); simpl.
    pose proof (In_get k _ r (wf_ranks_keys g1 W1) (Itop _ He)) as G.
    split; [|split; [exact G | reflexivity]].
    rewrite <- En; apply (wf_ranks_dom g1 W1), (get_has _ _ _ G).
  - rewrite Eo; eapply StronglySorted_map; [|exact St].
    intros a b H; exact H.
  - intros x k r Hx G Hk; rewrite Eo in Hx.
    apply in_map_iff in Hx; destruct Hx as (e & <- & He); simpl.
    apply (Cross e (k, r) He).
    assert (I : In (k, r) sorted).
    { eapply Permutation_in; [apply Permutation_sym, P | apply get_In, G]. }
    rewrite Es in I; apply in_app_or in I; destruct I as [I|I]; [|exact I].
    exfalso; apply Hk; rewrite Ids.
    change k with (fst (k, r)); apply in_map, I.
Qed.

Lemma getTopNodes_top_witness :
  let out := snd (getTopNodes chain_graph 2) in
  List.length out = 2%nat /\ NoDup (map top_id out) /\ StronglySorted byRank out.
Proof.
  destruct (getTopNodes_top two_pass_config chain_ops 2)
    as (_ & L & N & _ & S & _); [lia|].
  split; [exact L | split; assumption].
Defined.

(** ** PageRank: range of the ranks *)

Lemma sumQ_nonneg {A} (f : A -> Q) l :
  (forall x, In x l -> 0 <= f x) -> 0 <= sumQ (map f l).
Proof.
  induction l as [|x l IH]; simpl; intros H; [apply Qle_refl|].
  rewrite <- (Qplus_0_l 0); apply Qplus_le_compat; [apply H; auto|].
  apply IH; intros; apply H; auto.
Qed.

Lemma sumQ_term {A} (f : A -> Q) l x :
  (forall y, In y l -> 0 <= f y) -> In x l -> f x <= sumQ (map f l).
Proof.
  induction l as [|y l IH]; simpl; intros H I; [tauto|].
  destruct I as [->|I].
  - rewrite <- (Qplus_0_r (f x)) at 1; apply Qplus_le_compat; [apply Qle_refl|].
    apply sumQ_nonneg; intros; apply H; auto.
  - rewrite <- (Qplus_0_l (f x)); apply Qplus_le_compat; [apply H; auto|].
    apply IH; [intros; apply H; auto | exact I].
Qed.

Lemma Qdiv_nonneg a b : 0 <= a -> 0 <= b -> 0 <= a / b.
Proof.
  intros Ha Hb; unfold Qdiv.
  apply Qmult_le_0_compat; [exact Ha | apply Qinv_le_0_compat, Hb].
Qed.

Lemma Qnat_nonneg n : 0 <= Qnat n.
Proof. unfold Qnat, Qle; simpl; lia. Qed.

Lemma Qnat_pos n : n <> 0%nat -> 0 < Qnat n.
Proof. intros H; unfold Qnat, Qlt; simpl; lia. Qed.

Lemma incomingSum_nonneg g pr v : nonneg pr -> 0 <= incomingSum g pr v.
Proof.
  intros H; rewrite incomingSum_fold, fold_sum, Qplus_0_l.
  apply sumQ_nonneg; intros s _.
  apply Qdiv_nonneg; [apply (H s) | apply Qnat_nonneg].
Qed.

Lemma danglingSum_nonneg dangling pr : nonneg pr -> 0 <= danglingSum dangling pr.
Proof.
  intros H; unfold danglingSum; rewrite fold_sum, Qplus_0_l.
  apply sumQ_nonneg; intros s _; apply (H s).
Qed.

Lemma newRank_floor g N d dsum pr v :
  0 <= d -> 0 <= N -> 0 <= dsum -> nonneg pr ->
  (1 - d) / N <= newRank g N d dsum pr v.
Proof.
  intros Hd HN Hs Hp; unfold newRank.
  rewrite <- (Qplus_0_r ((1 - d) / N)) at 1.
  apply Qplus_le_compat; [apply Qle_refl|].
  apply Qmult_le_0_compat; [exact Hd|].
  rewrite <- (Qplus_0_l 0); apply Qplus_le_compat.
  - apply incomingSum_nonneg, Hp.
  - apply Qdiv_nonneg; assumption.
Qed.

Lemma floor_nonneg d N : d <= 1 -> 0 <= N -> 0 <= (1 - d) / N.
Proof.
  intros Hd HN; apply Qdiv_nonneg; [|exact HN].
  unfold Qminus; rewrite <- (Qplus_opp_r d).
  apply Qplus_le_compat; [exact Hd | apply Qle_refl].
Qed.

Lemma rankOf_absent pr k : JsMap.get k pr = None -> rankOf pr k = 0.
Proof. unfold rankOf; intros ->; reflexivity. Qed.

Lemma floored_pass g pr :
  let N := Qnat (JsMap.size (nodes g)) in
  let d := pageRankDamping (config g) in
  let pr' := fst (pagerank_pass g N d (danglingNodes g) pr) in
  0 <= d -> d <= 1 -> floored g pr -> floored g pr'.
Proof.
  intros N d pr' Hd0 Hd1 [Hp _].
  assert (F : forall v, JsMap.has v (nodes g) = true ->
                        (1 - d) / N <= rankOf pr' v).
  { intros v Hv.
    rewrite (rankOf_cached pr' v
               (newRank g N d (danglingSum (danglingNodes g) pr) pr v)).
    - apply newRank_floor; auto; [apply Qnat_nonneg|].
      apply danglingSum_nonneg, Hp.
    - unfold pr'; rewrite pagerank_pass_get, Hv; reflexivity. }
  split; [|exact F].
  intros k; destruct (JsMap.has k (nodes g)) eqn:Hk.
  - eapply Qle_trans; [|apply F, Hk].
    apply floor_nonneg; [exact Hd1 | apply Qnat_nonneg].
  - rewrite rankOf_absent; [apply Qle_refl|].
    unfold pr'; rewrite pagerank_pass_get, Hk; reflexivity.
Qed.

Lemma floored_initialRanks g :
  wf g -> JsMap.size (nodes g) <> 0%nat ->
  0 <= pageRankDamping (config g) -> floored g (initialRanks g).
Proof.
  intros W NZ Hd.
  assert (I : forall v, JsMap.has v (nodes g) = true ->
                rankOf (initialRanks g) v == 1 / Qnat (JsMap.size (nodes g))).
  { intros v Hv; apply rankOf_cached; rewrite initialRanks_get, Hv.
    reflexivity. }
  pose proof (Qnat_pos _ NZ) as HN.
  assert (L : (1 - pageRankDamping (config g)) / Qnat (JsMap.size (nodes g))
              <= 1 / Qnat (JsMap.size (nodes g))).
  { unfold Qdiv; apply Qmult_le_compat_r;
      [|apply Qinv_le_0_compat, Qlt_le_weak, HN].
    unfold Qminus; rewrite <- (Qplus_0_r 1) at 2.
    apply Qplus_le_compat; [apply Qle_refl|].
    exact (Qopp_le_compat 0 _ Hd). }
  split.
  - intros k; destruct (JsMap.has k (nodes g)) eqn:Hk.
    + rewrite (I k Hk); apply Qdiv_nonneg; [discriminate|].
      apply Qlt_le_weak, HN.
    + rewrite rankOf_absent; [apply Qle_refl|].
      rewrite initialRanks_get, Hk; apply wf_absent_rank; assumption.
  - intros v Hv; rewrite (I v Hv); exact L.
Qed.

Lemma computePageRank_total g :
  wf g -> JsMap.size (nodes g) <> 0%nat ->
  totalRank g (snd (computePageRank g)) == 1.
Proof.
  intros W NZ.
  rewrite computePageRank_table, computePageRank_ranks.
  destruct (Nat.eqb_spec (JsMap.size (nodes g)) 0) as [Z|_]; [contradiction|].
  apply (pagerank_loop_inv (fun t => totalRank g t == 1)).
  - intros t Ht; rewrite pass_total, Ht by assumption; ring.
  - apply initial_total; assumption.
Qed.

(** X13. With a damping factor [d] in [0, 1], every node's rank in the table
    [computePageRank] returns lies between [(1 - d)/N] and 1; with [d < 1]
    it is strictly positive, for dangling and unreferenced nodes too. *)
Theorem pagerank_rank_range (c : option MemoryGraphConfig) (ops : list Op)
    (v : string) :
  let g := run ops (new_graph c) in
  let d := pageRankDamping (config g) in
  let N := Qnat (JsMap.size (nodes g)) in
  let table := snd (computePageRank g) in
  0 <= d -> d <= 1 -> JsMap.has v (nodes g) = true ->
  (1 - d) / N <= rankOf table v
  /\ rankOf table v <= 1
  /\ (d < 1 -> 0 < rankOf table v).
Proof.
  intros g d N table Hd0 Hd1 Hv.
  assert (W : wf g) by (apply wf_reachable; exists c, ops; reflexivity).
  pose proof (has_size_pos _ _ Hv) as NZ.
  assert (F : floored g table).
  { unfold table; rewrite computePageRank_table, computePageRank_ranks.
    destruct (Nat.eqb_spec (JsMap.size (nodes g)) 0) as [Z|_]; [contradiction|].
    apply (pagerank_loop_inv (floored g)).
    - intros pr; apply floored_pass; assumption.
    - apply floored_initialRanks; assumption. }
  destruct F as [Fn Fl].
  assert (L : (1 - d) / N <= rankOf table v) by apply Fl, Hv.
  split; [exact L|].
  split.
  - rewrite <- (computePageRank_total g W NZ); fold table.
    unfold totalRank.
    apply (sumQ_term (rankOf table)); [intros; apply Fn|].
    apply has_In, Hv.
  - intros Hlt; eapply Qlt_le_trans; [|exact L].
    apply Qlt_shift_div_l; [apply Qnat_pos, NZ|].
    rewrite Qmult_0_l; unfold Qminus.
    rewrite <- (Qplus_opp_r d).
    apply Qplus_lt_le_compat; [exact Hlt | apply Qle_refl].
Qed.

Lemma pagerank_rank_range_witness :
  let table := snd (computePageRank stale_pair_graph) in
  (1 - (85 # 100)) / Qnat 2 <= rankOf table "b"
  /\ rankOf table "b" <= 1
  /\ ((85 # 100) < 1 -> 0 < rankOf table "b").
Proof.
  apply (pagerank_rank_range two_pass_config pair_ops "b");
    [discriminate | discriminate | reflexivity].
Defined.

(** ** PageRank: when the iteration stops *)

Lemma pagerank_loop_stop g remaining :
  forall iterations pr,
    let N := Qnat (JsMap.size (nodes g)) in
    let d := pageRankDamping (config g) in
    let pass := fun t => fst (pagerank_pass g N d (danglingNodes g) t) in
    exists k,
      (k <= remaining)%nat
      /\ pagerank_loop g N d (danglingNodes g) remaining iterations pr
         = (Nat.iter k pass pr, (iterations + k)%nat)
      /\ (1 <= remaining -> 1 <= k)%nat
      /\ (forall j, (S j < k)%nat -> settled g (Nat.iter j pass pr) = false)
      /\ (k < remaining ->
          settled g (Nat.iter (k - 1) pass pr) = true)%nat.
Proof.
  induction remaining as [|r IH]; intros it pr N d pass.
  - exists 0%nat; simpl; rewrite Nat.add_0_r.
    split; [lia|].
    split; [reflexivity|].
    split; [lia|].
    split; intros; lia.
  - cbn [pagerank_loop].
    destruct (pagerank_pass g N d (danglingNodes g) pr)
      as [newRanks maxDelta] eqn:E.
    assert (E1 : newRanks = pass pr) by (unfold pass; rewrite E; reflexivity).
    assert (E2 : settled g pr
                 = Qlt_bool maxDelta (pageRankConvergence (config g))).
    { unfold settled; fold N d; rewrite E; reflexivity. }
    destruct (Qlt_bool maxDelta _) eqn:C.
    + exists 1%nat; simpl; rewrite E1, Nat.add_1_r.
      split; [lia|].
      split; [reflexivity|].
      split; [lia|].
      split; [intros; lia | intros _; exact E2].
    + destruct (IH (S it) newRanks) as (k & Hk & El & H1 & Hn & Hs).
      fold N d pass in El, Hn, Hs.
      exists (S k); rewrite El, Nat.iter_succ_r, E1.
      split; [lia|].
      split; [f_equal; lia|].
      split; [lia|].
      split.
      * intros [|j] Hj; [exact E2|].
        rewrite Nat.iter_succ_r, <- E1; apply Hn; lia.
      * intros Hlt.
        destruct k as [|k'].
        { destruct r; [lia | specialize (H1 ltac:(lia)); lia]. }
        replace (S (S k') - 1)%nat with (S k') by lia.
        rewrite Nat.iter_succ_r, <- E1.
        replace k' with (S k' - 1)%nat by lia; apply Hs; lia.
Qed.

(** X14. [computePageRank] on a non-empty graph reports a number [k] of
    iterations between 1 and the cap (0 when the cap is 0), returns the
    initial table after [k] passes, and stops at the first pass whose
    largest change is below the convergence threshold: no earlier pass was
    below it, and when [k] is under the cap the last pass was.  On the empty
    graph it reports 0 iterations and returns an empty table. *)
Theorem pagerank_stops_when_settled (g : MemoryGraph) :
  exists k,
    emitted (fst (computePageRank g)) = emitted g ++ [pagerank_computed k]
    /\ (k <= pageRankIterations (config g))%nat
    /\ (JsMap.size (nodes g) = 0%nat ->
        k = 0%nat /\ snd (computePageRank g) = [])
    /\ (JsMap.size (nodes g) <> 0%nat ->
        snd (computePageRank g) = tableAfter g k
        /\ (1 <= pageRankIterations (config g) -> 1 <= k)%nat
        /\ (forall j, (S j < k)%nat -> settled g (tableAfter g j) = false)
        /\ (k < pageRankIterations (config g) ->
            settled g (tableAfter g (k - 1)) = true)%nat).
Proof.
  unfold computePageRank.
  destruct (Nat.eqb_spec (JsMap.size (nodes g)) 0) as [Z|NZ].
  - exists 0%nat; simpl; repeat split; try lia; contradiction.
  - destruct (pagerank_loop_stop g (pageRankIterations (config g)) 0
                (initialRanks g)) as (k & Hk & El & H1 & Hn & Hs).
    rewrite El; exists k; simpl.
    split; [reflexivity|].
    split; [exact Hk|].
    split; [intros Z; contradiction|].
    intros _; repeat split; assumption.
Qed.

(** ** PageRank: the cached table *)

Lemma sameLookups_refl {V} (m : JsMap.t V) : sameLookups m m.
Proof. intros k; reflexivity. Qed.

Lemma sameLookups_trans {V} (m1 m2 m3 : JsMap.t V) :
  sameLookups m1 m2 -> sameLookups m2 m3 -> sameLookups m1 m3.
Proof. intros H1 H2 k; rewrite H1; apply H2. Qed.

Lemma pagerank_pass_lookups g N d dangling pr pr' :
  sameLookups pr pr' ->
  pagerank_pass g N d dangling pr = pagerank_pass g N d dangling pr'.
Proof.
  intros H; unfold pagerank_pass.
  assert (Ed : danglingSum dangling pr = danglingSum dangling pr').
  { unfold danglingSum; apply fold_left_ext; intros a x; rewrite H.
    reflexivity. }
  rewrite Ed; apply fold_left_ext; intros [newRanks maxDelta] nodeId.
  assert (En : newRank g N d (danglingSum dangling pr') pr nodeId
               = newRank g N d (danglingSum dangling pr') pr' nodeId).
  { unfold newRank, incomingSum.
    destruct (JsMap.get nodeId (reverseEdges g)); [|reflexivity].
    do 3 f_equal; apply fold_left_ext; intros a x; rewrite H; reflexivity. }
  rewrite En, H; reflexivity.
Qed.

Lemma pagerank_loop_lookups g N d dangling remaining iterations pr pr' :
  sameLookups pr pr' ->
  sameLookups (fst (pagerank_loop g N d dangling remaining iterations pr))
              (fst (pagerank_loop g N d dangling remaining iterations pr')).
Proof.
  intros H; destruct remaining as [|r]; [exact H|].
  cbn [pagerank_loop]; rewrite (pagerank_pass_lookups g N d dangling pr pr' H).
  apply sameLookups_refl.
Qed.

Lemma pagerank_pass_struct g h N d dangling pr :
  nodes g = nodes h -> edges g = edges h -> reverseEdges g = reverseEdges h ->
  pagerank_pass g N d dangling pr = pagerank_pass h N d dangling pr.
Proof.
  intros En Ee Er.
  unfold pagerank_pass, newRank, incomingSum, outDegree.
  rewrite En, Ee, Er; reflexivity.
Qed.

Lemma pagerank_loop_struct g h N d dangling remaining :
  nodes g = nodes h -> edges g = edges h -> reverseEdges g = reverseEdges h ->
  config g = config h ->
  forall iterations pr,
    pagerank_loop g N d dangling remaining iterations pr
    = pagerank_loop h N d dangling remaining iterations pr.
Proof.
  intros En Ee Er Ec; induction remaining as [|r IH]; intros it pr;
    [reflexivity|].
  cbn [pagerank_loop].
  rewrite (pagerank_pass_struct g h N d dangling pr En Ee Er), Ec.
  destruct (pagerank_pass h N d dangling pr) as [newRanks maxDelta].
  destruct (Qlt_bool _ _); [reflexivity | apply IH].
Qed.

Lemma computePageRank_congr g h :
  nodes g = nodes h -> edges g = edges h -> reverseEdges g = reverseEdges h ->
  config g = config h ->
  sameLookups (initialRanks g) (initialRanks h) ->
  sameLookups (snd (computePageRank g)) (snd (computePageRank h)).
Proof.
  intros En Ee Er Ec Hi.
  rewrite !computePageRank_table, !computePageRank_ranks.
  assert (Ed : danglingNodes g = danglingNodes h)
    by (unfold danglingNodes; rewrite En, Ee; reflexivity).
  rewrite <- En, <- Ec, <- Ed.
  destruct (Nat.eqb (JsMap.size (nodes g)) 0); [apply sameLookups_refl|].
  rewrite <- (pagerank_loop_struct g h _ _ _ _ En Ee Er Ec).
  apply pagerank_loop_lookups, Hi.
Qed.

Lemma initialRanks_lookups g h :
  wf g -> wf h -> nodes g = nodes h ->
  sameLookups (initialRanks g) (initialRanks h).
Proof.
  intros Wg Wh En k; rewrite !initialRanks_get, <- En.
  destruct (JsMap.has k (nodes g)) eqn:Hk; [reflexivity|].
  rewrite (wf_absent_rank g k Wg Hk).
  symmetry; apply wf_absent_rank; [exact Wh | rewrite <- En; exact Hk].
Qed.

Lemma coherent_dirty g : dirty g = true -> coherent g.
Proof. intros H D; congruence. Qed.

Lemma coherent_computePageRank g : wf g -> coherent (fst (computePageRank g)).
Proof.
  intros W _.
  pose proof (wf_computePageRank g W) as W'.
  destruct (computePageRank_frame g) as (En & Ee & Er & _ & Ec & _).
  apply (sameLookups_trans _ (snd (computePageRank g))).
  - rewrite (computePageRank_table g), computePageRank_ranks.
    destruct (Nat.eqb_spec (JsMap.size (nodes g)) 0) as [Z|_];
      [|apply sameLookups_refl].
    intros k; apply wf_absent_rank; [exact W | apply size_zero_has, Z].
  - apply computePageRank_congr;
      [symmetry; exact En | symmetry; exact Ee | symmetry; exact Er
       | symmetry; exact Ec |].
    apply initialRanks_lookups; [exact W | exact W' | symmetry; exact En].
Qed.

Lemma coherent_addEdge g s t ty w : coherent g -> coherent (addEdge g s t ty w).
Proof.
  intros H; unfold addEdge; destruct (_ || _); [exact H|].
  apply coherent_dirty; reflexivity.
Qed.

Lemma coherent_step g op : wf g -> coherent g -> coherent (step g op).
Proof.
  intros W H; destruct op; cbn [step].
  - unfold addNode; destruct (_ && _); [exact H|].
    apply coherent_dirty; reflexivity.
  - apply coherent_addEdge, H.
  - unfold removeNode; destruct (negb _); [exact H|].
    apply coherent_dirty; reflexivity.
  - apply coherent_dirty; reflexivity.
  - unfold addSimilarityEdges.
    destruct got as [ent|]; [|exact H].
    destruct (embedding ent); [|exact H].
    set (body := fun (acc : MemoryGraph * nat) (result : SearchResult) => _).
    enough (G : forall acc, coherent (fst acc) ->
                coherent (fst (fold_left body results acc)))
      by (apply G; exact H).
    induction results as [|r rs IH]; simpl; intros acc Ha; [exact Ha|].
    apply IH; unfold body; destruct acc as [g' added]; simpl in *.
    destruct (String.eqb _ entryId); [exact Ha|].
    destruct (Qle_bool _ _); [|exact Ha].
    simpl; apply coherent_addEdge, Ha.
  - apply coherent_computePageRank, W.
  - intros D.
    eapply sameLookups_trans; [apply (H D)|].
    apply computePageRank_congr; try reflexivity.
    apply sameLookups_refl.
  - unfold rankWithGraph; cbn [fst].
    destruct (dirty g); [apply coherent_computePageRank, W | exact H].
Qed.

Lemma coherent_run ops :
  forall g, wf g -> coherent g -> coherent (run ops g).
Proof.
  unfold run; induction ops as [|op ops IH]; simpl; intros g W H; [exact H|].
  apply IH; [apply wf_step, W | apply coherent_step; assumption].
Qed.

(** X15. Whenever the staleness flag is clear, the cached rank table is
    current: every lookup in it gives what [computePageRank] would return
    for the graph as it is now. *)
Theorem cached_ranks_current (c : option MemoryGraphConfig) (ops : list Op)
    (k : string) :
  let g := run ops (new_graph c) in
  dirty g = false ->
  JsMap.get k (pageRanks g) = JsMap.get k (snd (computePageRank g)).
Proof.
  intros g D.
  apply (coherent_run ops (new_graph c)); [apply wf_new | | exact D].
  apply coherent_dirty; reflexivity.
Qed.

Lemma cached_ranks_current_witness :
  JsMap.get "b" (pageRanks ranked_pair_graph)
  = JsMap.get "b" (snd (computePageRank ranked_pair_graph)).
Proof.
  apply (cached_ranks_current two_pass_config ranked_pair_ops "b").
  vm_compute; reflexivity.
Defined.

Lemma pagerank_stops_when_settled_witness :
  exists k,
    emitted (fst (computePageRank chain_graph))
    = emitted chain_graph ++ [pagerank_computed k]
    /\ (1 <= k <= 2)%nat
    /\ snd (computePageRank chain_graph) = tableAfter chain_graph k.
Proof.
  destruct (pagerank_stops_when_settled chain_graph)
    as (k & E & Hk & _ & H).
  destruct H as (T & H1 & _); [vm_compute; discriminate|].
  exists k; split; [exact E|].
  split; [split; [apply H1; vm_compute; lia | exact Hk] | exact T].
Defined.

Lemma rankOne_lookups g h alpha N r :
  sameLookups (pageRanks g) (pageRanks h) -> communities g = communities h ->
  rankOne g alpha N r = rankOne h alpha N r.
Proof. intros Hp Hc; unfold rankOne; rewrite Hp, Hc; reflexivity. Qed.

Lemma computePageRank_set_dirty g b :
  nodes (fst (computePageRank (set_dirty b g))) = nodes g
  /\ communities (fst (computePageRank (set_dirty b g))) = communities g
  /\ pageRanks (fst (computePageRank (set_dirty b g)))
     = pageRanks (fst (computePageRank g)).
Proof.
  destruct (computePageRank_frame (set_dirty b g)) as (En & _ & _ & Ec & _).
  split; [exact En|]; split; [exact Ec|].
  rewrite !computePageRank_ranks.
  change (nodes (set_dirty b g)) with (nodes g).
  change (config (set_dirty b g)) with (config g).
  destruct (Nat.eqb _ 0); [reflexivity|].
  rewrite (pagerank_loop_struct (set_dirty b g) g) by reflexivity.
  reflexivity.
Qed.

(** X16. The lazy recomputation of [rankWithGraph] is transparent: in every
    state, flag set or clear, the ranking it returns is the one it would
    return if the ranks were recomputed on the spot. *)
Theorem rankWithGraph_never_stale (c : option MemoryGraphConfig) (ops : list Op)
    (results : list SearchResult) (alpha : option Q) :
  let g := run ops (new_graph c) in
  snd (rankWithGraph g results alpha)
  = snd (rankWithGraph (set_dirty true g) results alpha).
Proof.
  intros g.
  assert (W : wf g) by (apply wf_reachable; exists c, ops; reflexivity).
  assert (C : coherent g).
  { apply (coherent_run ops (new_graph c)); [apply wf_new|].
    apply coherent_dirty; reflexivity. }
  destruct (computePageRank_set_dirty g true) as (En & Ec & Ep).
  destruct (computePageRank_frame g) as (En' & _ & _ & Ec' & _).
  unfold rankWithGraph; cbn [snd dirty set_dirty].
  f_equal.
  destruct (dirty g) eqn:D.
  - rewrite En, En'.
    apply map_ext; intros r; apply rankOne_lookups;
      [rewrite Ep; apply sameLookups_refl | congruence].
  - rewrite En.
    apply map_ext; intros r; apply rankOne_lookups; [|congruence].
    rewrite Ep.
    eapply sameLookups_trans; [apply (C D)|].
    rewrite computePageRank_table, computePageRank_ranks.
    destruct (Nat.eqb_spec (JsMap.size (nodes g)) 0) as [Z|_];
      [|apply sameLookups_refl].
    intros k; symmetry; apply wf_absent_rank;
      [exact W | apply size_zero_has, Z].
Qed.

(** ** Shuffling and labels *)

Lemma perm_list_set {T} (l : list T) n (a y : T) :
  nth_error l n = Some y -> Permutation (y :: list_set n a l) (a :: l).
Proof.
  revert n; induction l as [|b l IH]; intros [|n]; simpl; try discriminate.
  - intros [= ->]; apply perm_swap.
  - intros H; specialize (IH n H).
    rewrite perm_swap, IH; apply perm_swap.
Qed.

Lemma swap_cons {T} (a : T) l i j :
  swap (S i) (S j) (a :: l) = a :: swap i j l.
Proof.
  unfold swap; simpl.
  destruct (nth_error l i), (nth_error l j); reflexivity.
Qed.

Lemma swap_perm {T} (l : list T) :
  forall i j, Permutation (swap i j l) l.
Proof.
  induction l as [|a l IH]; intros i j.
  - unfold swap; destruct i, j; reflexivity.
  - destruct i as [|i], j as [|j].
    + reflexivity.
    + unfold swap; simpl.
      destruct (nth_error l j) as [y|] eqn:E; [|reflexivity].
      apply perm_list_set, E.
    + unfold swap; simpl.
      destruct (nth_error l i) as [x|] eqn:E; [|reflexivity].
      apply perm_list_set, E.
    + rewrite swap_cons; apply perm_skip, IH.
Qed.

Lemma shuffle_loop_perm {T} rnd i :
  forall cursor (arr : list T),
    Permutation (fst (shuffle_loop rnd i cursor arr)) arr
    /\ snd (shuffle_loop rnd i cursor arr) = (cursor + i)%nat.
Proof.
  induction i as [|i IH]; intros cursor arr.
  - simpl; split; [reflexivity | lia].
  - cbn [shuffle_loop].
    destruct (IH (S cursor)
                (swap (S i) (Z.to_nat (Qfloor (rnd cursor * Qnat (S i + 1))))
                      arr)) as [P E].
    split; [rewrite P; apply swap_perm | rewrite E; lia].
Qed.

(** X17. [shuffleArray] returns a rearrangement of its input, with every
    element kept as often as it occurs, and draws one random number per
    element after the first. *)
Theorem shuffleArray_permutes {T} (rnd : Rng) (cursor : nat) (arr : list T) :
  Permutation (fst (shuffleArray rnd cursor arr)) arr
  /\ snd (shuffleArray rnd cursor arr) = (cursor + (List.length arr - 1))%nat.
Proof. apply shuffle_loop_perm. Qed.

Lemma tally_labels {A} (labels : JsMap.t string) (key : A -> string)
    (val : JsMap.t Q -> string -> A -> Q) l :
  forall lc,
    talliesLabels labels lc ->
    talliesLabels labels
      (fold_left
         (fun lc a =>
            match JsMap.get (key a) labels with
            | Some lbl => JsMap.set lbl (val lc lbl a) lc
            | None => lc
            end) l lc).
Proof.
  induction l as [|a l IH]; simpl; intros lc H; [exact H|].
  apply IH.
  destruct (JsMap.get (key a) labels) as [lbl|] eqn:E; [|exact H].
  intros lbl' Hl; rewrite has_set in Hl.
  destruct (String.eqb_spec lbl' lbl); [subst; eauto | apply H, Hl].
Qed.

Lemma labelCounts_labels g labels x :
  talliesLabels labels (labelCounts g labels x).
Proof.
  unfold labelCounts.
  assert (O : talliesLabels labels
                (fold_left
                   (fun lc edge =>
                      match JsMap.get (targetId edge) labels with
                      | Some lbl =>
                          JsMap.set lbl
                            (num_or (JsMap.get lbl lc) 0 + weight edge) lc
                      | None => lc
                      end)
                   (or_default (JsMap.get x (edges g)) []) JsMap.empty)).
  { apply (tally_labels labels targetId
             (fun lc lbl edge => num_or (JsMap.get lbl lc) 0 + weight edge)).
    intros lbl H; discriminate. }
  destruct (JsMap.get x (reverseEdges g)); [|exact O].
  apply (tally_labels labels (fun s : string => s)
           (fun lc lbl _ => num_or (JsMap.get lbl lc) 0 + 1)), O.
Qed.

Lemma best_label (lc : JsMap.t Q) :
  forall b : option string * Q,
    let best :=
      fold_left
        (fun (b : option string * Q) (lc_entry : string * Q) =>
           let (maxLabel, maxCount) := b in
           let (label, count) := lc_entry in
           if Qlt_bool maxCount count then (Some label, count) else b)
        lc b in
    fst best = fst b
    \/ exists lbl, fst best = Some lbl /\ JsMap.has lbl lc = true.
Proof.
  induction lc as [|[label count] lc IH]; intros [maxLabel maxCount]; simpl;
    [auto|].
  destruct (Qlt_bool maxCount count).
  - destruct (IH (Some label, count)) as [E|(lbl & E & H)].
    + right; exists label; split; [exact E|].
      unfold JsMap.has; simpl; rewrite String.eqb_refl; reflexivity.
    + right; exists lbl; split; [exact E|].
      unfold JsMap.has in *; simpl.
      destruct (String.eqb lbl label); [reflexivity | exact H].
  - destruct (IH (maxLabel, maxCount)) as [E|(lbl & E & H)]; [auto|].
    right; exists lbl; split; [exact E|].
    unfold JsMap.has in *; simpl.
    destruct (String.eqb lbl label); [reflexivity | exact H].
Qed.

Lemma visit_labels g labels changed x :
  labelsAreNodes g labels ->
  labelsAreNodes g (fst (visit g (labels, changed) x)).
Proof.
  intros H; unfold visit.
  destruct (0 <? JsMap.size (labelCounts g labels x))%nat; [|exact H].
  destruct (negb _); [|exact H].
  pose proof (best_label (labelCounts g labels x) (JsMap.get x labels, 0)) as B.
  cbv zeta in B.
  destruct (fst (fold_left _ (labelCounts g labels x) _)) as [maxLabel|];
    [|exact H].
  cbn [fst]; intros v l; rewrite get_set.
  destruct (String.eqb v x); [|apply H].
  intros [= <-].
  destruct B as [E|(lbl & [= <-] & Hl)].
  - simpl in E; apply (H x); symmetry; exact E.
  - destruct (labelCounts_labels g labels x _ Hl) as (u & Hu).
    apply (H u), Hu.
Qed.

Lemma visits_labels g nodeIds :
  forall labels changed,
    labelsAreNodes g labels ->
    labelsAreNodes g (fst (fold_left (visit g) nodeIds (labels, changed))).
Proof.
  induction nodeIds as [|x l IH]; intros labels changed H; [exact H|].
  cbn [fold_left].
  pose proof (visit_labels g labels changed x H) as V.
  destruct (visit g (labels, changed) x) as [labels' changed'].
  apply IH, V.
Qed.

Lemma communities_loop_labels g rnd remaining :
  forall passes cursor labels,
    labelsAreNodes g labels ->
    labelsAreNodes g
      (det_labels (communities_loop g rnd remaining passes cursor labels)).
Proof.
  induction remaining as [|r IH]; intros passes cursor labels H; [exact H|].
  cbn [communities_loop].
  destruct (shuffleArray rnd cursor (JsMap.keys (nodes g))) as [nodeIds cursor'].
  pose proof (visits_labels g nodeIds labels false H) as V.
  destruct (fold_left (visit g) nodeIds (labels, false)) as [labels' changed].
  destruct changed; [apply IH, V | exact V].
Qed.

Lemma length_nodup (l : list string) :
  (List.length (nodup string_dec l) <= List.length l)%nat.
Proof.
  induction l as [|x l IH]; simpl; [lia|].
  destruct (in_dec string_dec x l); simpl; lia.
Qed.

(** X18. After [detectCommunities] every node has a label and no other id
    has one, every label is the id of a node, and the number of communities
    (as [getStats] and the emitted notification report it) is at most the
    node count and at least 1 on a non-empty graph; the cached ranks and the
    staleness flag are untouched. *)
Theorem detectCommunities_labels (c : option MemoryGraphConfig) (ops : list Op)
    (rnd : Rng) (cursor : nat) :
  let g := run ops (new_graph c) in
  let g' := fst (detectCommunities g rnd cursor) in
  (forall v, JsMap.has v (communities g') = JsMap.has v (nodes g))
  /\ (forall v l, JsMap.get v (communities g') = Some l ->
                  JsMap.has l (nodes g) = true)
  /\ (communityCount (getStats g') <= nodeCount (getStats g'))%nat
  /\ (JsMap.size (nodes g) <> 0%nat -> 1 <= communityCount (getStats g'))%nat
  /\ emitted g'
     = emitted g ++ [communities_detected (communityCount (getStats g'))]
  /\ pageRanks g' = pageRanks g /\ dirty g' = dirty g.
Proof.
  intros g g'.
  assert (W : wf g) by (apply wf_reachable; exists c, ops; reflexivity).
  pose proof (detectCommunities_keys g rnd cursor (wf_nodes_keys g W)) as K.
  fold g' in K.
  assert (L : List.length (map snd (communities g')) = JsMap.size (nodes g)).
  { rewrite length_map, <- (length_map fst (communities g')).
    fold (JsMap.keys (communities g')); rewrite K.
    apply length_map. }
  split; [intros v; rewrite !has_keys, K; reflexivity|].
  split.
  { unfold g', detectCommunities, emit; cbn [fst communities].
    apply communities_loop_labels.
    intros v l; rewrite initialLabels_get.
    destruct (JsMap.has v (nodes g)) eqn:Hv; [|discriminate].
    intros [= <-]; exact Hv. }
  split.
  { unfold getStats; cbn [communityCount nodeCount].
    change (nodes g') with (nodes g); rewrite <- L; apply length_nodup. }
  split.
  { intros NZ; unfold getStats; cbn [communityCount].
    destruct (map snd (communities g')) as [|x l] eqn:E;
      [simpl in L; congruence|].
    assert (I : In x (nodup string_dec (x :: l)))
      by (apply nodup_In; left; reflexivity).
    destruct (nodup string_dec (x :: l)); [destruct I | simpl; lia]. }
  split; [reflexivity | split; reflexivity].
Qed.

(** ** Traversal *)

Lemma In_add t x s : In t (JsSet.add x s) <-> t = x \/ In t s.
Proof.
  rewrite <- !JsSetFacts.elem_has, JsSetFacts.has_add, orb_true_iff.
  rewrite String.eqb_eq; tauto.
Qed.

Lemma expand_edges id (E : list GraphEdge) :
  forall v n,
    let out :=
      fold_left
        (fun (acc : JsSet.t * JsSet.t) edge =>
           let (visited, nextFrontier) := acc in
           if negb (JsSet.has (targetId edge) visited)
              && negb (String.eqb (targetId edge) id)
           then (JsSet.add (targetId edge) visited,
                 JsSet.add (targetId edge) nextFrontier)
           else acc) E (v, n) in
    (forall t, In t (fst out)
               <-> In t v \/ (t <> id /\ exists e, In e E /\ targetId e = t))
    /\ (forall t, In t (snd out)
                  <-> In t n
                      \/ (~ In t v /\ t <> id
                          /\ exists e, In e E /\ targetId e = t)).
Proof.
  induction E as [|e0 E IH]; intros v n; simpl.
  - split; intros t; split; auto; intros [H|H]; auto;
      [destruct H as (_ & e & [] & _) | destruct H as (_ & _ & e & [] & _)].
  - destruct (JsSet.has (targetId e0) v) eqn:Hv;
      [|destruct (String.eqb_spec (targetId e0) id) as [Hid|Hid]]; simpl.
    + apply JsSetFacts.elem_has in Hv.
      destruct (IH v n) as [A B]; split; intros t.
      * rewrite A; split; intros [H|(Ht & e & I & E')]; auto.
        -- right; split; [exact Ht | exists e; auto].
        -- destruct I as [<-|I]; [left; congruence|].
           right; split; [exact Ht | exists e; auto].
      * rewrite B; split; intros [H|(Hn & Ht & e & I & E')]; auto.
        -- right; repeat split; auto; exists e; auto.
        -- destruct I as [<-|I]; [exfalso; apply Hn; congruence|].
           right; repeat split; auto; exists e; auto.
    + destruct (IH v n) as [A B]; split; intros t.
      * rewrite A; split; intros [H|(Ht & e & I & E')]; auto.
        -- right; split; [exact Ht | exists e; auto].
        -- destruct I as [<-|I]; [congruence|].
           right; split; [exact Ht | exists e; auto].
      * rewrite B; split; intros [H|(Hn & Ht & e & I & E')]; auto.
        -- right; repeat split; auto; exists e; auto.
        -- destruct I as [<-|I]; [congruence|].
           right; repeat split; auto; exists e; auto.
    + apply JsSetFacts.elem_has_false in Hv.
      destruct (IH (JsSet.add (targetId e0) v) (JsSet.add (targetId e0) n))
        as [A B]; split; intros t.
      * rewrite A, In_add; split.
        -- intros [[->|H]|(Ht & e & I & E')]; auto.
           ++ right; split; [exact Hid | exists e0; auto].
           ++ right; split; [exact Ht | exists e; auto].
        -- intros [H|(Ht & e & [<-|I] & E')]; auto.
           right; split; [exact Ht | exists e; auto].
      * rewrite B, !In_add; split.
        -- intros [[->|H]|(Hn & Ht & e & I & E')]; auto.
           ++ right; repeat split; auto; exists e0; auto.
           ++ right; repeat split; auto; exists e; auto.
        -- intros [H|(Hn & Ht & e & [<-|I] & E')]; auto.
           destruct (string_dec t (targetId e0)) as [->|Hne]; auto.
           right; split; [tauto|].
           split; [exact Ht | exists e; auto].
Qed.

Lemma expand_level g id (F : list string) :
  forall v n,
    let out := fold_left (expand g id) F (v, n) in
    (forall t, In t (fst out)
               <-> In t v
                   \/ (t <> id /\ exists m, In m F /\ hasEdge g m t = true))
    /\ (forall t, In t (snd out)
                  <-> In t n
                      \/ (~ In t v /\ t <> id
                          /\ exists m, In m F /\ hasEdge g m t = true)).
Proof.
  induction F as [|m0 F IH]; intros v n; simpl.
  - split; intros t; split; auto; intros [H|H]; auto;
      [destruct H as (_ & m & [] & _) | destruct H as (_ & _ & m & [] & _)].
  - pose proof (expand_edges id (or_default (JsMap.get m0 (edges g)) []) v n)
      as X; cbv zeta in X.
    fold (outEdges g m0) in X.
    change (fold_left _ (outEdges g m0) (v, n)) with (expand g id (v, n) m0) in X.
    destruct (expand g id (v, n) m0) as [v1 n1]; simpl in X.
    destruct X as [A1 B1].
    assert (E1 : forall t, (exists e, In e (outEdges g m0) /\ targetId e = t)
                           <-> hasEdge g m0 t = true)
      by (intros t; symmetry; apply In_outEdges_hasEdge).
    destruct (IH v1 n1) as [A B]; split; intros t.
    + rewrite A, A1, E1; split.
      * intros [[H|(Ht & H)]|(Ht & m & I & H)]; auto.
        -- right; split; [exact Ht | exists m0; auto].
        -- right; split; [exact Ht | exists m; auto].
      * intros [H|(Ht & m & [<-|I] & H)]; auto.
        right; split; [exact Ht | exists m; auto].
    + rewrite B, B1, A1, E1; split.
      * intros [[H|(Hn & Ht & H)]|(Hn & Ht & m & I & H)]; auto.
        -- right; repeat split; auto; exists m0; auto.
        -- right; split; [tauto|]; split; [exact Ht | exists m; auto].
      * intros [H|(Hn & Ht & m & [<-|I] & H)]; auto.
        destruct (in_dec string_dec t v1) as [Iv|Nv].
        -- apply A1 in Iv; rewrite E1 in Iv.
           destruct Iv as [Iv|(_ & Iv)]; [contradiction|].
           left; right; auto.
        -- right; split; [rewrite A1, E1 in Nv; exact Nv|].
           split; [exact Ht | exists m; auto].
Qed.

Lemma path_snoc g n s m t :
  path g n s m -> hasEdge g m t = true -> path g (S n) s t.
Proof.
  induction 1; intros H'.
  - econstructor; [exact H' | constructor].
  - econstructor; [eassumption | apply IHpath, H'].
Qed.

Lemma path_last g n s t :
  path g (S n) s t -> exists m, path g n s m /\ hasEdge g m t = true.
Proof.
  revert s; induction n as [|n IH]; intros s P;
    inversion P as [|n0 s0 m0 t0 He Hp]; subst.
  - inversion Hp; subst; exists s; split; [constructor | assumption].
  - destruct (IH _ Hp) as (m' & P' & H').
    exists m'; split; [econstructor; eassumption | exact H'].
Qed.

Lemma within_mono g id k k' t : (k <= k')%nat -> within g id k t -> within g id k' t.
Proof. intros L (n & Hn & P); exists n; split; [lia | exact P]. Qed.

Lemma within_step g id k m t :
  m = id \/ within g id k m -> hasEdge g m t = true -> within g id (S k) t.
Proof.
  intros [->|(n & Hn & P)] H.
  - exists 1%nat; split; [lia|].
    econstructor; [exact H | constructor].
  - exists (S n); split; [lia | eapply path_snoc; eassumption].
Qed.

(** One level of the traversal takes the state after [k] levels to the
    state after [k + 1]. *)
Lemma level_step g id k visited frontier :
  levelState g id k visited frontier ->
  levelState g id (S k)
    (fst (fold_left (expand g id) frontier (visited, [])))
    (snd (fold_left (expand g id) frontier (visited, []))).
Proof.
  intros [I1 I2].
  destruct (expand_level g id frontier visited []) as [A B].
  assert (Src : forall m, In m frontier -> m = id \/ within g id k m).
  { intros m Hm; apply I2 in Hm.
    destruct Hm as [[_ ->]|(_ & _ & Hw & _)]; auto. }
  assert (Found : forall t, t <> id -> within g id (S k) t ->
                            ~ within g id k t ->
                            exists m, In m frontier /\ hasEdge g m t = true).
  { intros t Ht (n & Hn & P) Nw.
    assert (n = S k).
    { destruct (Nat.eq_dec n (S k)); [assumption|].
      exfalso; apply Nw; exists n; split; [lia | exact P]. }
    subst n; apply path_last in P; destruct P as (m & P & H).
    exists m; split; [|exact H].
    apply I2; destruct k as [|k].
    - left; split; [reflexivity | inversion P; reflexivity].
    - right; split; [lia|].
      assert (Hm : m <> id).
      { intros ->; apply Nw.
        exists 1%nat; split; [lia|].
        econstructor; [exact H | constructor]. }
      split; [exact Hm|].
      split; [exists (S k); split; [lia | exact P]|].
      intros Wm; apply Nw.
      replace (S k) with (S (S k - 1)) by lia.
      eapply within_step; [right; exact Wm | exact H]. }
  split; intros t.
  - rewrite A, I1; split.
    + intros [[Ht Hw]|(Ht & m & Hm & H)].
      * split; [exact Ht | eapply within_mono; [|exact Hw]; lia].
      * split; [exact Ht | eapply within_step; [apply Src, Hm | exact H]].
    + intros [Ht Hw].
      destruct (in_dec string_dec t visited) as [Iv|Nv];
        [left; apply I1, Iv|].
      right; split; [exact Ht|].
      apply Found; auto.
      intros Hk; apply Nv, I1; auto.
  - rewrite B; unfold atLevel; split.
    + intros [[]|(Nv & Ht & m & Hm & H)].
      right; split; [lia|].
      split; [exact Ht|].
      split; [eapply within_step; [apply Src, Hm | exact H]|].
      replace (S k - 1)%nat with k by lia.
      intros Hk; apply Nv, I1; auto.
    + intros [[Hk _]|(_ & Ht & Hw & Nw)]; [discriminate|].
      replace (S k - 1)%nat with k in Nw by lia.
      right; split; [intros Iv; apply Nw, I1, Iv|].
      split; [exact Ht | apply Found; assumption].
Qed.

(** Once a level is empty, no longer path reaches anything new. *)
Lemma level_saturated g id k visited :
  (forall t, In t visited <-> t <> id /\ within g id k t) ->
  (forall t, ~ atLevel g id (S k) t) ->
  forall n t, t <> id -> (1 <= n)%nat -> path g n id t -> within g id (S k) t.
Proof.
  intros I1 Empty; induction n as [|n IH]; intros t Ht Hn P; [lia|].
  apply path_last in P; destruct P as (m & P & H).
  destruct (string_dec m id) as [->|Hm];
    [eapply within_mono; [|eapply (within_step g id 0); [left; reflexivity | exact H]]; lia|].
  destruct n as [|n]; [inversion P; congruence|].
  specialize (IH m Hm ltac:(lia) P).
  destruct (in_dec string_dec m visited) as [Iv|Nv].
  - apply I1 in Iv; destruct Iv as [_ Wm].
    eapply within_step; [right; exact Wm | exact H].
  - exfalso; apply (Empty m); right.
    split; [lia|].
    split; [exact Hm|].
    split; [exact IH|].
    replace (S k - 1)%nat with k by lia.
    intros Wm; apply Nv, I1; auto.
Qed.

Lemma neighbors_loop_exact g id remaining :
  forall k visited frontier,
    levelState g id k visited frontier ->
    forall t, In t (neighbors_loop g id remaining visited frontier)
              <-> t <> id /\ within g id (k + remaining) t.
Proof.
  induction remaining as [|r IH]; intros k visited frontier L t.
  - rewrite Nat.add_0_r; apply L.
  - cbn [neighbors_loop].
    pose proof (level_step g id k visited frontier L) as L'.
    destruct (fold_left (expand g id) frontier (visited, []))
      as [visited' next]; simpl in L'.
    destruct (Nat.eqb_spec (List.length next) 0) as [Z|NZ].
    + destruct L' as [I1 I2]; rewrite I1.
      split; intros [Ht Hw]; (split; [exact Ht|]).
      * eapply within_mono; [|exact Hw]; lia.
      * destruct Hw as (n & Hn & P).
        apply (level_saturated g id k visited (proj1 L)) with (n := n);
          auto; [|lia].
        intros x Hx; apply I2 in Hx.
        destruct next; [destruct Hx | discriminate].
    + rewrite (IH (S k) visited' next L').
      replace (S k + r)%nat with (k + S r)%nat by lia; reflexivity.
Qed.

(** X19. [getNeighbors(id, depth)] returns exactly the nodes other than
    [id] that a path of at least one and at most [depth] outgoing edges
    leads to from [id] (depth 1 when omitted): nothing else, nothing
    missing, and never [id] itself. *)
Theorem getNeighbors_exact (g : MemoryGraph) (id : string) (depth : option nat)
    (t : string) :
  In t (getNeighbors g id depth)
  <-> t <> id /\ within g id (or_default depth 1%nat) t.
Proof.
  unfold getNeighbors.
  rewrite (neighbors_loop_exact g id (or_default depth 1%nat) 0 [] [id]);
    [reflexivity|].
  split; intros x.
  - split; [intros [] | intros (_ & n & Hn & _); lia].
  - unfold atLevel; simpl; split.
    + intros [<-|[]]; left; auto.
    + intros [[_ ->]|(H & _)]; [left; reflexivity | lia].
Qed.

Lemma getNeighbors_exact_witness :
  In "c" (getNeighbors chain_graph "a" (Some 2%nat))
  /\ ~ In "c" (getNeighbors chain_graph "a" None)
  /\ ~ In "a" (getNeighbors chain_graph "a" (Some 3%nat)).
Proof.
  split; [|split].
  - apply (getNeighbors_exact chain_graph "a" (Some 2%nat) "c").
    split; [discriminate|].
    exists 2%nat; split; [unfold or_default; lia|].
    apply (path_step chain_graph 1 "a" "b" "c"); [reflexivity|].
    apply (path_step chain_graph 0 "b" "c" "c"); [reflexivity | constructor].
  - intros H.
    apply (getNeighbors_exact chain_graph "a" None "c") in H.
    destruct H as (_ & n & Hn & P).
    assert (n = 1%nat) by (unfold or_default in Hn; lia); subst n.
    inversion P as [|n0 s0 m0 t0 He Hp]; subst.
    inversion Hp; subst; discriminate He.
  - intros H.
    apply (getNeighbors_exact chain_graph "a" (Some 3%nat) "a") in H.
    destruct H as [H _]; apply H; reflexivity.
Defined.

Lemma detectCommunities_labels_witness :
  let g' := fst (detectCommunities chain_graph half_rng 0) in
  (1 <= communityCount (getStats g') <= 3)%nat
  /\ forall v l, JsMap.get v (communities g') = Some l ->
                 JsMap.has l (nodes chain_graph) = true.
Proof.
  destruct (detectCommunities_labels two_pass_config chain_ops half_rng 0)
    as (_ & L & U & P & _).
  split; [split; [apply P; vm_compute; discriminate | exact U] | exact L].
Defined.

(** ** Further sample runs *)

Example chain_neighbors :
  getNeighbors chain_graph "a" None = ["b"]
  /\ getNeighbors chain_graph "a" (Some 2%nat) = ["b"; "c"]
  /\ getNeighbors chain_graph "a" (Some 5%nat) = ["b"; "c"]
  /\ getNeighbors chain_graph "a" (Some 0%nat) = [].
Proof. repeat split; reflexivity. Qed.

Example chain_stats :
  nodeCount (getStats chain_graph) = 3%nat
  /\ edgeCount (getStats chain_graph) = 3%nat
  /\ pageRankComputed (getStats chain_graph) = false
  /\ minPageRank (getStats chain_graph) = Finite 0.
Proof. repeat split; reflexivity. Qed.

Example chain_top :
  map top_id (snd (getTopNodes chain_graph 2)) = ["a"; "b"]
  /\ map top_community (snd (getTopNodes chain_graph 2)) = ["a"; "b"].
Proof. split; vm_compute; reflexivity. Qed.

Example similarity_count :
  snd (addSimilarityEdges chain_graph "a" (Some (embedded_entry "a"))
                          neighbour_results) = 1%nat
  /\ snd (addSimilarityEdges chain_graph "zz" (Some (embedded_entry "zz"))
                             neighbour_results) = 3%nat.
Proof. split; vm_compute; reflexivity. Qed.
